(** * The text core of the Ollama chat client

    A shallow embedding of the parsing and patching functions of
    [src/App.jsx]: [validateAndSanitizePath], [getLanguageFromPath],
    [deduplicateArtifacts], [findTargetFileForEdit], [parseSearchReplace],
    [applySearchReplace] and [parseLLMResponse], with the properties the
    specification states about them, and of [calculateSimilarity],
    [handleArtifactUpdate], [handleApplyEditFromViewer], the statement of
    [sendMessage] that takes the files of a response, and [fileTree], which
    use them.  [src/unnamed/part_000] holds an
    earlier revision of the file; where it differs, in
    [applySearchReplace] and [parseLLMResponse], it is embedded too, in
    the module [Earlier].

    JavaScript strings are sequences of code units.  They are modelled as
    lists of 8-bit characters (the Latin-1 range of code units); white space,
    case mapping and the regular expression classes are those of ECMAScript
    restricted to that range.  Regular expressions are values of the type
    [Regex.regex], run by a backtracking matcher with the priorities of
    ECMAScript.  Calls of the clock, the random generator and the
    Performance interface go through a record [Host] and are counted. *)

From Stdlib Require Import ZArith QArith Ascii String List Bool Lia DecimalString.
From stdpp Require Import base decidable option list gmap sets strings.

Local Open Scope Z_scope.

(** ** JavaScript strings *)

Module Js.

Abbreviation jsstring := (list ascii).

(** A string literal of the source. *)
Definition str (s : string) : jsstring := list_ascii_of_string s.

Definition LF : ascii := ascii_of_nat 10.
Definition CR : ascii := ascii_of_nat 13.
Definition DQUOTE : ascii := ascii_of_nat 34.
Definition BACKSLASH : ascii := ascii_of_nat 92.

(** The values a loosely typed argument can hold.  [VBuiltin] stands for
    the built-in objects a property lookup on an object literal can reach
    through the prototype chain. *)
Inductive jsval :=
| VUndefined
| VNull
| VBool (b : bool)
| VNum (n : Z)
| VStr (s : jsstring)
| VBuiltin (name : jsstring).

(** [typeof v === 'string'] *)
Definition isString (v : jsval) : bool :=
  match v with VStr _ => true | _ => false end.

(** [!v]: the falsy values are undefined, null, false, 0 and the empty string. *)
Definition falsy (v : jsval) : bool :=
  match v with
  | VUndefined | VNull => true
  | VBool b => negb b
  | VNum n => n =? 0
  | VStr s => match s with [] => true | _ => false end
  | VBuiltin _ => false
  end.

(** White space and line terminators of ECMAScript below U+0100:
    TAB, LF, VT, FF, CR, SP and NBSP.  This is the set of [trim] and of
    the class [\s]. *)
Definition isWhiteSpace (c : ascii) : bool :=
  let n := nat_of_ascii c in
  ((9 <=? n)%nat && (n <=? 13)%nat) || (n =? 32)%nat || (n =? 160)%nat.

Definition toLowerChar (c : ascii) : ascii :=
  let n := nat_of_ascii c in
  if ((65 <=? n)%nat && (n <=? 90)%nat)
     || ((192 <=? n)%nat && (n <=? 222)%nat && negb (n =? 215)%nat)
  then ascii_of_nat (n + 32) else c.

(** [s.toLowerCase()] *)
Definition toLowerCase (s : jsstring) : jsstring := map toLowerChar s.

(** [s.startsWith(p)] *)
Fixpoint startsWith (s p : jsstring) : bool :=
  match p, s with
  | [], _ => true
  | _ :: _, [] => false
  | a :: p', b :: s' => Ascii.eqb a b && startsWith s' p'
  end.

(** [s.endsWith(p)] *)
Definition endsWith (s p : jsstring) : bool := startsWith (rev s) (rev p).

(** The smallest index at or after [i] where [search] occurs, or -1;
    [s] is the part of the string from index [i] on. *)
Fixpoint indexOfFrom (s search : jsstring) (i : nat) : Z :=
  if startsWith s search then Z.of_nat i
  else match s with
       | [] => -1
       | _ :: s' => indexOfFrom s' search (S i)
       end.

(** [s.indexOf(search)] *)
Definition indexOf (s search : jsstring) : Z := indexOfFrom s search 0.

(** [s.includes(search)] *)
Definition includes (s search : jsstring) : bool := negb (indexOf s search =? -1).

(** The largest index [k' <= k] where [search] occurs in [s], or -1. *)
Fixpoint lastIndexOfFrom (s search : jsstring) (k : nat) : Z :=
  if startsWith (drop k s) search then Z.of_nat k
  else match k with
       | O => -1
       | S k' => lastIndexOfFrom s search k'
       end.

(** [s.lastIndexOf(search)] *)
Definition lastIndexOf (s search : jsstring) : Z :=
  lastIndexOfFrom s search (length s).

(** An index argument of [substring]: NaN and negative values count as 0,
    values beyond the length as the length. *)
Definition clampIndex (s : jsstring) (i : Z) : nat :=
  Nat.min (Z.to_nat i) (length s).

(** [s.substring(a, b)]: the arguments are clamped and swapped if needed. *)
Definition substring (s : jsstring) (a b : Z) : jsstring :=
  let x := clampIndex s a in
  let y := clampIndex s b in
  take (Nat.max x y - Nat.min x y) (drop (Nat.min x y) s).

(** [s.substring(a)] *)
Definition substringFrom (s : jsstring) (a : Z) : jsstring :=
  drop (clampIndex s a) s.

(** [s.split(sep)] for a one-character separator; never the empty array. *)
Fixpoint split (sep : ascii) (s : jsstring) : list jsstring :=
  match s with
  | [] => [[]]
  | c :: s' =>
      if Ascii.eqb c sep then [] :: split sep s'
      else match split sep s' with
           | [] => [[c]]
           | l :: ls => (c :: l) :: ls
           end
  end.

(** [xs.join(sep)] *)
Fixpoint join (sep : jsstring) (xs : list jsstring) : jsstring :=
  match xs with
  | [] => []
  | x :: xs' =>
      match xs' with
      | [] => x
      | _ :: _ => x ++ sep ++ join sep xs'
      end
  end.

(** [xs.pop()] read as a value: the last element, if any. *)
Definition pop {A} (xs : list A) : option A := last xs.

Fixpoint dropWhile {A} (p : A -> bool) (l : list A) : list A :=
  match l with
  | [] => []
  | x :: l' => if p x then dropWhile p l' else l
  end.

Fixpoint takeWhile {A} (p : A -> bool) (l : list A) : list A :=
  match l with
  | [] => []
  | x :: l' => if p x then x :: takeWhile p l' else []
  end.

Definition trimStart (s : jsstring) : jsstring := dropWhile isWhiteSpace s.
Definition trimEnd (s : jsstring) : jsstring := rev (dropWhile isWhiteSpace (rev s)).

(** [s.trim()] *)
Definition trim (s : jsstring) : jsstring := trimEnd (trimStart s).

(** [s.replace(pat, rep)] for a string pattern: the first occurrence only.
    The replacement is taken literally; every replacement the source
    passes is free of [$]. *)
Definition replaceStr (s pat rep : jsstring) : jsstring :=
  let i := indexOf s pat in
  if i =? -1 then s
  else take (Z.to_nat i) s ++ rep ++ drop (Z.to_nat i + length pat) s.

(** [s.replace(/c/g, rep)] for a single character [c]. *)
Definition replaceChar (c : ascii) (rep : jsstring) (s : jsstring) : jsstring :=
  flat_map (fun x => if Ascii.eqb x c then rep else [x]) s.

(** [s.replace(/[...]/g, '')] for a character class. *)
Definition removeClass (cls : ascii -> bool) (s : jsstring) : jsstring :=
  List.filter (fun x => negb (cls x)) s.

(** [s.replace(/\.\./g, '')]: the occurrences are found left to right and
    do not overlap; the result is not scanned again. *)
Fixpoint removeDotDot (s : jsstring) : jsstring :=
  match s with
  | [] => []
  | c :: s' =>
      match s' with
      | d :: s'' =>
          if Ascii.eqb c "."%char && Ascii.eqb d "."%char
          then removeDotDot s''
          else c :: removeDotDot s'
      | [] => [c]
      end
  end.

End Js.

Import Js.

(** ** Path sanitizing *)

Module PathSanitizer.

(** The class of [validateAndSanitizePath]: the characters < > : | ? and
    the star, and the double quote. *)
Definition forbiddenChar (c : ascii) : bool :=
  Ascii.eqb c "<"%char || Ascii.eqb c ">"%char || Ascii.eqb c ":"%char
  || Ascii.eqb c DQUOTE || Ascii.eqb c "|"%char || Ascii.eqb c "?"%char
  || Ascii.eqb c "*"%char.

Definition validateAndSanitizePath (path : jsval) : jsstring :=
  if falsy path || negb (isString path) then str "unknown.txt"
  else
    match path with
    | VStr p =>
        let sanitized := trim (replaceChar BACKSLASH (str "/") (removeDotDot p)) in
        let sanitized := removeClass forbiddenChar sanitized in
        if negb (includes sanitized (str ".")) && negb (endsWith sanitized (str "/"))
        then sanitized ++ str ".txt"
        else sanitized
    | _ => str "unknown.txt"
    end.

(** The own properties of the [languageMap] literal. *)
Definition languageMap : list (jsstring * jsstring) :=
  map (fun kv => (str (fst kv), str (snd kv)))
    [ ("js", "javascript"); ("jsx", "jsx"); ("ts", "typescript"); ("tsx", "tsx");
      ("css", "css"); ("html", "html"); ("json", "json"); ("md", "markdown");
      ("py", "python"); ("java", "java"); ("cpp", "cpp"); ("c", "c");
      ("php", "php"); ("rb", "ruby"); ("go", "go"); ("rs", "rust");
      ("txt", "text"); ("xml", "xml"); ("yaml", "yaml"); ("yml", "yaml");
      ("sh", "bash"); ("bash", "bash"); ("sql", "sql"); ("vue", "vue");
      ("svelte", "svelte"); ("swift", "swift"); ("kt", "kotlin");
      ("scala", "scala"); ("r", "r"); ("pl", "perl"); ("lua", "lua") ]%string.

Definition strEq (a b : jsstring) : bool := bool_decide (a = b).

Fixpoint assoc (k : jsstring) (m : list (jsstring * jsstring)) : option jsstring :=
  match m with
  | [] => None
  | (k', v) :: m' => if strEq k k' then Some v else assoc k m'
  end.

(** [languageMap[ext]]: an own property, or a member the object literal
    inherits from [Object.prototype].  The key is lower case, so of the
    inherited names only [constructor] and [__proto__] can be hit. *)
Definition languageLookup (ext : jsstring) : jsval :=
  match assoc ext languageMap with
  | Some v => VStr v
  | None =>
      if strEq ext (str "constructor") || strEq ext (str "__proto__")
      then VBuiltin ext
      else VUndefined
  end.

Definition getLanguageFromPath (path : jsval) : jsval :=
  let safePath := validateAndSanitizePath path in
  let ext := option_map toLowerCase (pop (split "."%char safePath)) in
  let found := match ext with Some e => languageLookup e | None => VUndefined end in
  if falsy found then VStr (str "text") else found.

End PathSanitizer.

(** ** Artifacts: deduplication and target resolution *)

Module ArtifactReconciler.

Import PathSanitizer.

Record Artifact := {
  path : jsstring;
  content : jsstring;
  language : jsval;
  id : jsstring;
  type : jsstring;
  createdBy : jsstring;
  timestamp : jsstring;
  source : jsstring;
  lineCount : nat;
  size : nat;
  addedToProject : bool
}.

(** [array.filter(f)] for a callback that reads and updates a captured
    variable of type [St]. *)
Fixpoint filterState {A St} (f : A -> St -> bool * St) (l : list A) (s : St) : list A :=
  match l with
  | [] => []
  | x :: l' =>
      let '(keep, s') := f x s in
      if keep then x :: filterState f l' s' else filterState f l' s'
  end.

(** The callback of [deduplicateArtifacts]; [seen] is the captured [Set]. *)
Definition dedupeStep (artifact : Artifact) (seen : gset jsstring) : bool * gset jsstring :=
  let key := path artifact in
  if decide (key ∈ seen) then (false, seen)
  else (true, {[ key ]} ∪ seen).

Definition deduplicateArtifacts (artifacts : list Artifact) : list Artifact :=
  filterState dedupeStep artifacts ∅.

(** [path.replace(/^\.?\//, '')]: a leading [./] or [/] is removed, once. *)
Definition stripLeadingSlash (s : jsstring) : jsstring :=
  if startsWith s (str "./") then drop 2 s
  else if startsWith s (str "/") then drop 1 s
  else s.

Definition normalizePath (p : jsstring) : jsstring :=
  stripLeadingSlash (replaceChar BACKSLASH (str "/") (toLowerCase p)).

(** [p.split('/').pop()] *)
Definition lastSegment (p : jsstring) : option jsstring := pop (split "/"%char p).

(** The tests of the three loops of [findTargetFileForEdit]. *)
Definition exactMatch (normalizedEditPath : jsstring) (art : Artifact) : bool :=
  strEq (normalizePath (path art)) normalizedEditPath.

Definition basenameMatch (normalizedEditPath : jsstring) (art : Artifact) : bool :=
  bool_decide (lastSegment (normalizePath (path art)) = lastSegment normalizedEditPath).

Definition containsMatch (normalizedEditPath : jsstring) (art : Artifact) : bool :=
  includes (normalizePath (path art)) normalizedEditPath
  || includes normalizedEditPath (normalizePath (path art)).

(** [None] is the [null] of the source. *)
Definition findTargetFileForEdit (artifacts : list Artifact) (editPath : jsstring)
  : option Artifact :=
  if (length artifacts =? 0)%nat then None
  else
    let limitedArtifacts := take 50 artifacts in
    let normalizedEditPath := normalizePath editPath in
    match List.find (exactMatch normalizedEditPath) limitedArtifacts with
    | Some art => Some art
    | None =>
        match List.find (basenameMatch normalizedEditPath) limitedArtifacts with
        | Some art => Some art
        | None => List.find (containsMatch normalizedEditPath) limitedArtifacts
        end
    end.

End ArtifactReconciler.

(** ** Applying search/replace operations *)

Module PatchEngine.

Import PathSanitizer.

Record Operation := {
  search : jsstring;
  replace : jsstring;
  type : jsstring
}.

(** An element of [sortedOperations]: the operation and its index. *)
Record IndexedOperation := {
  op : Operation;
  originalIndex : nat
}.

(** An element of [failedOps]. *)
Module Failure.

Record Debug := {
  searchLength : nat;
  searchLines : nat;
  searchFirst50 : jsstring;
  resultFirst50 : jsstring
}.

Record Info := {
  index : nat;
  search : jsstring;
  reason : jsstring;
  debug : Debug
}.

End Failure.

(** The three variables the loop of [applySearchReplace] updates. *)
Module Loop.

Record State := {
  result : jsstring;
  appliedCount : nat;
  failedOps : list Failure.Info
}.

End Loop.

(** The object [applySearchReplace] returns; [result] is [None] when the
    original content was [null] or [undefined] and is handed back as is. *)
Record PatchResult := {
  result : option jsstring;
  appliedCount : nat;
  failedOps : list Failure.Info
}.

Record NormalizedLine := {
  leadingWhitespace : jsstring;
  content : jsstring;
  original : jsstring
}.

Definition normalizeForComparison (s : jsstring) : list NormalizedLine :=
  map (fun line =>
         {| leadingWhitespace := takeWhile isWhiteSpace line;
            content := trim line;
            original := line |})
      (split LF s).

(** The inner loop over [j]: [resultLines] are the lines from [startIdx]
    on.  Returns [matchFound] and [potentialMatch]. *)
Fixpoint compareLines (searchLines : list NormalizedLine) (resultLines : list jsstring)
  : bool * list jsstring :=
  match searchLines, resultLines with
  | searchLine :: searchLines', resultLine :: resultLines' =>
      let resultContent := trim resultLine in
      if strEq resultContent (content searchLine)
      then let '(matchFound, potentialMatch) := compareLines searchLines' resultLines' in
           (matchFound, resultLine :: potentialMatch)
      else (false, [])
  | _, _ => (true, [])
  end.

(** A string used as a condition: true unless empty. *)
Definition truthy (s : jsstring) : bool :=
  match s with [] => false | _ :: _ => true end.

(** The loop over [startIdx], from [n - 1] down to 0; the new [result]
    at the first start index that matches. *)
Fixpoint fuzzyReplace (searchLines : list NormalizedLine) (resultLines : list jsstring)
    (replace : jsstring) (n : nat) : option jsstring :=
  match n with
  | O => None
  | S startIdx =>
      let '(matchFound, potentialMatch) :=
        compareLines searchLines (drop startIdx resultLines) in
      if matchFound && (length potentialMatch =? length searchLines)%nat then
        let beforeMatch := join [LF] (take startIdx resultLines) in
        let afterMatch :=
          join [LF] (drop (startIdx + length searchLines) resultLines) in
        Some (beforeMatch
              ++ (if truthy beforeMatch then [LF] else [])
              ++ replace
              ++ (if truthy afterMatch then [LF] else [])
              ++ afterMatch)
      else fuzzyReplace searchLines resultLines replace startIdx
  end.

Definition failureInfo (o : IndexedOperation) (result : jsstring) : Failure.Info :=
  let search := search (op o) in
  {| Failure.index := originalIndex o + 1;
     Failure.search :=
       substring search 0 100
       ++ (if (100 <? length search)%nat then str "..." else []);
     Failure.reason :=
       str "No exact or fuzzy match found. Check whitespace and indentation.";
     Failure.debug :=
       {| Failure.searchLength := length search;
          Failure.searchLines := length (split LF search);
          Failure.searchFirst50 :=
            replaceChar LF [BACKSLASH; "n"%char] (substring search 0 50);
          Failure.resultFirst50 :=
            replaceChar LF [BACKSLASH; "n"%char] (substring result 0 50) |} |}.

(** One turn of the loop over the operations. *)
Definition applyOperation (st : Loop.State) (o : IndexedOperation) : Loop.State :=
  let search := search (op o) in
  let replace := replace (op o) in
  let lastIndex := lastIndexOf (Loop.result st) search in
  let '(result', appliedCount', lastIndex') :=
    if lastIndex =? -1 then
      let searchLines := normalizeForComparison search in
      let resultLines := split LF (Loop.result st) in
      match fuzzyReplace searchLines resultLines replace (length resultLines) with
      | Some r => (r, S (Loop.appliedCount st), 0)
      | None => (Loop.result st, Loop.appliedCount st, lastIndex)
      end
    else
      (substring (Loop.result st) 0 lastIndex
       ++ replace
       ++ substringFrom (Loop.result st) (lastIndex + Z.of_nat (length search)),
       S (Loop.appliedCount st), lastIndex) in
  {| Loop.result := result';
     Loop.appliedCount := appliedCount';
     Loop.failedOps :=
       if lastIndex' =? -1 then Loop.failedOps st ++ [failureInfo o result']
       else Loop.failedOps st |}.

(** [limitedOperations.map((op, index) => ({...op, originalIndex: index}))] *)
Definition indexOperations (ops : list Operation) : list IndexedOperation :=
  imap (fun index o => {| op := o; originalIndex := index |}) ops.

(** [None] for an argument is [null] or [undefined].  The loop runs from
    the last element of [sortedOperations] to the first. *)
Definition applySearchReplace (originalContent : option jsstring)
    (operations : option (list Operation)) : PatchResult :=
  match originalContent, operations with
  | Some original, Some ops =>
      if negb (truthy original) || (length ops =? 0)%nat then
        {| result := originalContent; appliedCount := 0; failedOps := [] |}
      else
        let limitedOperations := take 20 ops in
        let sortedOperations := indexOperations limitedOperations in
        let st := fold_left applyOperation (rev sortedOperations)
                    {| Loop.result := original; Loop.appliedCount := 0;
                       Loop.failedOps := [] |} in
        {| result := Some (Loop.result st);
           appliedCount := Loop.appliedCount st;
           failedOps := Loop.failedOps st |}
  | _, _ => {| result := originalContent; appliedCount := 0; failedOps := [] |}
  end.

End PatchEngine.

(** ** Regular expressions

    The matcher of the host: a backtracking matcher in continuation-passing
    style, with the priorities of ECMAScript (the left alternative first,
    greedy and lazy repetition, the leftmost start index).  A repetition turn
    that consumes nothing is rejected, as in the standard, so the number of
    turns is bounded by the length of the remaining input. *)

Module Regex.

Inductive regex :=
| Empty
| Lit (c : ascii)
| Class (cls : ascii -> bool)
| Seq (r1 r2 : regex)
| Alt (r1 r2 : regex)
| Star (greedy : bool) (r : regex)
| Group (n : nat) (r : regex)
| Bol
| Eol.

(** Derived forms: [r+], [r+?], [r?], a literal word, a sequence, a choice. *)
Definition Plus (r : regex) : regex := Seq r (Star true r).
Definition LazyPlus (r : regex) : regex := Seq r (Star false r).
Definition Opt (r : regex) : regex := Alt r Empty.

Fixpoint lits (s : jsstring) : regex :=
  match s with
  | [] => Empty
  | c :: s' => match s' with [] => Lit c | _ :: _ => Seq (Lit c) (lits s') end
  end.

Definition word (s : string) : regex := lits (str s).

Fixpoint seqs (rs : list regex) : regex :=
  match rs with
  | [] => Empty
  | r :: rs' => match rs' with [] => r | _ :: _ => Seq r (seqs rs') end
  end.

Fixpoint alts (rs : list regex) : regex :=
  match rs with
  | [] => Empty
  | r :: rs' => match rs' with [] => r | _ :: _ => Alt r (alts rs') end
  end.

(** The classes the source uses. *)
Definition isDigit (c : ascii) : bool :=
  let n := nat_of_ascii c in (48 <=? n)%nat && (n <=? 57)%nat.

Definition isWordChar (c : ascii) : bool :=
  let n := nat_of_ascii c in
  ((65 <=? n)%nat && (n <=? 90)%nat) || ((97 <=? n)%nat && (n <=? 122)%nat)
  || isDigit c || (n =? 95)%nat.

Definition isLineTerminator (c : ascii) : bool := Ascii.eqb c LF || Ascii.eqb c CR.

(** [\s], [\w], [\d], [.], [[\s\S]], [[^\n]], [[^\r\n]], [[^\s]] and
    [[a-zA-Z0-9_\-\/\.]]. *)
Definition space : regex := Class isWhiteSpace.
Definition wordChar : regex := Class isWordChar.
Definition digit : regex := Class isDigit.
Definition dot : regex := Class (fun c => negb (isLineTerminator c)).
Definition anyChar : regex := Class (fun _ => true).
Definition notLF : regex := Class (fun c => negb (Ascii.eqb c LF)).
Definition notCRLF : regex := Class (fun c => negb (isLineTerminator c)).
Definition notSpace : regex := Class (fun c => negb (isWhiteSpace c)).
Definition fileNameChar : regex :=
  Class (fun c => isWordChar c || Ascii.eqb c "-"%char || Ascii.eqb c "/"%char
                  || Ascii.eqb c "."%char).

(** The state of a match attempt: the current index, the input from there
    on, and the captures recorded so far (latest first), each with the
    indices of its start and end. *)
Record mstate := {
  pos : nat;
  rest : jsstring;
  caps : list (nat * (nat * nat))
}.

(** Equality of a pattern character and an input character; with the
    flag [i] both are compared after case folding. *)
Definition sameChar (ignoreCase : bool) (c x : ascii) : bool :=
  if ignoreCase then Ascii.eqb (toLowerChar c) (toLowerChar x) else Ascii.eqb c x.

Definition orElse {A} (a b : option A) : option A :=
  match a with Some _ => a | None => b end.

(** The repetition of [body]: [again] is one more turn, which must consume
    input, followed by the rest of the loop; a greedy loop tries it before
    the continuation [k], a lazy loop after.  [n] bounds the number of turns
    and is at least the length of the remaining input, so it never cuts a
    loop short (lemma [iterate_bound]). *)
Fixpoint iterate (body : mstate -> (mstate -> option mstate) -> option mstate)
    (greedy : bool) (k : mstate -> option mstate) (n : nat) (st : mstate)
  : option mstate :=
  let again :=
    match n with
    | O => None
    | S n' =>
        body st (fun st' => if (pos st' =? pos st)%nat then None
                            else iterate body greedy k n' st')
    end in
  if greedy then orElse again (k st) else orElse (k st) again.

(** [run i r st k]: match [r] at [st] and hand the state after it to the
    continuation [k]; [None] makes the matcher backtrack.  The classes of
    the source are closed under case, so the flag only affects literals. *)
Fixpoint run (ignoreCase : bool) (r : regex) (st : mstate)
    (k : mstate -> option mstate) {struct r} : option mstate :=
  match r with
  | Empty => k st
  | Lit c =>
      match rest st with
      | x :: xs =>
          if sameChar ignoreCase c x
          then k {| pos := S (pos st); rest := xs; caps := caps st |}
          else None
      | [] => None
      end
  | Class cls =>
      match rest st with
      | x :: xs =>
          if cls x
          then k {| pos := S (pos st); rest := xs; caps := caps st |}
          else None
      | [] => None
      end
  | Seq r1 r2 => run ignoreCase r1 st (fun st' => run ignoreCase r2 st' k)
  | Alt r1 r2 => orElse (run ignoreCase r1 st k) (run ignoreCase r2 st k)
  | Star greedy r' => iterate (run ignoreCase r') greedy k (length (rest st)) st
  | Group i r' =>
      run ignoreCase r' st
        (fun st' =>
           k {| pos := pos st'; rest := rest st';
                caps := (i, (pos st, pos st')) :: caps st' |})
  | Bol => if (pos st =? 0)%nat then k st else None
  | Eol => match rest st with [] => k st | _ :: _ => None end
  end.

(** A successful match on [input]: [match.index], the index after the
    match, and the captures. *)
Record MatchResult := {
  input : jsstring;
  mindex : nat;
  mend : nat;
  mcaps : list (nat * (nat * nat))
}.

Fixpoint lookupCapture (i : nat) (cs : list (nat * (nat * nat))) : option (nat * nat) :=
  match cs with
  | [] => None
  | (j, span) :: cs' => if (i =? j)%nat then Some span else lookupCapture i cs'
  end.

(** [match[0]] *)
Definition matched (m : MatchResult) : jsstring :=
  take (mend m - mindex m) (drop (mindex m) (input m)).

(** [match[i]] for [i >= 1]; [None] is [undefined]: the group took no part. *)
Definition group (i : nat) (m : MatchResult) : option jsstring :=
  match lookupCapture i (mcaps m) with
  | Some (b, e) => Some (take (e - b) (drop b (input m)))
  | None => None
  end.

(** The leftmost match that starts at index [i] or later; [suffix] is the
    input from [i] on. *)
Fixpoint searchFrom (ignoreCase : bool) (r : regex) (whole : jsstring)
    (i : nat) (suffix : jsstring) : option MatchResult :=
  match run ignoreCase r {| pos := i; rest := suffix; caps := [] |} Some with
  | Some st =>
      Some {| input := whole; mindex := i; mend := pos st; mcaps := caps st |}
  | None =>
      match suffix with
      | [] => None
      | _ :: suffix' => searchFrom ignoreCase r whole (S i) suffix'
      end
  end.

(** [regex.exec(s)] for a regular expression with the flag [g] whose
    [lastIndex] is [lastIndex]: the match, if any, and the new [lastIndex]. *)
Definition exec (ignoreCase : bool) (r : regex) (s : jsstring) (lastIndex : nat)
  : option MatchResult * nat :=
  if (length s <? lastIndex)%nat then (None, O)
  else
    match searchFrom ignoreCase r s lastIndex (drop lastIndex s) with
    | Some m => (Some m, mend m)
    | None => (None, O)
    end.

(** [s.match(regex)] for a regular expression without the flag [g]. *)
Definition matchFirst (ignoreCase : bool) (r : regex) (s : jsstring)
  : option MatchResult :=
  searchFrom ignoreCase r s O s.

(** [s.replace(regex, rep)] for a regular expression with the flag [g] and
    a replacement free of [$]: every match, left to right, [skip] being the
    number of characters still covered by the previous match. *)
Fixpoint replaceAllFrom (ignoreCase : bool) (r : regex) (rep : jsstring)
    (i : nat) (suffix : jsstring) (skip : nat) : jsstring :=
  match skip with
  | S skip' =>
      match suffix with
      | [] => []
      | _ :: suffix' => replaceAllFrom ignoreCase r rep (S i) suffix' skip'
      end
  | O =>
      match run ignoreCase r {| pos := i; rest := suffix; caps := [] |} Some with
      | Some st =>
          match suffix with
          | [] => rep
          | c :: suffix' =>
              if (pos st =? i)%nat
              then rep ++ c :: replaceAllFrom ignoreCase r rep (S i) suffix' O
              else rep ++ replaceAllFrom ignoreCase r rep (S i) suffix' (pos st - i - 1)
          end
      | None =>
          match suffix with
          | [] => []
          | c :: suffix' => c :: replaceAllFrom ignoreCase r rep (S i) suffix' O
          end
      end
  end.

Definition replaceAll (ignoreCase : bool) (r : regex) (rep s : jsstring) : jsstring :=
  replaceAllFrom ignoreCase r rep O s O.

End Regex.

(** ** Parsing an assistant message *)

Module Edit.

Record EditGroup := {
  path : jsstring;
  operations : list PatchEngine.Operation;
  id : jsstring;
  type : jsstring;
  timestamp : jsstring;
  rawContent : jsstring;
  parsedContent : jsstring;
  applied : bool;
  operationCount : nat
}.

End Edit.

Module ResponseParser.

Import PathSanitizer ArtifactReconciler Regex.

(** *** The environment

    [generateSafeId] and the time stamps read the clock, the random
    generator and the Performance interface of the host.  The body of
    [parseLLMResponse] is a computation over a counter of such calls that
    can end in a thrown error: [performance.now] is the one call of the body
    that is not part of the language and may be refused by the host. *)

Inductive exn := Thrown (message : jsstring).

Definition exnMessage (e : exn) : jsstring := match e with Thrown m => m end.

Record Host := {
  dateNow : nat -> Z;
  randomBase36 : nat -> jsstring;
  performanceNowBase36 : nat -> exn + jsstring;
  toISOString : nat -> jsstring
}.

Definition M (A : Type) : Type := nat -> (exn + A) * nat.

Definition ret {A} (a : A) : M A := fun t => (inr a, t).

Definition bind {A B} (m : M A) (f : A -> M B) : M B :=
  fun t => match m t with
           | (inl e, t') => (inl e, t')
           | (inr a, t') => f a t'
           end.

Definition call {A} (f : nat -> exn + A) : M A := fun t => (f t, S t).

Notation "'do' x <- m ; k" := (bind m (fun x => k))
  (at level 10, x name, m at level 100, k at level 200).

(** The decimal digits of an integer, as a template literal prints it. *)
Definition decimal (z : Z) : jsstring :=
  str (NilEmpty.string_of_int (Z.to_int z)).

Definition generateSafeId (h : Host) (base : jsstring) : M jsstring :=
  do timestamp <- call (fun t => inr (dateNow h t));
  do random <- call (fun t => inr (take 12 (drop 2 (randomBase36 h t))));
  do performanceMark <-
    call (fun t => match performanceNowBase36 h t with
                   | inl e => inl e
                   | inr p => inr (replaceStr p (str ".") [])
                   end);
  ret (base ++ str "-" ++ decimal timestamp ++ str "-" ++ performanceMark
       ++ str "-" ++ random).

Definition now (h : Host) : M jsstring := call (fun t => inr (toISOString h t)).

(** *** Search/replace operations of an edit block *)

(** [/<<<<<<< SEARCH\s*\n([\s\S]*?)\n=======\s*\n([\s\S]*?)\n>>>>>>> REPLACE/g] *)
Definition searchReplaceRegex : regex :=
  seqs [ word "<<<<<<< SEARCH"; Star true space; Lit LF;
         Group 1 (Star false anyChar); Lit LF;
         word "======="; Star true space; Lit LF;
         Group 2 (Star false anyChar); Lit LF;
         word ">>>>>>> REPLACE" ].

(** [match[i] || d] *)
Definition groupOr (i : nat) (m : MatchResult) (d : jsstring) : jsstring :=
  match group i m with
  | Some g => match g with [] => d | _ :: _ => g end
  | None => d
  end.

(** [match[i]] for a group that takes part in every match. *)
Definition groupText (i : nat) (m : MatchResult) : jsstring :=
  match group i m with
  | Some g => g
  | None => []
  end.

(** The loop of [parseSearchReplace]; [n] is [10 - count].  The regular
    expression is executed before the count is tested. *)
Fixpoint searchReplaceLoop (n : nat) (content : jsstring) (lastIndex : nat)
  : list PatchEngine.Operation :=
  match exec false searchReplaceRegex content lastIndex with
  | (Some m, lastIndex') =>
      match n with
      | O => []
      | S n' =>
          {| PatchEngine.search := groupText 1 m;
             PatchEngine.replace := groupText 2 m;
             PatchEngine.type := str "search_replace" |}
          :: searchReplaceLoop n' content lastIndex'
      end
  | (None, _) => []
  end.

Definition parseSearchReplace (content : jsval) : list PatchEngine.Operation :=
  match content with
  | VStr c =>
      if falsy content || (length c <? 20)%nat then []
      else searchReplaceLoop 10 c 0
  | _ => []
  end.

(** *** Edit blocks *)

(** An element of [editBlocks]. *)
Module Block.

Record EditBlock := {
  fullMatch : jsstring;
  content : jsstring;
  index : nat
}.

End Block.

(** The regular expression of the edit blocks: three backquotes, an
    optional [edit], [\s*\r?\n], the lazily captured body, [\r?\n] and
    three backquotes; flags [gi]. *)
Definition editBlockRegex : regex :=
  seqs [ word "```"; Opt (word "edit"); Star true space; Opt (Lit CR); Lit LF;
         Group 1 (Star false anyChar); Opt (Lit CR); Lit LF; word "```" ].

(** The loop that fills [editBlocks]; [n] is [5 - editBlocks.length]. *)
Fixpoint editBlockLoop (n : nat) (limitedMessage : jsstring) (lastIndex : nat)
  : list Block.EditBlock :=
  match exec true editBlockRegex limitedMessage lastIndex with
  | (Some m, lastIndex') =>
      match n with
      | O => []
      | S n' =>
          {| Block.fullMatch := matched m;
             Block.content := groupText 1 m;
             Block.index := mindex m |}
          :: editBlockLoop n' limitedMessage lastIndex'
      end
  | (None, _) => []
  end.

(** [/(?:@@@|\/\/\/|#|File:|file:|filename:)\s*(.+)/i] *)
Definition fileMarkerRegex : regex :=
  seqs [ alts [ word "@@@"; word "///"; word "#"; word "File:"; word "file:";
                word "filename:" ];
         Star true space; Group 1 (Plus dot) ].

(** The search for a marker in the first three lines: [candidates] are
    the lines from index [i] on that are still to be tried. *)
Fixpoint markerLineLoop (lines : list jsstring) (i : nat) (candidates : list jsstring)
  : option (jsstring * jsstring) :=
  match candidates with
  | [] => None
  | line :: candidates' =>
      match matchFirst true fileMarkerRegex line with
      | Some lineMatch =>
          Some (validateAndSanitizePath (VStr (trim (groupText 1 lineMatch))),
                trim (join [LF] (drop (i + 1) lines)))
      | None => markerLineLoop lines (S i) candidates'
      end
  end.

(** [targetFile] ([None] is [null]) and [editContent] of a block. *)
Definition locateTarget (content : jsstring) : option jsstring * jsstring :=
  match matchFirst true fileMarkerRegex content with
  | Some fileMarkerMatch =>
      (Some (validateAndSanitizePath (VStr (trim (groupText 1 fileMarkerMatch)))),
       trim (replaceStr content (matched fileMarkerMatch) []))
  | None =>
      let lines := split LF content in
      match markerLineLoop lines 0 (take 3 lines) with
      | Some (targetFile, editContent) => (Some targetFile, editContent)
      | None => (None, content)
      end
  end.

(** The [Map] [editsByFile]: the entries in insertion order. *)
Abbreviation EditMap := (list (jsstring * Edit.EditGroup)).

Fixpoint mapGet (key : jsstring) (m : EditMap) : option Edit.EditGroup :=
  match m with
  | [] => None
  | (k, v) :: m' => if strEq k key then Some v else mapGet key m'
  end.

(** [existingEdit.operations.push(...operations)] and the update of
    [operationCount], on the entry of [key]. *)
Fixpoint mapAppend (key : jsstring) (operations : list PatchEngine.Operation)
    (m : EditMap) : EditMap :=
  match m with
  | [] => []
  | (k, v) :: m' =>
      if strEq k key
      then (k, {| Edit.path := Edit.path v;
                  Edit.operations := Edit.operations v ++ operations;
                  Edit.id := Edit.id v;
                  Edit.type := Edit.type v;
                  Edit.timestamp := Edit.timestamp v;
                  Edit.rawContent := Edit.rawContent v;
                  Edit.parsedContent := Edit.parsedContent v;
                  Edit.applied := Edit.applied v;
                  Edit.operationCount := Edit.operationCount v + length operations |})
           :: m'
      else (k, v) :: mapAppend key operations m'
  end.

(** One turn of the loop over [editBlocks], on [regularContent] and
    [editsByFile]. *)
Definition processEditBlock (h : Host) (st : jsstring * EditMap)
    (block : Block.EditBlock) : M (jsstring * EditMap) :=
  let '(regularContent, editsByFile) := st in
  let '(targetFile, editContent) := locateTarget (Block.content block) in
  let operations := parseSearchReplace (VStr editContent) in
  match operations with
  | [] => ret (regularContent, editsByFile)
  | _ :: _ =>
      let regularContent := replaceStr regularContent (Block.fullMatch block) [] in
      let finalPath :=
        match targetFile with
        | Some (c :: f) => c :: f
        | _ => str "unknown"
        end in
      match mapGet finalPath editsByFile with
      | Some _ => ret (regularContent, mapAppend finalPath operations editsByFile)
      | None =>
          do id <- generateSafeId h (str "edit-" ++ finalPath);
          do timestamp <- now h;
          ret (regularContent,
               editsByFile ++
               [(finalPath,
                 {| Edit.path := finalPath;
                    Edit.operations := operations;
                    Edit.id := id;
                    Edit.type := str "search_replace";
                    Edit.timestamp := timestamp;
                    Edit.rawContent := Block.fullMatch block;
                    Edit.parsedContent := editContent;
                    Edit.applied := false;
                    Edit.operationCount := length operations |})])
      end
  end.

Fixpoint processEditBlocks (h : Host) (st : jsstring * EditMap)
    (blocks : list Block.EditBlock) : M (jsstring * EditMap) :=
  match blocks with
  | [] => ret st
  | block :: blocks' =>
      do st' <- processEditBlock h st block;
      processEditBlocks h st' blocks'
  end.

(** *** File blocks *)

Definition fenceOpen : list regex :=
  [ word "```"; Opt (Group 1 (Plus wordChar)); Star true space; Opt (Lit CR); Lit LF;
    Star true space ].

Definition fileKeyword : regex := alts [ word "filename"; word "file" ].

(** The three patterns of [filePatterns], each with the flags [gi]: the
    file name in a line comment, in a block comment, or alone on the first
    line. *)
Definition filePatterns : list regex :=
  [ seqs (fenceOpen ++
          [ alts [ word "//"; word "#" ]; Star true space; fileKeyword; Lit ":"%char;
            Star true space; Group 2 (Plus notCRLF); Opt (Lit CR); Lit LF;
            Group 3 (Star false anyChar); word "```" ]);
    seqs (fenceOpen ++
          [ word "/*"; Star true space; fileKeyword; Lit ":"%char; Star true space;
            Group 2 (LazyPlus notCRLF); Star true space; word "*/"; Opt (Lit CR);
            Lit LF; Group 3 (Star false anyChar); word "```" ]);
    seqs (fenceOpen ++
          [ Group 2 (seqs [ Plus fileNameChar; Lit "."%char; Plus wordChar ]);
            Opt (Lit CR); Lit LF; Group 3 (Star false anyChar); word "```" ]) ].

Definition fenceAfterName : list regex :=
  [ Star true space; Lit LF; word "```"; Opt (Group 2 (Plus wordChar));
    Star true space; Lit LF; Group 3 (Star false anyChar); word "```" ].

(** The three patterns of [inlineFilePatterns], each with the flags [gi]. *)
Definition inlineFilePatterns : list regex :=
  [ seqs ([ word "File:"; Star true space; Group 1 (Plus notSpace) ] ++ fenceAfterName);
    seqs ([ word "filename:"; Star true space; Group 1 (Plus notSpace) ]
          ++ fenceAfterName);
    seqs ([ word "##"; Star true space; word "FILE:"; Star true space;
            Group 1 (Plus notLF) ] ++ fenceAfterName) ].

Definition looksLikeEdit (content : jsstring) : bool :=
  includes content (str "<<<<<<< SEARCH") || includes content (str "=======")
  || includes content (str ">>>>>>> REPLACE").

Definition looksLikeCode (rawFilePath : jsstring) : bool :=
  includes rawFilePath (str "(") || includes rawFilePath (str "{")
  || includes rawFilePath (str "=").

Definition makeArtifact (h : Host) (filePath content : jsstring) (language : jsstring)
    (source : jsstring) : M Artifact :=
  let detectedLanguage :=
    if strEq language (str "text") then getLanguageFromPath (VStr filePath)
    else VStr language in
  do id <- generateSafeId h (str "artifact-" ++ filePath);
  do timestamp <- now h;
  ret {| ArtifactReconciler.path := filePath;
         ArtifactReconciler.content := content;
         ArtifactReconciler.language := detectedLanguage;
         ArtifactReconciler.id := id;
         ArtifactReconciler.type := str "file";
         ArtifactReconciler.createdBy := str "ai";
         ArtifactReconciler.timestamp := timestamp;
         ArtifactReconciler.source := source;
         ArtifactReconciler.lineCount := length (split LF content);
         ArtifactReconciler.size := length content;
         ArtifactReconciler.addedToProject := false |}.

(** The [while] loop of one file pattern.  [lastIndex] belongs to the
    pattern and is kept when [regularContent] is cut.  Every pattern starts
    with a character, so a match is not empty and each turn moves
    [lastIndex] forward: [fuel], one more than the length of the content
    the loop starts with, is never used up (lemma [filePatternLoop_fuel]). *)
Fixpoint filePatternLoop (h : Host) (fuel : nat) (pattern : regex) (lastIndex : nat)
    (regularContent : jsstring) (artifacts : list Artifact)
  : M (jsstring * list Artifact) :=
  match fuel with
  | O => ret (regularContent, artifacts)
  | S fuel' =>
      match exec true pattern regularContent lastIndex with
      | (Some m, lastIndex') =>
          if (length artifacts <? 10)%nat then
            let language := groupOr 1 m (str "text") in
            let rawFilePath := trim (groupText 2 m) in
            let content := trim (groupText 3 m) in
            if looksLikeEdit content then
              filePatternLoop h fuel' pattern lastIndex' regularContent artifacts
            else if looksLikeCode rawFilePath then
              filePatternLoop h fuel' pattern lastIndex' regularContent artifacts
            else
              let filePath := validateAndSanitizePath (VStr rawFilePath) in
              do artifact <- makeArtifact h filePath content language (str "parsed");
              filePatternLoop h fuel' pattern lastIndex'
                (replaceStr regularContent (matched m) []) (artifacts ++ [artifact])
          else ret (regularContent, artifacts)
      | (None, _) => ret (regularContent, artifacts)
      end
  end.

(** The [while] loop of one inline pattern. *)
Fixpoint inlinePatternLoop (h : Host) (fuel : nat) (pattern : regex) (lastIndex : nat)
    (regularContent : jsstring) (artifacts : list Artifact)
  : M (jsstring * list Artifact) :=
  match fuel with
  | O => ret (regularContent, artifacts)
  | S fuel' =>
      match exec true pattern regularContent lastIndex with
      | (Some m, lastIndex') =>
          if (length artifacts <? 5)%nat then
            let rawFilePath := trim (groupText 1 m) in
            let language := groupOr 2 m (str "text") in
            let content := trim (groupText 3 m) in
            if looksLikeEdit content then
              inlinePatternLoop h fuel' pattern lastIndex' regularContent artifacts
            else
              let filePath := validateAndSanitizePath (VStr rawFilePath) in
              do artifact <- makeArtifact h filePath content language (str "inline");
              inlinePatternLoop h fuel' pattern lastIndex'
                (replaceStr regularContent (matched m) []) (artifacts ++ [artifact])
          else ret (regularContent, artifacts)
      | (None, _) => ret (regularContent, artifacts)
      end
  end.

(** A [for] loop over patterns, each started with [lastIndex] 0. *)
Fixpoint forPatterns
    (loop : nat -> regex -> nat -> jsstring -> list Artifact -> M (jsstring * list Artifact))
    (patterns : list regex) (regularContent : jsstring) (artifacts : list Artifact)
  : M (jsstring * list Artifact) :=
  match patterns with
  | [] => ret (regularContent, artifacts)
  | pattern :: patterns' =>
      do st <- loop (S (length regularContent)) pattern 0%nat regularContent artifacts;
      forPatterns loop patterns' (fst st) (snd st)
  end.

(** *** The prose that is left *)

(** [/\n\s*\n\s*\n/g] and [/^\s+|\s+$/g] *)
Definition blankLinesRegex : regex :=
  seqs [ Lit LF; Star true space; Lit LF; Star true space; Lit LF ].

Definition outerSpaceRegex : regex :=
  Alt (Seq Bol (Plus space)) (Seq (Plus space) Eol).

Definition cleanUp (regularContent : jsstring) : jsstring :=
  trim (replaceAll false outerSpaceRegex []
          (replaceAll false blankLinesRegex [LF; LF] regularContent)).

(** [/^\d+\./] *)
Definition numberedRegex : regex := seqs [ Bol; Plus digit; Lit "."%char ].

Definition isInstructionLine (line : jsstring) : bool :=
  let t := trim line in
  match matchFirst false numberedRegex t with
  | Some _ => true
  | None =>
      startsWith (toLowerCase t) (str "step")
      || startsWith (toLowerCase t) (str "first")
      || startsWith (toLowerCase t) (str "next")
      || startsWith (toLowerCase t) (str "then")
      || startsWith (toLowerCase t) (str "finally")
  end.

Definition parseInstructions (regularContent : jsstring) : list jsstring :=
  if includes regularContent (str "1.") || includes regularContent (str "First,")
     || includes regularContent (str "Step")
  then
    let instructionLines :=
      take 10 (List.filter isInstructionLine (split LF regularContent)) in
    map trim instructionLines
  else [].

(** *** The parser *)

Record Metadata := {
  totalArtifacts : nat;
  totalEdits : nat;
  parsedAt : jsstring;
  error : option jsstring
}.

(** The object [parseLLMResponse] returns.  [content] is a string on
    every path but the one of the handler, which hands back the argument.
    The early return has neither [instructions] nor [metadata]. *)
Record ParseResult := {
  content : jsval;
  artifacts : list Artifact;
  edits : list Edit.EditGroup;
  instructions : option (list jsstring);
  metadata : option Metadata
}.

Definition truncationMark : jsstring := LF :: str "... (truncated for performance)".

(** The statements of the [try] block. *)
Definition parseBody (h : Host) (message : jsval) : M ParseResult :=
  if falsy message || negb (isString message) then
    ret {| content := VStr []; artifacts := []; edits := [];
           instructions := None; metadata := None |}
  else
    match message with
    | VStr message =>
        let limitedMessage :=
          if 50000 <? Z.of_nat (length message)
          then substring message 0 50000 ++ truncationMark
          else message in
        let editBlocks := editBlockLoop 5 limitedMessage 0 in
        do st1 <- processEditBlocks h (limitedMessage, []) editBlocks;
        let edits := map snd (snd st1) in
        do st2 <- forPatterns (filePatternLoop h) filePatterns (fst st1) [];
        do st3 <- forPatterns (inlinePatternLoop h) inlineFilePatterns (fst st2) (snd st2);
        let regularContent := cleanUp (fst st3) in
        let artifacts := snd st3 in
        let instructions := parseInstructions regularContent in
        do parsedAt <- now h;
        ret {| content := VStr regularContent;
               artifacts := take 10 artifacts;
               edits := take 5 edits;
               instructions := Some instructions;
               metadata := Some {| totalArtifacts := length artifacts;
                                   totalEdits := length edits;
                                   parsedAt := parsedAt;
                                   error := None |} |}
    | _ => ret {| content := VStr []; artifacts := []; edits := [];
                  instructions := None; metadata := None |}
    end.

(** [try { ... } catch (error) { ... }]: the result and the counter of
    host calls after it. *)
Definition parseLLMResponse (h : Host) (message : jsval) (t : nat) : ParseResult * nat :=
  match parseBody h message t with
  | (inr r, t') => (r, t')
  | (inl e, t') =>
      ({| content := message; artifacts := []; edits := [];
          instructions := Some [];
          metadata := Some {| totalArtifacts := 0;
                              totalEdits := 0;
                              parsedAt := toISOString h t';
                              error := Some (exnMessage e) |} |},
       S t')
  end.

End ResponseParser.

(** ** The earlier revision

    [src/unnamed/part_000] holds an earlier revision of the same file:
    [applySearchReplace] without the line-wise fallback, and
    [parseLLMResponse] without the inline patterns, the instructions and
    the metadata.  The helpers, [parseSearchReplace] and the handling of
    edit blocks are the same. *)

Module Earlier.

Import PathSanitizer Regex ResponseParser.

Module Failure.

Record Debug := {
  searchLength : nat;
  originalFirst50 : jsstring;
  resultFirst50 : jsstring
}.

Record Info := {
  index : nat;
  search : jsstring;
  reason : jsstring;
  debug : Debug
}.

End Failure.

Module Loop.

Record State := {
  result : jsstring;
  appliedCount : nat;
  failedOps : list Failure.Info
}.

End Loop.

Record PatchResult := {
  result : option jsstring;
  appliedCount : nat;
  failedOps : list Failure.Info
}.

Definition failureInfo (originalContent : jsstring) (o : PatchEngine.IndexedOperation)
    (result : jsstring) : Failure.Info :=
  let search := PatchEngine.search (PatchEngine.op o) in
  {| Failure.index := PatchEngine.originalIndex o + 1;
     Failure.search :=
       substring search 0 100
       ++ (if (100 <? length search)%nat then str "..." else []);
     Failure.reason := str "No exact match found.";
     Failure.debug :=
       {| Failure.searchLength := length search;
          Failure.originalFirst50 := substring originalContent 0 50;
          Failure.resultFirst50 := substring result 0 50 |} |}.

(** One turn of the loop over the operations. *)
Definition applyOperation (originalContent : jsstring) (st : Loop.State)
    (o : PatchEngine.IndexedOperation) : Loop.State :=
  let search := PatchEngine.search (PatchEngine.op o) in
  let replace := PatchEngine.replace (PatchEngine.op o) in
  let lastIndex := lastIndexOf (Loop.result st) search in
  if negb (lastIndex =? -1) then
    {| Loop.result :=
         substring (Loop.result st) 0 lastIndex
         ++ replace
         ++ substringFrom (Loop.result st) (lastIndex + Z.of_nat (length search));
       Loop.appliedCount := S (Loop.appliedCount st);
       Loop.failedOps := Loop.failedOps st |}
  else
    {| Loop.result := Loop.result st;
       Loop.appliedCount := Loop.appliedCount st;
       Loop.failedOps :=
         Loop.failedOps st ++ [failureInfo originalContent o (Loop.result st)] |}.

Definition applySearchReplace (originalContent : option jsstring)
    (operations : option (list PatchEngine.Operation)) : PatchResult :=
  match originalContent, operations with
  | Some original, Some ops =>
      if negb (PatchEngine.truthy original) || (length ops =? 0)%nat then
        {| result := originalContent; appliedCount := 0; failedOps := [] |}
      else
        let limitedOperations := take 20 ops in
        let sortedOperations := PatchEngine.indexOperations limitedOperations in
        let st := fold_left (applyOperation original) (rev sortedOperations)
                    {| Loop.result := original; Loop.appliedCount := 0;
                       Loop.failedOps := [] |} in
        {| result := Some (Loop.result st);
           appliedCount := Loop.appliedCount st;
           failedOps := Loop.failedOps st |}
  | _, _ => {| result := originalContent; appliedCount := 0; failedOps := [] |}
  end.

(** An element of [artifacts]. *)
Module Art.

Record Artifact := {
  path : jsstring;
  content : jsstring;
  language : jsval;
  id : jsstring;
  type : jsstring;
  timestamp : jsstring;
  source : jsstring
}.

End Art.

Record ParseResult := {
  content : jsval;
  artifacts : list Art.Artifact;
  edits : list Edit.EditGroup
}.

Definition makeArtifact (h : Host) (filePath content : jsstring) (language : jsstring)
  : M Art.Artifact :=
  let detectedLanguage :=
    if strEq language (str "text") then getLanguageFromPath (VStr filePath)
    else VStr language in
  do id <- generateSafeId h (str "artifact-" ++ filePath);
  do timestamp <- now h;
  ret {| Art.path := filePath;
         Art.content := content;
         Art.language := detectedLanguage;
         Art.id := id;
         Art.type := str "artifact";
         Art.timestamp := timestamp;
         Art.source := str "parsed" |}.

(** The [while] loop of one file pattern; [fuel] as in the later revision. *)
Fixpoint filePatternLoop (h : Host) (fuel : nat) (pattern : regex) (lastIndex : nat)
    (regularContent : jsstring) (artifacts : list Art.Artifact)
  : M (jsstring * list Art.Artifact) :=
  match fuel with
  | O => ret (regularContent, artifacts)
  | S fuel' =>
      match exec true pattern regularContent lastIndex with
      | (Some m, lastIndex') =>
          if (length artifacts <? 10)%nat then
            let language := groupOr 1 m (str "text") in
            let rawFilePath := trim (groupText 2 m) in
            let content := trim (groupText 3 m) in
            if looksLikeEdit content then
              filePatternLoop h fuel' pattern lastIndex' regularContent artifacts
            else if looksLikeCode rawFilePath then
              filePatternLoop h fuel' pattern lastIndex' regularContent artifacts
            else
              let filePath := validateAndSanitizePath (VStr rawFilePath) in
              do artifact <- makeArtifact h filePath content language;
              filePatternLoop h fuel' pattern lastIndex'
                (replaceStr regularContent (matched m) []) (artifacts ++ [artifact])
          else ret (regularContent, artifacts)
      | (None, _) => ret (regularContent, artifacts)
      end
  end.

Fixpoint forPatterns (h : Host) (patterns : list regex) (regularContent : jsstring)
    (artifacts : list Art.Artifact) : M (jsstring * list Art.Artifact) :=
  match patterns with
  | [] => ret (regularContent, artifacts)
  | pattern :: patterns' =>
      do st <- filePatternLoop h (S (length regularContent)) pattern 0%nat
                 regularContent artifacts;
      forPatterns h patterns' (fst st) (snd st)
  end.

(** The statements of the [try] block. *)
Definition parseBody (h : Host) (message : jsval) : M ParseResult :=
  if falsy message || negb (isString message) then
    ret {| content := VStr []; artifacts := []; edits := [] |}
  else
    match message with
    | VStr message =>
        let limitedMessage :=
          if 50000 <? Z.of_nat (length message)
          then substring message 0 50000 ++ truncationMark
          else message in
        let editBlocks := editBlockLoop 5 limitedMessage 0 in
        do st1 <- processEditBlocks h (limitedMessage, []) editBlocks;
        let edits := map snd (snd st1) in
        do st2 <- forPatterns h filePatterns (fst st1) [];
        let regularContent := cleanUp (fst st2) in
        ret {| content := VStr regularContent;
               artifacts := take 10 (snd st2);
               edits := take 5 edits |}
    | _ => ret {| content := VStr []; artifacts := []; edits := [] |}
    end.

Definition parseLLMResponse (h : Host) (message : jsval) (t : nat) : ParseResult * nat :=
  match parseBody h message t with
  | (inr r, t') => (r, t')
  | (inl e, t') => ({| content := message; artifacts := []; edits := [] |}, t')
  end.

End Earlier.

(** ** Notions used in the statements *)

Module Notions.

Import ArtifactReconciler PatchEngine.

(** [pat] occurs in [text] at index [i]. *)
Definition occursAt (text pat : jsstring) (i : nat) : bool :=
  startsWith (drop i text) pat.

(** The indices at which [pat] occurs in [text], in increasing order. *)
Definition occurrences (text pat : jsstring) : list nat :=
  List.filter (occursAt text pat) (seq 0 (S (length text))).

(** The last element of a list of indices, or -1. *)
Definition lastOr (l : list nat) : Z :=
  match last l with Some i => Z.of_nat i | None => -1 end.

(** The lines of [resultLines] from [start] on match the search lines one
    by one after trimming, and there are as many of them. *)
Definition runMatches (searchLines : list NormalizedLine) (resultLines : list jsstring)
    (start : nat) : Prop :=
  Forall2 (λ searchLine resultLine, trim resultLine = content searchLine)
    searchLines (take (length searchLines) (drop start resultLines)).

(** The text [applySearchReplace] builds when the run of [count] lines at
    [start] has matched. *)
Definition spliced (resultLines : list jsstring) (start count : nat) (replace : jsstring)
  : jsstring :=
  let beforeMatch := join [LF] (take start resultLines) in
  let afterMatch := join [LF] (drop (start + count) resultLines) in
  beforeMatch ++ (if truthy beforeMatch then [LF] else []) ++ replace
  ++ (if truthy afterMatch then [LF] else []) ++ afterMatch.

Definition hasPath (p : jsstring) (a : Artifact) : bool :=
  PathSanitizer.strEq (path a) p.

(** [a] is the first element of [xs] that passes [test]. *)
Definition firstMatch (test : Artifact → bool) (xs : list Artifact) (a : Artifact) : Prop :=
  ∃ i, xs !! i = Some a ∧ test a = true
       ∧ ∀ j b, (j < i)%nat → xs !! j = Some b → test b = false.

Definition noMatch (test : Artifact → bool) (xs : list Artifact) : Prop :=
  Forall (λ b, test b = false) xs.

Definition matchesSomeStage (n : jsstring) (a : Artifact) : bool :=
  exactMatch n a || basenameMatch n a || containsMatch n a.

Definition operationsBounded (bound : nat) (m : list (jsstring * Edit.EditGroup)) : Prop :=
  Forall (λ kv, (length (Edit.operations (snd kv)) ≤ bound)%nat) m.

(** The number under which a failure of the operation is recorded. *)
Definition number (o : IndexedOperation) : nat := originalIndex o + 1.

(** The expression cannot match without consuming a character. *)
Fixpoint startsWithChar (r : Regex.regex) : bool :=
  match r with
  | Regex.Lit _ | Regex.Class _ => true
  | Regex.Seq r1 _ => startsWithChar r1
  | Regex.Group _ r' => startsWithChar r'
  | _ => false
  end.

(** The matcher state [st'] is reached from [st] by consuming input. *)
Definition advances (st st' : Regex.mstate) : Prop :=
  (Regex.pos st ≤ Regex.pos st')%nat
  ∧ (Regex.pos st' + length (Regex.rest st')
     = Regex.pos st + length (Regex.rest st))%nat.

End Notions.

(** ** Sample inputs *)

Module Samples.

Import ArtifactReconciler PatchEngine ResponseParser.

(** A text given line by line. *)
Definition lines (ls : list string) : jsstring := join [LF] (map str ls).

Definition operation (search replace : jsstring) : Operation :=
  {| search := search; replace := replace;
     PatchEngine.type := str "search_replace" |}.

Definition projectFile (p : string) : Artifact :=
  {| path := str p; ArtifactReconciler.content := []; language := VStr (str "text");
     id := []; ArtifactReconciler.type := str "file"; createdBy := str "user";
     timestamp := []; source := []; lineCount := 1; size := 0;
     addedToProject := true |}.

Definition greeting : jsstring := str "hello wide world".
Definition helloToBye : Operation := operation (str "hello") (str "bye").
Definition worldToMoon : Operation := operation (str "world") (str "moon").

Definition bToAa : Operation := operation (str "b") (str "aa").
Definition aToC : Operation := operation (str "a") (str "c").

(** Two indented lines and a final line break, and the same two lines
    without the indentation as a search text. *)
Definition indentedPair : jsstring := lines ["  a"; "  b"; ""].
Definition plainPairToX : Operation := operation (lines ["a"; "b"]) (str "X").

(** Fifty files that share a base name with the fifty-first. *)
Definition manyFiles : list Artifact :=
  replicate 50 (projectFile "src/a.js") ++ [projectFile "a.js"].

(** Fifty unrelated files before the one that is asked for. *)
Definition lateFiles : list Artifact :=
  replicate 50 (projectFile "README.md") ++ [projectFile "a.js"].

Definition quietHost : Host :=
  {| dateNow := λ t, 1700000000000 + Z.of_nat t;
     randomBase36 := λ _, str "0.4fzyo82mvyr";
     performanceNowBase36 := λ _, inr (str "2s.8k");
     toISOString := λ _, str "2023-11-14T22:13:20.000Z" |}.

Definition hostWithoutPerformance : Host :=
  {| dateNow := λ t, 1700000000000 + Z.of_nat t;
     randomBase36 := λ _, str "0.4fzyo82mvyr";
     performanceNowBase36 := λ _, inl (Thrown (str "performance is not defined"));
     toISOString := λ _, str "2023-11-14T22:13:20.000Z" |}.

Definition searchReplaceLines (search replace : string) : list string :=
  [ "<<<<<<< SEARCH"; search; "======="; replace; ">>>>>>> REPLACE" ].

(** An edit block for [path] with [count] search/replace pairs. *)
Definition editBlockLines (path : string) (count : nat) : list string :=
  [ "```edit"; "@@@ " +:+ path ]
  ++ concat (replicate count (searchReplaceLines "a" "b")) ++ [ "```" ].

Definition oneEdit : jsstring := lines (editBlockLines "foo.py" 1).

Definition twoBlocksOnePath : jsstring :=
  lines (editBlockLines "foo.py" 6 ++ ["and"] ++ editBlockLines "foo.py" 6).

Definition fiveBlocksOnePath : jsstring :=
  lines (concat (replicate 5 (editBlockLines "foo.py" 11 ++ ["and"]))).

Definition fileMessage : jsstring :=
  lines [ "Here is a file:"; "```javascript"; "// filename: src/x.js";
          "console.log(1);"; "```" ].

End Samples.

(** ** Further notions used in the statements *)

Module Terms.

Import PathSanitizer.

(** A path [validateAndSanitizePath] has nothing to do on: a non-empty
    string without [..], backslash or stripped character, and without
    white space at either end. *)
Definition cleanPath (p : jsstring) : bool :=
  PatchEngine.truthy p
  && negb (includes p (str ".."))
  && forallb (λ c, negb (Ascii.eqb c BACKSLASH) && negb (forbiddenChar c)) p
  && strEq (trim p) p.

(** A character [validateAndSanitizePath] keeps wherever it stands: no
    white space, dot, backslash or stripped character. *)
Definition plainChar (c : ascii) : bool :=
  negb (isWhiteSpace c) && negb (Ascii.eqb c "."%char) && negb (Ascii.eqb c BACKSLASH)
  && negb (forbiddenChar c).

(** What the loop over the edit blocks keeps true of [editsByFile]: a
    group is stored under its path, which is not empty, holds at least one
    operation and counts its operations, and no path has two groups. *)
Definition groupsConsistent (m : list (jsstring * Edit.EditGroup)) : Prop :=
  NoDup (map fst m)
  ∧ Forall (λ kv, fst kv = Edit.path (snd kv)
                  ∧ Edit.path (snd kv) ≠ []
                  ∧ Edit.operations (snd kv) ≠ []
                  ∧ Edit.operationCount (snd kv) = length (Edit.operations (snd kv))) m.

(** An artifact as the pattern loops of [parseLLMResponse] build it. *)
Definition parsedArtifact (a : ArtifactReconciler.Artifact) : Prop :=
  (∃ rawFilePath,
     ArtifactReconciler.path a = validateAndSanitizePath (VStr rawFilePath))
  ∧ ResponseParser.looksLikeEdit (ArtifactReconciler.content a) = false
  ∧ ArtifactReconciler.lineCount a = length (split LF (ArtifactReconciler.content a))
  ∧ ArtifactReconciler.size a = length (ArtifactReconciler.content a)
  ∧ ArtifactReconciler.type a = str "file"
  ∧ ArtifactReconciler.createdBy a = str "ai"
  ∧ ArtifactReconciler.addedToProject a = false.

(** What the pattern loops keep true of [artifacts]: each is as the loops
    build it, and there are at most 10. *)
Definition artifactsInvariant (artifacts : list ArtifactReconciler.Artifact) : Prop :=
  Forall parsedArtifact artifacts ∧ (length artifacts ≤ 10)%nat.

(** The input left at [st'] is an end part of the input left at [st]. *)
Definition reaches (st st' : Regex.mstate) : Prop :=
  ∃ consumed, Regex.rest st = consumed ++ Regex.rest st'.

(** The state of the matcher [consumed] characters after [p], with
    [tail] left and the captures [cs]. *)
Definition stateAt (p : nat) (consumed tail : jsstring) (cs : list (nat * (nat * nat)))
  : Regex.mstate :=
  {| Regex.pos := p + length consumed; Regex.rest := tail; Regex.caps := cs |}.

(** The first line of [s] holds a character that is not white space. *)
Definition firstLineHasText (s : jsstring) : bool :=
  match dropWhile (λ c, isWhiteSpace c && negb (Ascii.eqb c LF)) s with
  | [] => false
  | c :: _ => negb (isWhiteSpace c)
  end.

(** A search/replace block in the format the system prompt of the source
    gives to the model. *)
Definition searchReplaceBlock (search replace : jsstring) : jsstring :=
  str "<<<<<<< SEARCH" ++ LF :: search ++ LF :: str "=======" ++ LF :: replace
  ++ LF :: str ">>>>>>> REPLACE".

(** An edit block for the file [path] in the format the system prompt of
    the source gives to the model. *)
Definition editMessage (path search replace : jsstring) : jsstring :=
  str "```edit" ++ LF :: str "@@@ " ++ path ++ LF :: searchReplaceBlock search replace
  ++ LF :: str "```".

(** The identifier [generateSafeId] builds from [base] when its first
    call of the host is the call number [t] and [performance.now] gives
    [mark]. *)
Definition safeId (h : ResponseParser.Host) (base mark : jsstring) (t : nat) : jsstring :=
  base ++ str "-" ++ ResponseParser.decimal (ResponseParser.dateNow h t) ++ str "-"
  ++ replaceStr mark (str ".") []
  ++ str "-" ++ take 12 (drop 2 (ResponseParser.randomBase36 h (S t))).

(** The group of edits the parser builds from one block that holds one
    operation. *)
Definition singleEdit (path search replace id timestamp rawContent : jsstring)
  : Edit.EditGroup :=
  {| Edit.path := path;
     Edit.operations := [ {| PatchEngine.search := search; PatchEngine.replace := replace;
                             PatchEngine.type := str "search_replace" |} ];
     Edit.id := id;
     Edit.type := str "search_replace";
     Edit.timestamp := timestamp;
     Edit.rawContent := rawContent;
     Edit.parsedContent := searchReplaceBlock search replace;
     Edit.applied := false;
     Edit.operationCount := 1 |}.

(** The expression holds the opening of a code fence as one of the
    parts it matches in sequence. *)
Definition needsFence (r : Regex.regex) : Prop :=
  ∃ rs1 rs2, r = Regex.seqs (rs1 ++ Regex.word "```" :: rs2).

End Terms.

(** ** Similarity of two texts *)

Module Similarity.

Import PathSanitizer Regex.

(** A number of the program: a rational, for the value a floating-point
    number is rounded from, or one of the two values a division by zero
    gives. *)
Inductive number :=
| Fin (q : Q)
| Infinity
| NaN.

(** [a / b] for two sizes. *)
Definition divide (a b : nat) : number :=
  if (b =? 0)%nat then (if (a =? 0)%nat then NaN else Infinity)
  else Fin (Z.of_nat a # Pos.of_nat b).

(** [/\s+/] *)
Definition spacesRegex : regex := Plus space.

(** The loop of [s.split(regex)] for an expression without groups, on a
    non-empty [s]: [piece] holds the characters from [p] to [q], [suffix]
    is the input from [q] on, and [skip] is the number of characters still
    covered by the separator found last.  The expression is tried at [q]
    only; a separator that ends where the piece starts is ignored. *)
Fixpoint splitFrom (ignoreCase : bool) (r : regex) (piece : jsstring) (q : nat)
    (suffix : jsstring) (skip : nat) : list jsstring :=
  match suffix with
  | [] => [piece]
  | c :: suffix' =>
      match skip with
      | S skip' => splitFrom ignoreCase r piece (S q) suffix' skip'
      | O =>
          match run ignoreCase r {| pos := q; rest := suffix; caps := [] |} Some with
          | None => splitFrom ignoreCase r (piece ++ [c]) (S q) suffix' O
          | Some st =>
              let e := pos st in
              if (e =? q - length piece)%nat
              then splitFrom ignoreCase r (piece ++ [c]) (S q) suffix' O
              else if (e =? q)%nat
                   then piece :: splitFrom ignoreCase r [c] (S q) suffix' O
                   else piece :: splitFrom ignoreCase r [] (S q) suffix' (e - q - 1)
          end
      end
  end.

(** [s.split(regex)] *)
Definition splitRegex (ignoreCase : bool) (r : regex) (s : jsstring) : list jsstring :=
  match s with
  | [] =>
      match run ignoreCase r {| pos := 0; rest := []; caps := [] |} Some with
      | Some _ => []
      | None => [[]]
      end
  | _ :: _ => splitFrom ignoreCase r [] 0 s 0
  end.

(** [new Set(xs)] *)
Definition newSet (xs : list jsstring) : gset jsstring := list_to_set xs.

Definition calculateSimilarity (str1 str2 : jsstring) : number :=
  if strEq str1 str2 then Fin 1
  else
    let cleanStr1 := trim (replaceAll false spacesRegex (str " ") str1) in
    let cleanStr2 := trim (replaceAll false spacesRegex (str " ") str2) in
    if strEq cleanStr1 cleanStr2 then Fin 1
    else if includes cleanStr1 cleanStr2 || includes cleanStr2 cleanStr1 then Fin (9 # 10)
    else
      let maxLen := 1000%nat in
      let limitedStr1 :=
        if (maxLen <? length cleanStr1)%nat
        then substring cleanStr1 0 (Z.of_nat maxLen) else cleanStr1 in
      let limitedStr2 :=
        if (maxLen <? length cleanStr2)%nat
        then substring cleanStr2 0 (Z.of_nat maxLen) else cleanStr2 in
      let set1 := newSet (splitRegex false spacesRegex limitedStr1) in
      let set2 := newSet (splitRegex false spacesRegex limitedStr2) in
      let intersection :=
        newSet (List.filter (λ x, bool_decide (x ∈ set2)) (elements set1)) in
      let union := newSet (elements set1 ++ elements set2) in
      divide (size intersection) (size union).

End Similarity.

(** ** The handlers that change the project

    A handler of the component reads the state of the render it was made
    in and asks for changes of state; it is embedded as a computation that
    returns the requests in the order they are made.  Calls of
    [console.log] are left out.  The identifiers of conversations are not
    names of members of [Object.prototype], so a property lookup on the
    object [artifacts] is a lookup in a finite map. *)

Module Workspace.

Import PathSanitizer ArtifactReconciler ResponseParser.

(** The state a handler closes over; [None] is [null]. *)
Record View := {
  artifacts : gmap jsstring (list Artifact);
  currentConversationId : option jsstring;
  currentEdits : list Edit.EditGroup
}.

(** The list of the failures in an [alert]: their number, the number and
    the reason of the first three, and how many more there are. *)
Record FailureList := {
  failedCount : nat;
  shown : list (nat * jsstring);
  more : option nat
}.

(** The texts of the [alert] calls, by the values that fill their
    templates: the file was not found; no operation was applied; all of
    them were; some were, with the list of the failures if there is one. *)
Inductive Alert :=
| FileNotFound (path : jsstring)
| NoOperationsApplied
| AppliedAll (appliedCount : nat) (path : jsstring)
| AppliedSome (appliedCount operations : nat) (path : jsstring)
    (failures : option FailureList).

Inductive Event :=
| ConsoleError (path : jsstring)
| AlertShown (a : Alert)
| SetCurrentConversationId (id : jsstring)
| SetArtifacts (updatedArtifacts : gmap jsstring (list Artifact))
| SaveArtifactsAfter (ms : nat) (updatedArtifacts : gmap jsstring (list Artifact))
| SetShowArtifacts (value : bool)
| SetShowEmptyState (value : bool).

(** The key a conversation identifier is as a property name. *)
Definition propertyKey (id : option jsstring) : jsstring :=
  match id with Some s => s | None => str "null" end.

(** [artifacts[currentConversationId] || []] *)
Definition currentArtifacts (v : View) : list Artifact :=
  match artifacts v !! propertyKey (currentConversationId v) with
  | Some files => files
  | None => []
  end.

(** [!currentConversationId] *)
Definition noConversation (id : option jsstring) : bool :=
  match id with Some (_ :: _) => false | _ => true end.

Definition handleArtifactUpdate (h : Host) (v : View) (newArtifacts : list Artifact)
  : M (list Event) :=
  if noConversation (currentConversationId v) then
    do newConvId <- generateSafeId h (str "conv");
    let deduplicated := deduplicateArtifacts newArtifacts in
    let updatedArtifacts : gmap jsstring (list Artifact) :=
      {[ newConvId := deduplicated ]} in
    ret [ SetCurrentConversationId newConvId; SetArtifacts updatedArtifacts;
          SaveArtifactsAfter 50 updatedArtifacts ]
  else
    let deduplicated := deduplicateArtifacts newArtifacts in
    let updatedArtifacts :=
      <[ propertyKey (currentConversationId v) := deduplicated ]> (artifacts v) in
    ret [ SetArtifacts updatedArtifacts; SaveArtifactsAfter 50 updatedArtifacts ].

(** [{ ...art, content: result }] *)
Definition withContent (art : Artifact) (result : jsstring) : Artifact :=
  {| ArtifactReconciler.path := path art;
     ArtifactReconciler.content := result;
     ArtifactReconciler.language := language art;
     ArtifactReconciler.id := ArtifactReconciler.id art;
     ArtifactReconciler.type := ArtifactReconciler.type art;
     ArtifactReconciler.createdBy := createdBy art;
     ArtifactReconciler.timestamp := timestamp art;
     ArtifactReconciler.source := source art;
     ArtifactReconciler.lineCount := lineCount art;
     ArtifactReconciler.size := size art;
     ArtifactReconciler.addedToProject := addedToProject art |}.

(** The part of the message about the failed operations. *)
Definition failureList (failedOps : list PatchEngine.Failure.Info) : option FailureList :=
  if (0 <? length failedOps)%nat then
    Some {| failedCount := length failedOps;
            shown := map (λ f, (PatchEngine.Failure.index f, PatchEngine.Failure.reason f))
                       (take 3 failedOps);
            more := if (3 <? length failedOps)%nat
                    then Some (length failedOps - 3)%nat else None |}
  else None.

(** The content of a file is a string, and so is the [result] of
    [applySearchReplace] for it. *)
Definition resultText (r : PatchEngine.PatchResult) : jsstring :=
  match PatchEngine.result r with Some text => text | None => [] end.

Definition handleApplyEditFromViewer (h : Host) (v : View) (editId : jsstring)
  : M (list Event) :=
  match List.find (λ e, strEq (Edit.id e) editId) (currentEdits v) with
  | None => ret []
  | Some edit =>
      match findTargetFileForEdit (currentArtifacts v) (Edit.path edit) with
      | None =>
          ret [ ConsoleError (Edit.path edit); AlertShown (FileNotFound (Edit.path edit)) ]
      | Some targetFile =>
          let r := PatchEngine.applySearchReplace
                     (Some (ArtifactReconciler.content targetFile))
                     (Some (Edit.operations edit)) in
          let result := resultText r in
          let appliedCount := PatchEngine.appliedCount r in
          let failedOps := PatchEngine.failedOps r in
          if (appliedCount =? 0)%nat then ret [ AlertShown NoOperationsApplied ]
          else
            let updatedArtifacts :=
              map (λ art, if strEq (path art) (path targetFile)
                          then withContent art result else art)
                  (currentArtifacts v) in
            do requests <- handleArtifactUpdate h v updatedArtifacts;
            if (appliedCount =? length (Edit.operations edit))%nat then
              ret (requests ++ [ AlertShown (AppliedAll appliedCount (path targetFile)) ])
            else
              ret (requests
                   ++ [ AlertShown (AppliedSome appliedCount (length (Edit.operations edit))
                                      (path targetFile) (failureList failedOps)) ])
      end
  end.

(** *** The files of a response

    The statement of [sendMessage] that takes the artifacts of the parsed
    response into the project.  [localStorage.setItem] is a call of the
    host that may throw, as [generateSafeId] may. *)

Record Storage := {
  setItem : jsstring -> jsstring -> nat -> option exn
}.

Definition SHOW_ARTIFACTS : jsstring := str "ollama-show-artifacts".

(** An element of [parsedResponse.artifacts] after the statement;
    [isDuplicate] is [false] where the property is missing. *)
Record Shown := {
  artifact : Artifact;
  isDuplicate : bool
}.

(** The callback of [currentArtifacts.some]. *)
Definition sameFile (artifact existing : Artifact) : bool :=
  strEq (path existing) (path artifact)
  || (PatchEngine.truthy (ArtifactReconciler.content existing)
      && PatchEngine.truthy (ArtifactReconciler.content artifact)
      && strEq (ArtifactReconciler.content existing) (ArtifactReconciler.content artifact)).

(** The callback of [parsedResponse.artifacts.map]; [None] is [null]. *)
Definition enhance (h : Host) (currentArtifacts : list Artifact) (artifact : Artifact)
  : M (option Artifact) :=
  let isDuplicate := existsb (sameFile artifact) currentArtifacts in
  if isDuplicate then ret None
  else
    do id <- generateSafeId h (str "file-" ++ path artifact);
    do timestamp <- now h;
    ret (Some {| ArtifactReconciler.path := path artifact;
                 ArtifactReconciler.content := ArtifactReconciler.content artifact;
                 ArtifactReconciler.language := language artifact;
                 ArtifactReconciler.id := id;
                 ArtifactReconciler.type := str "file";
                 ArtifactReconciler.createdBy := str "ai";
                 ArtifactReconciler.timestamp := timestamp;
                 ArtifactReconciler.source :=
                   if PatchEngine.truthy (source artifact) then source artifact
                   else str "parsed";
                 ArtifactReconciler.lineCount := lineCount artifact;
                 ArtifactReconciler.size := size artifact;
                 ArtifactReconciler.addedToProject := true |}).

(** What [enhance] gives for the artifact [p] of a response: nothing
    when a file of the project has its path or its non-empty content, else
    [p] marked as added. *)
Definition enhancedFrom (currentArtifacts : list Artifact) (p : Artifact)
    (o : option Artifact) : Prop :=
  match o with
  | None => existsb (sameFile p) currentArtifacts = true
  | Some a =>
      existsb (sameFile p) currentArtifacts = false
      ∧ path a = path p
      ∧ ArtifactReconciler.content a = ArtifactReconciler.content p
      ∧ addedToProject a = true
  end.

(** [array.map(f)] for a callback that calls the host. *)
Fixpoint mapM {A B} (f : A -> M B) (l : list A) : M (list B) :=
  match l with
  | [] => ret []
  | x :: l' =>
      do y <- f x;
      do ys <- mapM f l';
      ret (y :: ys)
  end.

(** [{ ...art, addedToProject: value }] *)
Definition withAdded (art : Artifact) (value : bool) : Artifact :=
  {| ArtifactReconciler.path := path art;
     ArtifactReconciler.content := ArtifactReconciler.content art;
     ArtifactReconciler.language := language art;
     ArtifactReconciler.id := ArtifactReconciler.id art;
     ArtifactReconciler.type := ArtifactReconciler.type art;
     ArtifactReconciler.createdBy := createdBy art;
     ArtifactReconciler.timestamp := timestamp art;
     ArtifactReconciler.source := source art;
     ArtifactReconciler.lineCount := lineCount art;
     ArtifactReconciler.size := size art;
     ArtifactReconciler.addedToProject := value |}.

(** The statement: the requests it makes, in order, and either the error
    that leaves it or the new value of [parsedResponse.artifacts]; the
    requests made before an error stay made. *)
Definition takeResponseArtifacts (h : Host) (storage : Storage) (v : View)
    (showArtifacts : bool) (parsedArtifacts : list Artifact) (t : nat)
  : (list Event * (exn + list Shown)) * nat :=
  if (0 <? length parsedArtifacts)%nat then
    match mapM (enhance h (currentArtifacts v)) parsedArtifacts t with
    | (inl e, t1) => (([], inl e), t1)
    | (inr mapped, t1) =>
        let enhancedArtifacts := omap (λ a, a) mapped in
        if (0 <? length enhancedArtifacts)%nat then
          let updatedArtifacts := currentArtifacts v ++ enhancedArtifacts in
          match handleArtifactUpdate h v updatedArtifacts t1 with
          | (inl e, t2) => (([], inl e), t2)
          | (inr requests, t2) =>
              let shown :=
                map (λ art, {| artifact := withAdded art true; isDuplicate := false |})
                    enhancedArtifacts in
              if negb showArtifacts && (0 <? length enhancedArtifacts)%nat then
                match setItem storage SHOW_ARTIFACTS (str "true") t2 with
                | Some e => ((requests ++ [ SetShowArtifacts true ], inl e), S t2)
                | None =>
                    ((requests ++ [ SetShowArtifacts true; SetShowEmptyState false ],
                      inr shown), S t2)
                end
              else ((requests ++ [ SetShowEmptyState false ], inr shown), t2)
          end
        else
          (([], inr (map (λ artifact, {| artifact := withAdded artifact false;
                                         isDuplicate := true |}) parsedArtifacts)), t1)
    end
  else
    (([], inr (map (λ artifact, {| artifact := artifact; isDuplicate := false |})
                   parsedArtifacts)), t).

End Workspace.

(** ** The tree of the files

    The value [fileTree] of the component [ArtifactManager]: an object per
    folder, filled file by file.  A plain object inherits the members of
    [Object.prototype], so a lookup [currentLevel[part]] finds an own
    property, an inherited one or nothing; the inherited ones are objects
    and functions without a property [children].  The lookup on [undefined]
    throws a [TypeError], which ends the computation.  The order of the
    properties is not kept. *)

Module FileTree.

Import ArtifactReconciler.

(** The names of the properties of [Object.prototype]. *)
Definition objectPrototype : list jsstring :=
  map str [ "constructor"; "__defineGetter__"; "__defineSetter__"; "hasOwnProperty";
            "__lookupGetter__"; "__lookupSetter__"; "isPrototypeOf";
            "propertyIsEnumerable"; "toString"; "valueOf"; "__proto__";
            "toLocaleString" ].

#[warnings="-register-all"]
Inductive Node :=
| FileNode (file : Artifact) (name fullPath : jsstring)
| FolderNode (name fullPath : jsstring) (children : gmap jsstring Node).

Abbreviation Level := (gmap jsstring Node).

(** [currentLevel[part]] *)
Inductive Property :=
| Own (node : Node)
| Inherited
| Undefined.

Definition getProperty (currentLevel : Level) (part : jsstring) : Property :=
  match currentLevel !! part with
  | Some node => Own node
  | None => if bool_decide (part ∈ objectPrototype) then Inherited else Undefined
  end.

Inductive Outcome :=
| Built (tree : Level)
| TypeError.

(** [{ ...file, type: 'file', name: part, fullPath: file.path }] *)
Definition fileNode (file : Artifact) (part : jsstring) : Node :=
  FileNode {| path := path file;
              content := content file;
              language := language file;
              id := id file;
              type := str "file";
              createdBy := createdBy file;
              timestamp := timestamp file;
              source := source file;
              lineCount := lineCount file;
              size := size file;
              addedToProject := addedToProject file |}
           part (path file).

(** The turns of [pathParts.forEach] from the part after [before] on,
    with the object [currentLevel] as it is after them, or the error of the
    turn that looks a part up on the [children] of a node without
    [children].  The last part is the one of the file. *)
Fixpoint place (file : Artifact) (before parts : list jsstring) (currentLevel : Level)
  : Outcome :=
  match parts with
  | [] => Built currentLevel
  | part :: rest =>
      match rest with
      | [] =>
          match getProperty currentLevel part with
          | Undefined => Built (<[ part := fileNode file part ]> currentLevel)
          | _ => Built currentLevel
          end
      | _ :: _ =>
          let currentLevel :=
            match getProperty currentLevel part with
            | Undefined =>
                <[ part := FolderNode part (join (str "/") (before ++ [part])) ∅ ]>
                  currentLevel
            | _ => currentLevel
            end in
          match getProperty currentLevel part with
          | Own (FolderNode name fullPath children) =>
              match place file (before ++ [part]) rest children with
              | Built children =>
                  Built (<[ part := FolderNode name fullPath children ]> currentLevel)
              | TypeError => TypeError
              end
          | _ => TypeError
          end
      end
  end.

(** [limitedArtifacts.forEach] *)
Fixpoint placeAll (files : list Artifact) (tree : Level) : Outcome :=
  match files with
  | [] => Built tree
  | file :: files' =>
      match place file [] (split "/"%char (path file)) tree with
      | Built tree => placeAll files' tree
      | TypeError => TypeError
      end
  end.

Definition fileTree (currentArtifacts : list Artifact) : Outcome :=
  placeAll (take 100 currentArtifacts) ∅.

(** The node the parts of a path lead to, through the [children] of the
    folders. *)
Fixpoint nodeAt (parts : list jsstring) (level : Level) : option Node :=
  match parts with
  | [] => None
  | part :: rest =>
      match level !! part with
      | None => None
      | Some node =>
          match rest with
          | [] => Some node
          | _ :: _ =>
              match node with
              | FolderNode _ _ children => nodeAt rest children
              | FileNode _ _ _ => None
              end
          end
      end
  end.

(** No node of the tree is stored under the name of a member of
    [Object.prototype]. *)
Definition plain (level : Level) : Prop :=
  ∀ q node, nodeAt q level = Some node → Forall (λ part, part ∉ objectPrototype) q.

(** No path is the path of a folder of another, or the same as another. *)
Definition separate (paths : list (list jsstring)) : Prop :=
  ∀ i j p q, paths !! i = Some p → paths !! j = Some q → i ≠ j → ¬ p `prefix_of` q.

End FileTree.

(** ** Sample project *)

Module Scenes.

Import ArtifactReconciler ResponseParser Workspace.

Definition file (p : string) (text : jsstring) : Artifact :=
  {| path := str p; ArtifactReconciler.content := text; language := VStr (str "text");
     ArtifactReconciler.id := []; ArtifactReconciler.type := str "file";
     createdBy := str "user"; timestamp := []; source := [];
     lineCount := length (split LF text); size := length text;
     addedToProject := true |}.

Definition editGroup (id p : string) (operations : list PatchEngine.Operation)
  : Edit.EditGroup :=
  {| Edit.path := str p; Edit.operations := operations; Edit.id := str id;
     Edit.type := str "search_replace"; Edit.timestamp := [];
     Edit.rawContent := []; Edit.parsedContent := []; Edit.applied := false;
     Edit.operationCount := length operations |}.

(** A conversation with a greeting and an empty file, and three edits:
    one operation on the greeting, 21 operations on it, and one operation
    on the empty file. *)
Definition project : View :=
  {| artifacts :=
       {[ str "conv-1" := [ file "greeting.txt" Samples.greeting; file "empty.txt" [] ] ]};
     currentConversationId := Some (str "conv-1");
     currentEdits :=
       [ editGroup "edit-1" "greeting.txt" [ Samples.helloToBye ];
         editGroup "edit-2" "greeting.txt"
           (replicate 21 (Samples.operation (str "e") (str "E")));
         editGroup "edit-3" "empty.txt" [ Samples.helloToBye ] ] |}.

(** Two files as [parseLLMResponse] returns them, with the same path. *)
Definition parsedFile (p : string) (text : jsstring) : Artifact :=
  {| path := str p; ArtifactReconciler.content := text; language := VStr (str "text");
     ArtifactReconciler.id := str "artifact-1"; ArtifactReconciler.type := str "file";
     createdBy := str "ai"; timestamp := []; source := str "parsed";
     lineCount := length (split LF text); size := length text;
     addedToProject := false |}.

Definition quietStorage : Storage := {| setItem := λ _ _ _, None |}.

(** The project when the edits of a response to it are the current ones. *)
Definition projectAfter (message : jsstring) : View :=
  {| artifacts := artifacts project;
     currentConversationId := currentConversationId project;
     currentEdits := edits (fst (parseLLMResponse Samples.quietHost (VStr message) 0)) |}.

End Scenes.

(** * Properties *)

(** ** Facts about the string primitives *)

Module JsFacts.

Import Notions.

Lemma strEq_true a b : PathSanitizer.strEq a b = true ↔ a = b.
Proof. unfold PathSanitizer.strEq. apply bool_decide_eq_true. Qed.

Lemma strEq_false a b : PathSanitizer.strEq a b = false ↔ a ≠ b.
Proof. unfold PathSanitizer.strEq. apply bool_decide_eq_false. Qed.

Lemma startsWith_nil s : startsWith s [] = true.
Proof. by destruct s. Qed.

Lemma startsWith_cons b s a p :
  startsWith (b :: s) (a :: p) = Ascii.eqb a b && startsWith s p.
Proof. reflexivity. Qed.

Lemma startsWith_prefix s p : startsWith s p = true ↔ ∃ r, s = p ++ r.
Proof.
  revert s. induction p as [|a p IH]; intros s.
  - rewrite startsWith_nil. split; [intros _; by exists s|done].
  - destruct s as [|b s].
    + split; [done|]. by intros [r ?].
    + rewrite startsWith_cons, andb_true_iff, Ascii.eqb_eq, IH. split.
      * intros [-> [r ->]]. eauto.
      * intros [r [= -> ->]]. eauto.
Qed.

(** An occurrence at [i] is a way to cut the text around the pattern. *)
Lemma occursAt_split text pat i :
  (i ≤ length text)%nat ∧ occursAt text pat i = true ↔
  ∃ pre post, text = pre ++ pat ++ post ∧ length pre = i.
Proof.
  unfold occursAt. rewrite startsWith_prefix. split.
  - intros [Hi [r Hr]]. exists (take i text), r. split.
    + by rewrite <- Hr, take_drop.
    + by apply length_take_le.
  - intros (pre & post & -> & <-). split.
    + rewrite length_app. lia.
    + exists post. by rewrite drop_app_length.
Qed.

Lemma elem_of_occurrences text pat i :
  i ∈ occurrences text pat ↔
  ∃ pre post, text = pre ++ pat ++ post ∧ length pre = i.
Proof.
  rewrite <- occursAt_split. unfold occurrences.
  rewrite list_elem_of_In, filter_In, in_seq. intuition lia.
Qed.

Lemma filter_seq_S (P : nat → bool) k :
  List.filter P (seq 0 (S k)) = List.filter P (seq 0 k) ++ (if P k then [k] else []).
Proof. rewrite seq_S, List.filter_app. simpl. by destruct (P k). Qed.

Lemma lastIndexOfFrom_eq text pat k :
  lastIndexOfFrom text pat k =
  if occursAt text pat k then Z.of_nat k
  else match k with O => -1 | S k' => lastIndexOfFrom text pat k' end.
Proof. by destruct k. Qed.

Lemma lastIndexOfFrom_last text pat k :
  lastIndexOfFrom text pat k = lastOr (List.filter (occursAt text pat) (seq 0 (S k))).
Proof.
  unfold lastOr.
  induction k as [|k IH]; rewrite filter_seq_S, last_app, lastIndexOfFrom_eq.
  - by destruct (occursAt text pat 0).
  - destruct (occursAt text pat (S k)); [done|]. apply IH.
Qed.

(** [lastIndexOf] returns the last index at which the pattern occurs. *)
Lemma lastIndexOf_occurrences text pat :
  lastIndexOf text pat = lastOr (occurrences text pat).
Proof. apply lastIndexOfFrom_last. Qed.

Lemma lastIndexOf_Some text pat i :
  last (occurrences text pat) = Some i → lastIndexOf text pat = Z.of_nat i.
Proof. rewrite lastIndexOf_occurrences. unfold lastOr. by intros ->. Qed.

Lemma lastIndexOf_None text pat :
  lastIndexOf text pat = -1 ↔ occurrences text pat = [].
Proof.
  rewrite lastIndexOf_occurrences. unfold lastOr. rewrite <- last_None.
  destruct (last _); split; (done || lia).
Qed.

Lemma substring_0 s (i : nat) : substring s 0 (Z.of_nat i) = take i s.
Proof.
  unfold substring, clampIndex. rewrite Nat2Z.id. simpl Z.to_nat.
  rewrite Nat.min_0_l, Nat.max_0_l, Nat.sub_0_r, drop_0.
  destruct (decide (i ≤ length s)%nat).
  - by rewrite Nat.min_l.
  - rewrite Nat.min_r by lia. by rewrite !take_ge by lia.
Qed.

Lemma substringFrom_add s (a b : nat) :
  substringFrom s (Z.of_nat a + Z.of_nat b) = drop (a + b) s.
Proof.
  unfold substringFrom, clampIndex. rewrite <- Nat2Z.inj_add, Nat2Z.id.
  destruct (decide (a + b ≤ length s)%nat).
  - by rewrite Nat.min_l.
  - rewrite Nat.min_r by lia. by rewrite !drop_ge by lia.
Qed.

Lemma split_nonempty sep s : split sep s ≠ [].
Proof.
  destruct s as [|c s]; [done|]. simpl.
  destruct (Ascii.eqb c sep); [done|]. by destruct (split sep s).
Qed.

Lemma join_cons sep x l :
  l ≠ [] → join sep (x :: l) = x ++ sep ++ join sep l.
Proof. by destruct l. Qed.

Lemma join_app sep a b :
  a ≠ [] → b ≠ [] → join sep (a ++ b) = join sep a ++ sep ++ join sep b.
Proof.
  intros Ha Hb. induction a as [|x a IH]; [done|].
  destruct a as [|y a].
  - simpl app. by rewrite join_cons.
  - rewrite <- app_comm_cons, join_cons by done.
    rewrite IH by done. rewrite (join_cons sep x (y :: a)) by done.
    by rewrite <- !(assoc_L (++)).
Qed.

End JsFacts.

(** ** Facts about the matcher *)

Module RegexProps.

Import Regex Notions.

Lemma advances_refl st : advances st st.
Proof. by split. Qed.

Lemma advances_trans a b c : advances a b → advances b c → advances a c.
Proof. unfold advances. lia. Qed.

Lemma orElse_Some {A} (a b : option A) x :
  orElse a b = Some x → a = Some x ∨ b = Some x.
Proof. destruct a; simpl; auto. Qed.

Lemma iterate_eq body greedy k n st :
  iterate body greedy k n st =
  let again :=
    match n with
    | O => None
    | S n' =>
        body st (λ st', if (pos st' =? pos st)%nat then None
                        else iterate body greedy k n' st')
    end in
  if greedy then orElse again (k st) else orElse (k st) again.
Proof. by destruct n. Qed.

Section Body.

Context (body : mstate → (mstate → option mstate) → option mstate).

(** What the lemmas below need of the body of a loop: it hands to its
    continuation a state further on in the input, and its result depends
    on the continuation at such states only. *)
Hypothesis body_advances :
  ∀ st k res, body st k = Some res → ∃ st', k st' = Some res ∧ advances st st'.
Hypothesis body_ext :
  ∀ st k1 k2, (∀ st', advances st st' → k1 st' = k2 st') → body st k1 = body st k2.

Lemma iterate_advances greedy k n st res :
  iterate body greedy k n st = Some res →
  ∃ st', k st' = Some res ∧ advances st st'.
Proof.
  revert st. induction n as [|n IHn]; intros st; rewrite iterate_eq; cbv zeta.
  - intros H. exists st. split; [|apply advances_refl].
    destruct greedy; apply orElse_Some in H as [H|H]; done.
  - intros H.
    assert (body st (λ st', if (pos st' =? pos st)%nat then None
                            else iterate body greedy k n st') = Some res
            ∨ k st = Some res) as [Hagain|Hk].
    { destruct greedy; apply orElse_Some in H; tauto. }
    + apply body_advances in Hagain as (st1 & H1 & A1).
      destruct (pos st1 =? pos st)%nat; [done|].
      apply IHn in H1 as (st2 & H2 & A2).
      exists st2. split; [done|]. by apply (advances_trans _ st1).
    + exists st. split; [done|apply advances_refl].
Qed.

Lemma iterate_ext greedy k1 k2 n st :
  (∀ st', advances st st' → k1 st' = k2 st') →
  iterate body greedy k1 n st = iterate body greedy k2 n st.
Proof.
  revert st. induction n as [|n IHn]; intros st Hk; rewrite !iterate_eq; cbv zeta.
  - by rewrite (Hk st (advances_refl st)).
  - rewrite (Hk st (advances_refl st)). 
    assert (body st (λ st', if (pos st' =? pos st)%nat then None
                            else iterate body greedy k1 n st')
            = body st (λ st', if (pos st' =? pos st)%nat then None
                              else iterate body greedy k2 n st')) as ->; [|done].
    apply body_ext. intros st' A. destruct (pos st' =? pos st)%nat; [done|].
    apply IHn. intros st'' A'. apply Hk. by apply (advances_trans _ st').
Qed.

(** At the end of the input the body cannot go further, so a loop makes
    no turn there, whatever its bound. *)
Lemma iterate_exhausted greedy k n st :
  length (rest st) = 0%nat →
  iterate body greedy k n st = iterate body greedy k 0 st.
Proof.
  intros Hend. destruct n as [|n]; [done|]. rewrite !iterate_eq. cbv zeta.
  assert (body st (λ st', if (pos st' =? pos st)%nat then None
                          else iterate body greedy k n st') = None) as ->; [|done].
  destruct (body st _) as [res|] eqn:E; [|done]. exfalso.
  apply body_advances in E as (st1 & H1 & [A1 A2]).
  destruct (pos st1 =? pos st)%nat eqn:Ep; [done|].
  apply Nat.eqb_neq in Ep. lia.
Qed.

(** The bound on the turns of a loop does not matter once it is at least
    the length of the remaining input. *)
Lemma iterate_bound greedy k n n' st :
  (length (rest st) ≤ n)%nat → (length (rest st) ≤ n')%nat →
  iterate body greedy k n st = iterate body greedy k n' st.
Proof.
  revert n' st. induction n as [|n IHn]; intros n' st Hn Hn'.
  { symmetry. apply iterate_exhausted. lia. }
  destruct n' as [|n']; [apply iterate_exhausted; lia|].
  rewrite !iterate_eq. cbv zeta.
  assert (body st (λ st', if (pos st' =? pos st)%nat then None
                          else iterate body greedy k n st')
          = body st (λ st', if (pos st' =? pos st)%nat then None
                            else iterate body greedy k n' st')) as ->; [|done].
  apply body_ext. intros st' [A1 A2].
  destruct (pos st' =? pos st)%nat eqn:Ep; [done|]. apply Nat.eqb_neq in Ep.
  apply IHn; lia.
Qed.

End Body.

(** A match hands to its continuation a state further on in the input. *)
Lemma run_advances ignoreCase r :
  ∀ st k res, run ignoreCase r st k = Some res →
    ∃ st', k st' = Some res ∧ advances st st'.
Proof.
  induction r as [|c|cls|r1 IH1 r2 IH2|r1 IH1 r2 IH2|greedy r IH|i r IH| |];
    intros st k res; simpl.
  - intros H. exists st. split; [done|apply advances_refl].
  - destruct st as [p [|x xs] cs]; simpl; [done|].
    destruct (sameChar ignoreCase c x); [|done]. intros H.
    eexists. split; [exact H|]. unfold advances. simpl. lia.
  - destruct st as [p [|x xs] cs]; simpl; [done|].
    destruct (cls x); [|done]. intros H.
    eexists. split; [exact H|]. unfold advances. simpl. lia.
  - intros (st1 & H1 & A1)%IH1. apply IH2 in H1 as (st2 & H2 & A2).
    exists st2. split; [done|]. by apply (advances_trans _ st1).
  - intros [H|H]%orElse_Some; [by apply IH1|by apply IH2].
  - by apply iterate_advances.
  - intros (st1 & H1 & A1)%IH. eexists. split; [exact H1|]. exact A1.
  - destruct (pos st =? 0)%nat; [|done]. intros H. exists st.
    split; [done|apply advances_refl].
  - destruct (rest st); [|done]. intros H. exists st.
    split; [done|apply advances_refl].
Qed.

(** The result of a match depends on the continuation only at the states
    further on in the input. *)
Lemma run_ext ignoreCase r :
  ∀ st k1 k2, (∀ st', advances st st' → k1 st' = k2 st') →
    run ignoreCase r st k1 = run ignoreCase r st k2.
Proof.
  induction r as [|c|cls|r1 IH1 r2 IH2|r1 IH1 r2 IH2|greedy r IH|i r IH| |];
    intros st k1 k2 Hk; simpl.
  - apply Hk, advances_refl.
  - destruct st as [p [|x xs] cs]; simpl; [done|].
    destruct (sameChar ignoreCase c x); [|done]. apply Hk. unfold advances. simpl. lia.
  - destruct st as [p [|x xs] cs]; simpl; [done|].
    destruct (cls x); [|done]. apply Hk. unfold advances. simpl. lia.
  - apply IH1. intros st1 A1. apply IH2. intros st2 A2. apply Hk.
    by apply (advances_trans _ st1).
  - by rewrite (IH1 st k1 k2), (IH2 st k1 k2).
  - by apply iterate_ext.
  - apply IH. intros st1 A1. apply Hk. exact A1.
  - destruct (pos st =? 0)%nat; [|done]. apply Hk, advances_refl.
  - destruct (rest st); [|done]. apply Hk, advances_refl.
Qed.

(** A repetition in an expression runs as long as its body matches: a
    larger bound on the turns gives the same result. *)
Lemma star_bound ignoreCase greedy r st k n :
  (length (rest st) ≤ n)%nat →
  run ignoreCase (Star greedy r) st k = iterate (run ignoreCase r) greedy k n st.
Proof.
  intros Hn. simpl. apply iterate_bound; [apply run_advances|apply run_ext|done..].
Qed.

(** An expression that starts with a character consumes at least one. *)
Lemma run_consumes ignoreCase r :
  startsWithChar r = true →
  ∀ st k res, run ignoreCase r st k = Some res →
    ∃ st', k st' = Some res ∧ advances st st' ∧ (pos st < pos st')%nat.
Proof.
  induction r as [|c|cls|r1 IH1 r2 IH2|r1 IH1 r2 IH2|greedy r IH|i r IH| |];
    simpl; try done; intros Hs st k res.
  - destruct st as [p [|x xs] cs]; simpl; [done|].
    destruct (sameChar ignoreCase c x); [|done]. intros H.
    eexists. split; [exact H|]. unfold advances. simpl. lia.
  - destruct st as [p [|x xs] cs]; simpl; [done|].
    destruct (cls x); [|done]. intros H.
    eexists. split; [exact H|]. unfold advances. simpl. lia.
  - intros (st1 & H1 & A1 & L1)%IH1; [|done].
    apply run_advances in H1 as (st2 & H2 & A2).
    exists st2. split_and!; [done|by apply (advances_trans _ st1)|].
    destruct A2. lia.
  - intros (st1 & H1 & A1 & L1)%IH; [|done].
    eexists. split_and!; [exact H1|exact A1|exact L1].
Qed.

Lemma searchFrom_bounds ignoreCase r whole i suffix m :
  length whole = (i + length suffix)%nat →
  searchFrom ignoreCase r whole i suffix = Some m →
  (i ≤ mindex m)%nat ∧ (mindex m ≤ mend m)%nat ∧ (mend m ≤ length whole)%nat
  ∧ (startsWithChar r = true → (mindex m < mend m)%nat).
Proof.
  revert i. induction suffix as [|c suffix IH]; intros i Hlen; simpl.
  - destruct (run ignoreCase r _ Some) as [st|] eqn:E; [|done].
    intros [= <-]. simpl.
    pose proof E as (st' & [= ->] & [A1 A2])%run_advances. simpl in *.
    split_and!; [lia..|].
    intros Hs. apply (run_consumes _ _ Hs) in E as (st' & [= ->] & _ & L).
    simpl in L. lia.
  - destruct (run ignoreCase r _ Some) as [st|] eqn:E.
    + intros [= <-]. simpl.
      pose proof E as (st' & [= ->] & [A1 A2])%run_advances. simpl in *.
      split_and!; [lia..|].
      intros Hs. apply (run_consumes _ _ Hs) in E as (st' & [= ->] & _ & L).
      simpl in L. lia.
    + intros H. apply IH in H; [|simpl in Hlen; lia]. intuition lia.
Qed.

(** A match of [exec] lies between [lastIndex] and the end of the input,
    and the new [lastIndex] is its end. *)
Lemma exec_bounds ignoreCase r s lastIndex m lastIndex' :
  exec ignoreCase r s lastIndex = (Some m, lastIndex') →
  lastIndex' = mend m ∧ (lastIndex ≤ mindex m)%nat ∧ (mindex m ≤ mend m)%nat
  ∧ (mend m ≤ length s)%nat
  ∧ (startsWithChar r = true → (mindex m < mend m)%nat).
Proof.
  unfold exec. destruct (length s <? lastIndex)%nat eqn:E; [done|].
  apply Nat.ltb_ge in E.
  destruct (searchFrom ignoreCase r s lastIndex (drop lastIndex s)) as [m'|] eqn:Es;
    [|done].
  intros [= -> <-]. split; [done|].
  apply searchFrom_bounds in Es; [done|]. rewrite length_drop. lia.
Qed.

End RegexProps.

(** ** Path sanitizing *)

Module SanitizerProps.

Import PathSanitizer.

(** The result of [validateAndSanitizePath] is never the empty string. *)
Lemma sanitize_nonempty v : validateAndSanitizePath v ≠ [].
Proof.
  unfold validateAndSanitizePath.
  destruct (falsy v || negb (isString v)); [done|].
  destruct v; try done.
  match goal with |- context [removeClass ?c ?x] => generalize (removeClass c x) end.
  intros sanitized. destruct sanitized as [|c sanitized]; [done|].
  by destruct (_ && _).
Qed.

Lemma removeClass_clean cls s : Forall (λ c, cls c = false) (removeClass cls s).
Proof.
  unfold removeClass. apply Forall_forall. intros c Hc%list_elem_of_In.
  apply filter_In in Hc as [_ Hc]. by destruct (cls c).
Qed.

(** The result holds none of the characters the function strips. *)
Lemma sanitize_no_forbidden v :
  Forall (λ c, forbiddenChar c = false) (validateAndSanitizePath v).
Proof.
  assert (Forall (λ c, forbiddenChar c = false) (str "unknown.txt")) as Hu.
  { by repeat constructor. }
  unfold validateAndSanitizePath.
  destruct (falsy v || negb (isString v)); [done|].
  destruct v; try done.
  destruct (_ && _); [|apply removeClass_clean].
  apply Forall_app. split; [apply removeClass_clean|by repeat constructor].
Qed.

Example sanitize_missing :
  validateAndSanitizePath VUndefined = str "unknown.txt"
  ∧ validateAndSanitizePath VNull = str "unknown.txt"
  ∧ validateAndSanitizePath (VStr []) = str "unknown.txt".
Proof. by split_and!. Qed.

(** C4: the two dots of a [..] segment survive when a stripped character
    stands between them, because [..] is removed before the characters
    are: [a/.<./b] is sanitized to [a/../b], whose second segment is
    [..].  The other two parts of the claim hold, see
    [sanitize_nonempty] and [sanitize_no_forbidden]. *)
Theorem sanitize_can_leave_dotdot :
  validateAndSanitizePath (VStr (str "a/.<./b")) = str "a/../b"
  ∧ In (str "..") (split "/"%char (validateAndSanitizePath (VStr (str "a/.<./b"))))
  ∧ validateAndSanitizePath (VStr (str ".<.")) = str "..".
Proof. split_and!; [reflexivity| |reflexivity]. vm_compute. tauto. Qed.

End SanitizerProps.

(** ** Deduplication and target resolution *)

Module ReconcilerProps.

Import ArtifactReconciler Notions Samples JsFacts.

Lemma filterState_dedupe_cons a l seen :
  filterState dedupeStep (a :: l) seen =
  if decide (path a ∈ seen) then filterState dedupeStep l seen
  else a :: filterState dedupeStep l ({[ path a ]} ∪ seen).
Proof. simpl. unfold dedupeStep. by case_decide. Qed.

Lemma dedupe_sublist l seen : sublist (filterState dedupeStep l seen) l.
Proof.
  revert seen. induction l as [|a l IH]; intros seen.
  - constructor.
  - rewrite filterState_dedupe_cons. case_decide.
    + by apply sublist_cons.
    + by apply sublist_skip.
Qed.

(** What is kept was not seen before. *)
Lemma dedupe_fresh l seen a :
  a ∈ filterState dedupeStep l seen → path a ∉ seen.
Proof.
  revert seen. induction l as [|b l IH]; intros seen.
  - simpl. by intros ?%elem_of_nil.
  - rewrite filterState_dedupe_cons. case_decide as Hseen.
    + apply IH.
    + intros [->|Hin]%elem_of_cons; [done|].
      apply IH in Hin. intros Ha. apply Hin, elem_of_union. by right.
Qed.

Lemma dedupe_NoDup l seen : NoDup (path <$> filterState dedupeStep l seen).
Proof.
  revert seen. induction l as [|a l IH]; intros seen.
  - constructor.
  - rewrite filterState_dedupe_cons. case_decide; [apply IH|].
    rewrite fmap_cons. constructor; [|apply IH].
    intros (b & Hb & Hin)%list_elem_of_fmap.
    apply dedupe_fresh in Hin. apply Hin, elem_of_union. left.
    by apply elem_of_singleton.
Qed.

Lemma dedupe_find l seen p :
  List.find (hasPath p) (filterState dedupeStep l seen) =
  if decide (p ∈ seen) then None else List.find (hasPath p) l.
Proof.
  revert seen. induction l as [|a l IH]; intros seen.
  - simpl. by case_decide.
  - rewrite filterState_dedupe_cons. simpl. unfold hasPath at 2.
    destruct (PathSanitizer.strEq (path a) p) eqn:E.
    + apply strEq_true in E. subst p.
      case_decide as Hs; [rewrite IH; by rewrite decide_True|].
      simpl. unfold hasPath at 1.
      by assert (PathSanitizer.strEq (path a) (path a) = true) as ->
        by by apply strEq_true.
    + apply strEq_false in E.
      destruct (decide (path a ∈ seen)) as [Hs|Hs]; [apply IH|].
      simpl. unfold hasPath at 1.
      assert (PathSanitizer.strEq (path a) p = false) as -> by by apply strEq_false.
      rewrite IH.
      destruct (decide (p ∈ seen)) as [Hp|Hp],
               (decide (p ∈ {[path a]} ∪ seen)) as [Hq|Hq]; try done.
      * exfalso. apply Hq, elem_of_union. by right.
      * apply elem_of_union in Hq as [Hq%elem_of_singleton|Hq]; [by subst|done].
Qed.

(** A list without repeated paths, none of them seen, is left as it is. *)
Lemma dedupe_fixed l seen :
  NoDup (path <$> l) → (∀ a, a ∈ l → path a ∉ seen) →
  filterState dedupeStep l seen = l.
Proof.
  revert seen. induction l as [|a l IH]; intros seen Hnd Hfresh; [done|].
  rewrite filterState_dedupe_cons.
  rewrite fmap_cons in Hnd. apply NoDup_cons in Hnd as [Hnotin Hnd].
  rewrite decide_False; [|apply Hfresh; left].
  f_equal. apply IH; [done|].
  intros b Hb Hin. apply elem_of_union in Hin as [Heq%elem_of_singleton | Hin].
  - apply Hnotin. rewrite <- Heq. apply list_elem_of_fmap. eauto.
  - apply (Hfresh b); [by right | done].
Qed.

(** C9: [deduplicateArtifacts] returns a sublist of its argument (the
    order is kept and nothing is added) in which no path occurs twice and
    in which the artifact found for any path is the first one with that
    path in the argument; applying it twice is the same as applying it
    once. *)
Theorem dedupe_keeps_first_occurrences (xs : list Artifact) :
  sublist (deduplicateArtifacts xs) xs
  ∧ NoDup (path <$> deduplicateArtifacts xs)
  ∧ (∀ p, List.find (hasPath p) (deduplicateArtifacts xs) = List.find (hasPath p) xs)
  ∧ deduplicateArtifacts (deduplicateArtifacts xs) = deduplicateArtifacts xs.
Proof.
  unfold deduplicateArtifacts. split_and!.
  - apply dedupe_sublist.
  - apply dedupe_NoDup.
  - intros p. rewrite dedupe_find. rewrite decide_False; [done|]. apply not_elem_of_empty.
  - apply dedupe_fixed; [apply dedupe_NoDup|]. intros a _. apply not_elem_of_empty.
Qed.

Example dedupe_sample :
  map path (deduplicateArtifacts
              [projectFile "src/a.js"; projectFile "a.js"; projectFile "src/a.js";
               projectFile "b"; projectFile "a.js"])
  = [str "src/a.js"; str "a.js"; str "b"].
Proof. by vm_compute. Qed.

Lemma find_firstMatch test xs a :
  List.find test xs = Some a → firstMatch test xs a.
Proof.
  induction xs as [|x xs IH]; simpl; [done|].
  destruct (test x) eqn:E.
  - intros [= ->]. exists 0%nat. split_and!; [done..|]. intros j b Hj. lia.
  - intros (i & Hi & Ha & Hlt)%IH. exists (S i). split_and!; [done..|].
    intros [|j] b Hj; simpl; [by intros [= <-]|]. apply Hlt. lia.
Qed.

Lemma find_noMatch test xs :
  List.find test xs = None → noMatch test xs.
Proof.
  unfold noMatch. induction xs as [|x xs IH]; simpl; [constructor|].
  destruct (test x) eqn:E; [done|]. intros ?. constructor; auto.
Qed.

Lemma noMatch_find test xs :
  noMatch test xs → List.find test xs = None.
Proof.
  unfold noMatch. induction 1 as [|x xs Hx _ IH]; simpl; [done|]. by rewrite Hx.
Qed.

Lemma findTarget_unfold arts editPath :
  findTargetFileForEdit arts editPath =
  let xs := take 50 arts in
  let n := normalizePath editPath in
  match List.find (exactMatch n) xs with
  | Some art => Some art
  | None =>
      match List.find (basenameMatch n) xs with
      | Some art => Some art
      | None => List.find (containsMatch n) xs
      end
  end.
Proof. by destruct arts. Qed.

(** C6, amended: among the first 50 artifacts of the list,
    [findTargetFileForEdit] returns the first one whose normalized path
    equals the normalized declared path; if there is none, the first one
    with the same base name; if there is none, the first one whose
    normalized path contains the declared one or is contained in it; and
    [null] if no stage matches any of them. *)
Theorem resolve_cascade_over_first_50 (arts : list Artifact) (editPath : jsstring) :
  let xs := take 50 arts in
  let n := normalizePath editPath in
  match findTargetFileForEdit arts editPath with
  | Some a =>
      firstMatch (exactMatch n) xs a
      ∨ (noMatch (exactMatch n) xs ∧ firstMatch (basenameMatch n) xs a)
      ∨ (noMatch (exactMatch n) xs ∧ noMatch (basenameMatch n) xs
         ∧ firstMatch (containsMatch n) xs a)
  | None =>
      noMatch (exactMatch n) xs ∧ noMatch (basenameMatch n) xs
      ∧ noMatch (containsMatch n) xs
  end.
Proof.
  intros xs n. rewrite findTarget_unfold. fold xs n. cbv zeta.
  destruct (List.find (exactMatch n) xs) as [a|] eqn:E1.
  { left. by apply find_firstMatch. }
  apply find_noMatch in E1.
  destruct (List.find (basenameMatch n) xs) as [a|] eqn:E2.
  { right; left. split; [done|]. by apply find_firstMatch. }
  apply find_noMatch in E2.
  destruct (List.find (containsMatch n) xs) as [a|] eqn:E3.
  { right; right. split_and!; [done..|]. by apply find_firstMatch. }
  apply find_noMatch in E3. done.
Qed.

(** The scenario of the specification: the exact match wins over the
    artifact that only shares the base name. *)
Example resolve_prefers_exact :
  findTargetFileForEdit [projectFile "src/a.js"; projectFile "a.js"] (str "a.js")
  = Some (projectFile "a.js").
Proof. reflexivity. Qed.

(** C6 as stated fails on a list of 51 artifacts: the exact stage has a
    match in the list, at index 50, and yet the artifact returned is the
    base-name candidate at index 0. *)
Lemma resolve_whole_list_counterexample :
  firstMatch (exactMatch (normalizePath (str "a.js"))) manyFiles (projectFile "a.js")
  ∧ findTargetFileForEdit manyFiles (str "a.js") = Some (projectFile "src/a.js")
  ∧ projectFile "src/a.js" ≠ projectFile "a.js".
Proof.
  split_and!.
  - apply find_firstMatch. by vm_compute.
  - by vm_compute.
  - discriminate.
Qed.

Lemma index_bound_of_take {A} (test : A → bool) (n : nat) (l : list A) :
  forallb (λ a, negb (test a)) (take n l) = true →
  ∀ i a, l !! i = Some a → test a = true → (n ≤ i)%nat.
Proof.
  intros H i a Hi Ha. destruct (decide (i < n)%nat) as [Hlt|]; [|lia].
  exfalso. rewrite forallb_forall in H.
  assert (In a (take n l)) as Hin.
  { apply list_elem_of_In, list_elem_of_lookup. exists i. by rewrite lookup_take_lt. }
  apply H in Hin. rewrite Ha in Hin. done.
Qed.

(** C10: when every artifact that matches some stage of the cascade stands
    at index 50 or beyond, [findTargetFileForEdit] returns [null]. *)
Theorem resolve_examines_first_50_only (arts : list Artifact) (editPath : jsstring) :
  (∀ i a, arts !! i = Some a →
          matchesSomeStage (normalizePath editPath) a = true → (50 ≤ i)%nat) →
  findTargetFileForEdit arts editPath = None.
Proof.
  intros H. rewrite findTarget_unfold. cbv zeta.
  assert (∀ test,
            (∀ a, test a = true → matchesSomeStage (normalizePath editPath) a = true) →
            List.find test (take 50 arts) = None) as Hnone.
  { intros test Himp. apply noMatch_find, Forall_lookup. intros i a Hi.
    apply lookup_take_Some in Hi as [Hi Hlt].
    destruct (test a) eqn:E; [|done]. apply Himp, (H i a Hi) in E. lia. }
  rewrite !Hnone; [done|..]; intros a Ha; unfold matchesSomeStage; rewrite Ha;
    by rewrite ?orb_true_r.
Qed.

(** The artifact asked for is an exact match at index 50, and is not found. *)
Lemma resolve_examines_first_50_only_witness :
  (∀ i a, lateFiles !! i = Some a →
          matchesSomeStage (normalizePath (str "a.js")) a = true → (50 ≤ i)%nat)
  ∧ lateFiles !! 50%nat = Some (projectFile "a.js")
  ∧ exactMatch (normalizePath (str "a.js")) (projectFile "a.js") = true
  ∧ findTargetFileForEdit lateFiles (str "a.js") = None.
Proof.
  assert (∀ i a, lateFiles !! i = Some a →
                 matchesSomeStage (normalizePath (str "a.js")) a = true → (50 ≤ i)%nat)
    as Hlate.
  { apply index_bound_of_take. vm_compute. reflexivity. }
  split_and!; [exact Hlate|reflexivity|reflexivity|].
  exact (resolve_examines_first_50_only lateFiles (str "a.js") Hlate).
Defined.

End ReconcilerProps.

(** ** Applying operations *)

Module PatchProps.

Import PatchEngine Notions Samples JsFacts.

Lemma applySearchReplace_nonempty text ops :
  text ≠ [] → ops ≠ [] →
  applySearchReplace (Some text) (Some ops) =
  let st := fold_left applyOperation (rev (indexOperations (take 20 ops)))
              {| Loop.result := text; Loop.appliedCount := 0; Loop.failedOps := [] |} in
  {| result := Some (Loop.result st);
     appliedCount := Loop.appliedCount st;
     failedOps := Loop.failedOps st |}.
Proof. by destruct text, ops. Qed.

Lemma earlier_applySearchReplace_nonempty text ops :
  text ≠ [] → ops ≠ [] →
  Earlier.applySearchReplace (Some text) (Some ops) =
  let st := fold_left (Earlier.applyOperation text) (rev (indexOperations (take 20 ops)))
              {| Earlier.Loop.result := text; Earlier.Loop.appliedCount := 0;
                 Earlier.Loop.failedOps := [] |} in
  {| Earlier.result := Some (Earlier.Loop.result st);
     Earlier.appliedCount := Earlier.Loop.appliedCount st;
     Earlier.failedOps := Earlier.Loop.failedOps st |}.
Proof. by destruct text, ops. Qed.

Lemma sorted_single (o : Operation) :
  rev (indexOperations (take 20 [o])) = [ {| op := o; originalIndex := 0 |} ].
Proof. reflexivity. Qed.

Lemma sorted_pair (o1 o2 : Operation) :
  rev (indexOperations (take 20 [o1; o2]))
  = [ {| op := o2; originalIndex := 1 |}; {| op := o1; originalIndex := 0 |} ].
Proof. reflexivity. Qed.

(** *** The exact stage *)

(** An operation whose search text occurs in the content replaces its last
    occurrence and is counted as applied. *)
Lemma applyOperation_exact st o i :
  last (occurrences (Loop.result st) (search (op o))) = Some i →
  applyOperation st o =
  {| Loop.result := take i (Loop.result st) ++ replace (op o)
                    ++ drop (i + length (search (op o))) (Loop.result st);
     Loop.appliedCount := S (Loop.appliedCount st);
     Loop.failedOps := Loop.failedOps st |}.
Proof.
  intros Hi. unfold applyOperation. rewrite (lastIndexOf_Some _ _ _ Hi).
  assert ((Z.of_nat i =? -1) = false) as Hfound by (apply Z.eqb_neq; lia).
  rewrite Hfound. cbn beta iota zeta. by rewrite Hfound, substring_0, substringFrom_add.
Qed.

Lemma earlier_applyOperation_exact original st o i :
  last (occurrences (Earlier.Loop.result st) (search (op o))) = Some i →
  Earlier.applyOperation original st o =
  {| Earlier.Loop.result :=
       take i (Earlier.Loop.result st) ++ replace (op o)
       ++ drop (i + length (search (op o))) (Earlier.Loop.result st);
     Earlier.Loop.appliedCount := S (Earlier.Loop.appliedCount st);
     Earlier.Loop.failedOps := Earlier.Loop.failedOps st |}.
Proof.
  intros Hi. unfold Earlier.applyOperation. rewrite (lastIndexOf_Some _ _ _ Hi).
  assert ((Z.of_nat i =? -1) = false) as Hfound by (apply Z.eqb_neq; lia).
  rewrite Hfound. cbn [negb]. by rewrite substring_0, substringFrom_add.
Qed.

(** C1, amended: for a non-empty text and a single operation whose search
    text occurs in it, [applySearchReplace] replaces the last occurrence,
    the one after the prefix [pre], and reports one applied operation and
    no failure; so do both revisions.  When the search text occurs exactly
    once, [occurrences] is the one-element list and the hypothesis on the
    last occurrence holds. *)
Theorem applySearchReplace_replaces_last_occurrence
    (text pre post : jsstring) (o : Operation) :
  text ≠ [] →
  text = pre ++ search o ++ post →
  last (occurrences text (search o)) = Some (length pre) →
  applySearchReplace (Some text) (Some [o])
  = {| result := Some (pre ++ replace o ++ post); appliedCount := 1; failedOps := [] |}
  ∧ Earlier.applySearchReplace (Some text) (Some [o])
    = {| Earlier.result := Some (pre ++ replace o ++ post);
         Earlier.appliedCount := 1; Earlier.failedOps := [] |}.
Proof.
  intros Hne Ht Hlast.
  assert (take (length pre) text = pre) as Htake.
  { rewrite Ht. apply take_app_length. }
  assert (drop (length pre + length (search o)) text = post) as Hdrop.
  { rewrite Ht, (assoc_L (++)). apply drop_app_length'. by rewrite length_app. }
  split.
  - rewrite applySearchReplace_nonempty by done. cbv zeta. rewrite sorted_single.
    cbn [fold_left].
    rewrite (applyOperation_exact
               {| Loop.result := text; Loop.appliedCount := 0; Loop.failedOps := [] |}
               _ (length pre)) by exact Hlast.
    cbn [Loop.result Loop.appliedCount Loop.failedOps op]. by rewrite Htake, Hdrop.
  - rewrite earlier_applySearchReplace_nonempty by done. cbv zeta. rewrite sorted_single.
    cbn [fold_left].
    rewrite (earlier_applyOperation_exact text
               {| Earlier.Loop.result := text; Earlier.Loop.appliedCount := 0;
                  Earlier.Loop.failedOps := [] |} _ (length pre)) by exact Hlast.
    cbn [Earlier.Loop.result Earlier.Loop.appliedCount Earlier.Loop.failedOps op].
    by rewrite Htake, Hdrop.
Qed.

Lemma applySearchReplace_replaces_last_occurrence_witness :
  str "abcabc" ≠ []
  ∧ str "abcabc" = str "abca" ++ search (operation (str "b") (str "X")) ++ str "c"
  ∧ last (occurrences (str "abcabc") (search (operation (str "b") (str "X"))))
    = Some (length (str "abca"))
  ∧ applySearchReplace (Some (str "abcabc")) (Some [operation (str "b") (str "X")])
    = {| result := Some (str "abca" ++ str "X" ++ str "c");
         appliedCount := 1; failedOps := [] |}.
Proof.
  split_and!; [done|reflexivity|reflexivity|].
  apply (applySearchReplace_replaces_last_occurrence
           (str "abcabc") (str "abca") (str "c") (operation (str "b") (str "X")));
    [done|reflexivity|reflexivity].
Defined.

(** The case of the specification: one occurrence only. *)
Lemma applySearchReplace_single_occurrence (text pre post : jsstring) (o : Operation) :
  text ≠ [] →
  text = pre ++ search o ++ post →
  occurrences text (search o) = [length pre] →
  applySearchReplace (Some text) (Some [o])
  = {| result := Some (pre ++ replace o ++ post); appliedCount := 1; failedOps := [] |}.
Proof.
  intros Hne Ht Hocc.
  apply applySearchReplace_replaces_last_occurrence; [done..|]. by rewrite Hocc.
Qed.

(** C1 as stated fails for the empty text: the empty search text occurs
    in it exactly once, at index 0, and nothing is appliedCount. *)
Lemma applySearchReplace_empty_text_counterexample :
  occurrences [] [] = [0%nat]
  ∧ applySearchReplace (Some []) (Some [operation [] (str "x")])
    = {| result := Some []; appliedCount := 0; failedOps := [] |}
  ∧ Earlier.applySearchReplace (Some []) (Some [operation [] (str "x")])
    = {| Earlier.result := Some []; Earlier.appliedCount := 0; Earlier.failedOps := [] |}.
Proof. by split_and!. Qed.

(** C5, amended: two operations whose search texts have their last
    occurrences in the text side by side without overlap, each still the
    last occurrence of its search text once the other operation has been
    appliedCount, give the same final text in either order: the text with both
    occurrences replaced.  So do both revisions. *)
Theorem applySearchReplace_order_independent
    (text p m q : jsstring) (o1 o2 : Operation) :
  text = p ++ search o1 ++ m ++ search o2 ++ q →
  last (occurrences text (search o1)) = Some (length p) →
  last (occurrences text (search o2))
  = Some (length p + length (search o1) + length m)%nat →
  last (occurrences (p ++ search o1 ++ m ++ replace o2 ++ q) (search o1))
  = Some (length p) →
  last (occurrences (p ++ replace o1 ++ m ++ search o2 ++ q) (search o2))
  = Some (length p + length (replace o1) + length m)%nat →
  (result (applySearchReplace (Some text) (Some [o1; o2]))
   = result (applySearchReplace (Some text) (Some [o2; o1]))
   ∧ Earlier.result (Earlier.applySearchReplace (Some text) (Some [o1; o2]))
     = Earlier.result (Earlier.applySearchReplace (Some text) (Some [o2; o1])))
  ∧ (text ≠ [] →
     result (applySearchReplace (Some text) (Some [o1; o2]))
     = Some (p ++ replace o1 ++ m ++ replace o2 ++ q)
     ∧ Earlier.result (Earlier.applySearchReplace (Some text) (Some [o1; o2]))
       = Some (p ++ replace o1 ++ m ++ replace o2 ++ q)).
Proof.
  intros Ht H1 H2 H3 H4.
  destruct (decide (text = [])) as [->|Hne]; [by split|].
  assert (∀ a b : jsstring,
            take (length p + length a + length m) (p ++ a ++ m ++ b) = p ++ a ++ m)
    as Htake.
  { intros a b. rewrite !(assoc_L (++)). apply take_app_length'.
    rewrite !length_app. lia. }
  assert (∀ a b c : jsstring,
            drop (length p + length a + length m + length b) (p ++ a ++ m ++ b ++ c) = c)
    as Hdrop.
  { intros a b c. rewrite !(assoc_L (++)). apply drop_app_length'.
    rewrite !length_app. lia. }
  assert (∀ a b : jsstring, drop (length p + length a) (p ++ a ++ b) = b) as Hdrop'.
  { intros a b. rewrite !(assoc_L (++)). apply drop_app_length'.
    rewrite !length_app. lia. }
  assert (result (applySearchReplace (Some text) (Some [o1; o2]))
          = Some (p ++ replace o1 ++ m ++ replace o2 ++ q)) as E12.
  { rewrite applySearchReplace_nonempty by done. cbv zeta.
    rewrite sorted_pair. cbn [fold_left result].
    rewrite (applyOperation_exact
               {| Loop.result := text; Loop.appliedCount := 0; Loop.failedOps := [] |}
               _ (length p + length (search o1) + length m)%nat) by exact H2.
    cbn [Loop.result op]. rewrite Ht at 1 2. rewrite Htake, Hdrop, <- !(assoc_L (++)).
    rewrite (applyOperation_exact _ _ (length p)) by exact H3.
    cbn [Loop.result op]. by rewrite take_app_length, Hdrop'. }
  assert (result (applySearchReplace (Some text) (Some [o2; o1]))
          = Some (p ++ replace o1 ++ m ++ replace o2 ++ q)) as E21.
  { rewrite applySearchReplace_nonempty by done. cbv zeta.
    rewrite sorted_pair. cbn [fold_left result].
    rewrite (applyOperation_exact
               {| Loop.result := text; Loop.appliedCount := 0; Loop.failedOps := [] |}
               _ (length p)) by exact H1.
    cbn [Loop.result op]. rewrite Ht at 1 2. rewrite take_app_length, Hdrop'.
    rewrite (applyOperation_exact _ _ (length p + length (replace o1) + length m)%nat)
      by exact H4.
    cbn [Loop.result op]. by rewrite Htake, Hdrop, <- !(assoc_L (++)). }
  assert (Earlier.result (Earlier.applySearchReplace (Some text) (Some [o1; o2]))
          = Some (p ++ replace o1 ++ m ++ replace o2 ++ q)) as F12.
  { rewrite earlier_applySearchReplace_nonempty by done. cbv zeta.
    rewrite sorted_pair. cbn [fold_left Earlier.result].
    rewrite (earlier_applyOperation_exact text
               {| Earlier.Loop.result := text; Earlier.Loop.appliedCount := 0;
                  Earlier.Loop.failedOps := [] |}
               _ (length p + length (search o1) + length m)%nat) by exact H2.
    cbn [Earlier.Loop.result op]. rewrite Ht at 2 3.
    rewrite Htake, Hdrop, <- !(assoc_L (++)).
    rewrite (earlier_applyOperation_exact _ _ _ (length p)) by exact H3.
    cbn [Earlier.Loop.result op]. by rewrite take_app_length, Hdrop'. }
  assert (Earlier.result (Earlier.applySearchReplace (Some text) (Some [o2; o1]))
          = Some (p ++ replace o1 ++ m ++ replace o2 ++ q)) as F21.
  { rewrite earlier_applySearchReplace_nonempty by done. cbv zeta.
    rewrite sorted_pair. cbn [fold_left Earlier.result].
    rewrite (earlier_applyOperation_exact text
               {| Earlier.Loop.result := text; Earlier.Loop.appliedCount := 0;
                  Earlier.Loop.failedOps := [] |} _ (length p)) by exact H1.
    cbn [Earlier.Loop.result op]. rewrite Ht at 2 3. rewrite take_app_length, Hdrop'.
    rewrite (earlier_applyOperation_exact _ _ _
               (length p + length (replace o1) + length m)%nat) by exact H4.
    cbn [Earlier.Loop.result op]. by rewrite Htake, Hdrop, <- !(assoc_L (++)). }
  split; [by rewrite E12, E21, F12, F21|done].
Qed.

Lemma applySearchReplace_order_independent_witness :
  greeting = [] ++ search helloToBye ++ str " wide " ++ search worldToMoon ++ []
  ∧ last (occurrences greeting (search helloToBye)) = Some 0%nat
  ∧ last (occurrences greeting (search worldToMoon)) = Some 11%nat
  ∧ last (occurrences (str "hello wide moon") (search helloToBye)) = Some 0%nat
  ∧ last (occurrences (str "bye wide world") (search worldToMoon)) = Some 9%nat
  ∧ result (applySearchReplace (Some greeting) (Some [helloToBye; worldToMoon]))
    = result (applySearchReplace (Some greeting) (Some [worldToMoon; helloToBye]))
  ∧ result (applySearchReplace (Some greeting) (Some [helloToBye; worldToMoon]))
    = Some (str "bye wide moon").
Proof.
  pose proof (applySearchReplace_order_independent
                greeting [] (str " wide ") [] helloToBye worldToMoon
                eq_refl eq_refl eq_refl eq_refl eq_refl) as [[Hsame _] Hboth].
  split_and!; [reflexivity..|exact Hsame|].
  by apply Hboth.
Defined.

(** C5 as stated fails: [a] and [b] occur in [ab] without overlap, and
    the two orders of the operations give [caa] and [aac], because the
    replacement of one operation contains the search text of the other. *)
Lemma applySearchReplace_order_counterexample :
  str "ab" = [] ++ search aToC ++ [] ++ search bToAa ++ []
  ∧ result (applySearchReplace (Some (str "ab")) (Some [bToAa; aToC]))
    = Some (str "caa")
  ∧ result (applySearchReplace (Some (str "ab")) (Some [aToC; bToAa]))
    = Some (str "aac")
  ∧ Earlier.result (Earlier.applySearchReplace (Some (str "ab")) (Some [bToAa; aToC]))
    = Some (str "caa")
  ∧ Earlier.result (Earlier.applySearchReplace (Some (str "ab")) (Some [aToC; bToAa]))
    = Some (str "aac").
Proof. by split_and!. Qed.

(** *** Counting *)

(** Every turn of the loop either counts the operation as applied or
    records one failure under its number. *)
Lemma applyOperation_cases st o :
  (Loop.appliedCount (applyOperation st o) = S (Loop.appliedCount st)
   ∧ Loop.failedOps (applyOperation st o) = Loop.failedOps st)
  ∨ (Loop.appliedCount (applyOperation st o) = Loop.appliedCount st
     ∧ ∃ f, Loop.failedOps (applyOperation st o) = Loop.failedOps st ++ [f]
            ∧ Failure.index f = number o).
Proof.
  unfold applyOperation.
  destruct (lastIndexOf (Loop.result st) (search (op o)) =? -1) eqn:E.
  - destruct (fuzzyReplace _ _ _ _); simpl.
    + by left.
    + rewrite E. right. split; [done|]. eexists. by split.
  - simpl. rewrite E. by left.
Qed.

Lemma earlier_applyOperation_cases original st o :
  (Earlier.Loop.appliedCount (Earlier.applyOperation original st o)
   = S (Earlier.Loop.appliedCount st)
   ∧ Earlier.Loop.failedOps (Earlier.applyOperation original st o)
     = Earlier.Loop.failedOps st)
  ∨ (Earlier.Loop.appliedCount (Earlier.applyOperation original st o)
     = Earlier.Loop.appliedCount st
     ∧ ∃ f, Earlier.Loop.failedOps (Earlier.applyOperation original st o)
            = Earlier.Loop.failedOps st ++ [f]
            ∧ Earlier.Failure.index f = number o).
Proof.
  unfold Earlier.applyOperation. destruct (negb _); simpl; [by left|].
  right. split; [done|]. eexists. by split.
Qed.

(** The tally after the loop: the failures recorded, in the order of the
    turns, belong to different operations, and every other operation was
    counted as applied. *)
Lemma fold_applyOperation_tally os st :
  let st' := fold_left applyOperation os st in
  ∃ fs, Loop.failedOps st' = Loop.failedOps st ++ fs
        ∧ (Loop.appliedCount st' + length fs = Loop.appliedCount st + length os)%nat
        ∧ sublist (map Failure.index fs) (map number os).
Proof.
  revert st. induction os as [|o os IH]; intros st; simpl.
  - exists []. rewrite app_nil_r. split_and!; [done|simpl; lia|constructor].
  - destruct (IH (applyOperation st o)) as (fs & Hf & Hc & Hs). simpl in *.
    destruct (applyOperation_cases st o) as [[Ha Hfo]|[Ha (f & Hfo & Hi)]].
    + exists fs. rewrite Hf, Hfo. split_and!; [done|lia|by apply sublist_cons].
    + exists (f :: fs). rewrite Hf, Hfo, <- (assoc_L (++)).
      split_and!; [done|simpl; lia|].
      simpl. rewrite Hi. by apply sublist_skip.
Qed.

Lemma earlier_fold_applyOperation_tally original os st :
  let st' := fold_left (Earlier.applyOperation original) os st in
  ∃ fs, Earlier.Loop.failedOps st' = Earlier.Loop.failedOps st ++ fs
        ∧ (Earlier.Loop.appliedCount st' + length fs
           = Earlier.Loop.appliedCount st + length os)%nat
        ∧ sublist (map Earlier.Failure.index fs) (map number os).
Proof.
  revert st. induction os as [|o os IH]; intros st; simpl.
  - exists []. rewrite app_nil_r. split_and!; [done|simpl; lia|constructor].
  - destruct (IH (Earlier.applyOperation original st o)) as (fs & Hf & Hc & Hs).
    simpl in *.
    destruct (earlier_applyOperation_cases original st o)
      as [[Ha Hfo]|[Ha (f & Hfo & Hi)]].
    + exists fs. rewrite Hf, Hfo. split_and!; [done|lia|by apply sublist_cons].
    + exists (f :: fs). rewrite Hf, Hfo, <- (assoc_L (++)).
      split_and!; [done|simpl; lia|].
      simpl. rewrite Hi. by apply sublist_skip.
Qed.

Lemma imap_numbers (ops : list Operation) k :
  map number (imap (λ index o, {| op := o; originalIndex := k + index |}) ops)
  = seq (S k) (length ops).
Proof.
  revert k. induction ops as [|o ops IH]; intros k; [done|].
  simpl. unfold number at 1. simpl. f_equal; [lia|].
  rewrite <- (IH (S k)). f_equal. apply imap_ext. intros i x _. simpl. f_equal. lia.
Qed.

Lemma sorted_length (ops : list Operation) :
  length (rev (indexOperations (take 20 ops))) = Nat.min 20 (length ops).
Proof. unfold indexOperations. by rewrite length_rev, length_imap, length_take. Qed.

(** The operations are processed from number [min 20 n] down to number 1. *)
Lemma sorted_numbers (ops : list Operation) :
  map number (rev (indexOperations (take 20 ops)))
  = rev (seq 1 (Nat.min 20 (length ops))).
Proof.
  rewrite map_rev. f_equal. unfold indexOperations.
  rewrite <- length_take. apply (imap_numbers _ 0).
Qed.

(** C8: [applySearchReplace] is a total function: every call returns an
    object.  With a missing or empty original, or a missing or empty list
    of operations, the object holds the original as it is, the count 0 and
    no failure.  Otherwise it holds a text, and every operation processed
    (the first 20 at most) is either counted in [appliedCount] or recorded
    once in [failedOps] under its number, so that the two add up to the
    number of operations processed.  So do both revisions. *)
Theorem applySearchReplace_accounts_for_every_operation
    (originalContent : option jsstring) (operations : option (list Operation)) :
  let r := applySearchReplace originalContent operations in
  let r' := Earlier.applySearchReplace originalContent operations in
  match originalContent, operations with
  | Some (c :: cs), Some (o :: os) =>
      let processed := Nat.min 20 (length (o :: os)) in
      (∃ text, result r = Some text)
      ∧ (appliedCount r + length (failedOps r) = processed)%nat
      ∧ sublist (map Failure.index (failedOps r)) (rev (seq 1 processed))
      ∧ (∃ text, Earlier.result r' = Some text)
      ∧ (Earlier.appliedCount r' + length (Earlier.failedOps r') = processed)%nat
      ∧ sublist (map Earlier.Failure.index (Earlier.failedOps r'))
          (rev (seq 1 processed))
  | _, _ =>
      r = {| result := originalContent; appliedCount := 0; failedOps := [] |}
      ∧ r' = {| Earlier.result := originalContent; Earlier.appliedCount := 0;
                Earlier.failedOps := [] |}
  end.
Proof.
  destruct originalContent as [[|c cs]|], operations as [[|o os]|]; try by split.
  cbv zeta.
  rewrite applySearchReplace_nonempty, earlier_applySearchReplace_nonempty by done.
  cbv zeta. cbn [result appliedCount failedOps Earlier.result Earlier.appliedCount
                 Earlier.failedOps].
  match goal with |- context [fold_left applyOperation ?l ?i] =>
    destruct (fold_applyOperation_tally l i) as (fs & Hf & Hc & Hs) end.
  match goal with |- context [fold_left (Earlier.applyOperation ?x) ?l ?i] =>
    destruct (earlier_fold_applyOperation_tally x l i) as (fs' & Hf' & Hc' & Hs') end.
  cbv zeta in Hf, Hc, Hf', Hc'. rewrite Hf, Hf'.
  rewrite sorted_numbers in Hs, Hs'. rewrite sorted_length in Hc, Hc'.
  cbn [Loop.appliedCount Loop.failedOps Earlier.Loop.appliedCount Earlier.Loop.failedOps
       app] in *.
  split_and!; [eauto|lia|done|eauto|lia|done].
Qed.

(** *** The line-wise stage *)

Lemma normalizeForComparison_length s :
  length (normalizeForComparison s) = length (split LF s).
Proof. unfold normalizeForComparison. apply length_map. Qed.

Lemma compareLines_spec searchLines resultLines :
  (fst (compareLines searchLines resultLines) = true
   ∧ length (snd (compareLines searchLines resultLines)) = length searchLines)
  ↔ runMatches searchLines resultLines 0.
Proof.
  unfold runMatches. rewrite drop_0.
  revert resultLines. induction searchLines as [|s sl IH]; intros [|r rl]; simpl.
  - split; [constructor|done].
  - split; [constructor|done].
  - split; [by intros [_ ?]|]. intros H. inversion H.
  - destruct (PathSanitizer.strEq (trim r) (content s)) eqn:E.
    + apply strEq_true in E. specialize (IH rl).
      destruct (compareLines sl rl) as [found pm]. simpl in *. split.
      * intros [Hf [= Hl]]. constructor; [done|]. by apply IH.
      * intros H. inversion H; subst. split; [|f_equal]; by apply IH.
    + split; [by intros [? _]|]. intros H. inversion H as [|? ? ? ? Heq]; subst.
      apply strEq_true in Heq. congruence.
Qed.

Lemma runMatches_drop searchLines resultLines start :
  runMatches searchLines resultLines start
  ↔ runMatches searchLines (drop start resultLines) 0.
Proof. unfold runMatches. by rewrite drop_0. Qed.

Lemma runMatches_in_range searchLines resultLines start :
  searchLines ≠ [] → runMatches searchLines resultLines start →
  (start < length resultLines)%nat.
Proof.
  intros Hne H. apply Forall2_length in H.
  rewrite length_take, length_drop in H.
  assert (0 < length searchLines)%nat by (destruct searchLines; [done|simpl; lia]).
  lia.
Qed.

(** The scan returns the text spliced at the last start index below [n]
    at which the run of lines matches, and nothing if there is none. *)
Lemma fuzzyReplace_spec searchLines resultLines replace n :
  match fuzzyReplace searchLines resultLines replace n with
  | Some r =>
      ∃ start, (start < n)%nat
        ∧ runMatches searchLines resultLines start
        ∧ (∀ later, (start < later < n)%nat → ¬ runMatches searchLines resultLines later)
        ∧ r = spliced resultLines start (length searchLines) replace
  | None => ∀ start, (start < n)%nat → ¬ runMatches searchLines resultLines start
  end.
Proof.
  induction n as [|n IH]; simpl; [intros; lia|].
  pose proof (compareLines_spec searchLines (drop n resultLines)) as Hc.
  rewrite <- runMatches_drop in Hc.
  destruct (compareLines searchLines (drop n resultLines)) as [found pm].
  simpl in Hc.
  destruct (found && (length pm =? length searchLines)%nat) eqn:E.
  - apply andb_true_iff in E as [-> E%Nat.eqb_eq].
    exists n. split_and!; [lia|by apply Hc|intros; lia|done].
  - assert (¬ runMatches searchLines resultLines n) as Hn.
    { intros [-> Hl]%Hc. rewrite Hl, Nat.eqb_refl in E. done. }
    destruct (fuzzyReplace searchLines resultLines replace n) as [r|].
    + destruct IH as (start & ? & ? & Hlater & ->).
      exists start. split_and!; [lia|done| |done].
      intros later Hl. destruct (decide (later = n)) as [->|]; [done|].
      apply Hlater. lia.
    + intros start Hs. destruct (decide (start = n)) as [->|]; [done|].
      apply IH. lia.
Qed.

(** When the search text has no exact occurrence and some run of lines
    matches it after trimming, the operation is appliedCount at the last such
    run and is not reported as failed. *)
Lemma applyOperation_fuzzy st o start :
  let searchLines := normalizeForComparison (search (op o)) in
  let resultLines := split LF (Loop.result st) in
  occurrences (Loop.result st) (search (op o)) = [] →
  runMatches searchLines resultLines start →
  ∃ chosen, (start ≤ chosen)%nat
    ∧ runMatches searchLines resultLines chosen
    ∧ (∀ later, (chosen < later)%nat → ¬ runMatches searchLines resultLines later)
    ∧ applyOperation st o
      = {| Loop.result := spliced resultLines chosen (length searchLines) (replace (op o));
           Loop.appliedCount := S (Loop.appliedCount st);
           Loop.failedOps := Loop.failedOps st |}.
Proof.
  intros searchLines resultLines Hnone Hrun.
  assert (searchLines ≠ []) as Hne.
  { intros H%(f_equal length). unfold searchLines in H.
    rewrite normalizeForComparison_length in H.
    pose proof (split_nonempty LF (search (op o))).
    by destruct (split LF (search (op o))). }
  unfold applyOperation. apply lastIndexOf_None in Hnone. rewrite Hnone.
  change (-1 =? -1) with true. cbn beta iota.
  fold searchLines resultLines.
  pose proof (fuzzyReplace_spec searchLines resultLines (replace (op o))
                (length resultLines)) as Hspec.
  destruct (fuzzyReplace searchLines resultLines (replace (op o)) (length resultLines))
    as [r|].
  - destruct Hspec as (chosen & Hlt & Hm & Hlater & ->). exists chosen.
    split_and!; [|done| |done].
    + destruct (decide (start ≤ chosen)%nat); [done|]. exfalso.
      apply (Hlater start); [|done]. split; [lia|].
      by apply (runMatches_in_range searchLines).
    + intros later Hl Hr. apply (Hlater later); [|done]. split; [done|].
      by apply (runMatches_in_range searchLines).
  - exfalso. apply (Hspec start); [|done]. by apply (runMatches_in_range searchLines).
Qed.

Lemma truthy_join ls : ls ≠ [] → ls ≠ [[]] → truthy (join [LF] ls) = true.
Proof.
  destruct ls as [|x [|y ls]]; [done| |].
  - simpl. by destruct x.
  - intros _ _. rewrite join_cons by done. by destruct x.
Qed.

Lemma splice_tail replace after :
  after ≠ [[]] →
  replace ++ (if truthy (join [LF] after) then [LF] else []) ++ join [LF] after
  = join [LF] (replace :: after).
Proof.
  intros H. destruct after as [|b0 b].
  - simpl. by rewrite app_nil_r.
  - rewrite truthy_join by done. by rewrite (join_cons _ replace).
Qed.

Lemma splice_head before rest :
  before ≠ [[]] → rest ≠ [] →
  join [LF] before ++ (if truthy (join [LF] before) then [LF] else []) ++ join [LF] rest
  = join [LF] (before ++ rest).
Proof.
  intros H Hr. destruct before as [|a0 a]; [done|].
  rewrite truthy_join by done. by rewrite join_app.
Qed.

(** Unless the lines before the run, or the lines after it, are exactly one
    empty line, the spliced text is the content with the run of lines
    replaced by the replacement text. *)
Lemma spliced_join resultLines start count replace :
  take start resultLines ≠ [[]] →
  drop (start + count) resultLines ≠ [[]] →
  spliced resultLines start count replace
  = join [LF] (take start resultLines ++ [replace] ++ drop (start + count) resultLines).
Proof.
  intros Ha Hb. unfold spliced. cbv zeta.
  rewrite splice_tail by done. by rewrite splice_head.
Qed.

(** The scenario of the specification.  The search text occurs in the
    content as it is, at index 2, so the exact stage applies it. *)
Example indented_line_scenario :
  lastIndexOf (lines ["  print('hi')"; ""]) (str "print('hi')") = 2
  ∧ applySearchReplace (Some (lines ["  print('hi')"; ""]))
      (Some [operation (str "print('hi')") (str "print('ho')")])
    = {| result := Some (lines ["  print('ho')"; ""]); appliedCount := 1; failedOps := [] |}.
Proof. by split. Qed.

(** C2: the content is two indented lines and a final line break; the
    search text is the two lines without the indentation.  It has no exact
    occurrence, the run of lines at index 0 matches it after trimming, and
    the operation is counted as applied; but the new content is the
    replacement alone, without the line break that followed the run.  The
    content with the run replaced is the replacement and the line break. *)
Theorem fuzzy_replace_drops_final_line_break :
  occurrences indentedPair (search plainPairToX) = []
  ∧ runMatches (normalizeForComparison (search plainPairToX)) (split LF indentedPair) 0
  ∧ applySearchReplace (Some indentedPair) (Some [plainPairToX])
    = {| result := Some (str "X"); appliedCount := 1; failedOps := [] |}
  ∧ join [LF] (take 0 (split LF indentedPair) ++ [replace plainPairToX]
               ++ drop 2 (split LF indentedPair))
    = str "X" ++ [LF].
Proof.
  split_and!; [reflexivity| |reflexivity|reflexivity].
  unfold runMatches. vm_compute. by repeat constructor.
Qed.

End PatchProps.

(** ** Parsing *)

Module ParserProps.

Import Regex ResponseParser Notions Samples RegexProps.

(** *** The loops over the file patterns *)

Lemma replaceStr_length s pat : (length (replaceStr s pat []) ≤ length s)%nat.
Proof.
  unfold replaceStr. destruct (indexOf s pat =? -1); [done|].
  rewrite !length_app, length_take, length_drop. simpl. lia.
Qed.

Lemma bind_ext {A B} (m : M A) (f g : A → M B) t :
  (∀ a t', f a t' = g a t') → bind m f t = bind m g t.
Proof. intros H. unfold bind. destruct (m t) as [[e|a] t']; [done|apply H]. Qed.

Lemma patterns_start_with_char :
  Forall (λ r, startsWithChar r = true) (filePatterns ++ inlineFilePatterns).
Proof. by repeat constructor. Qed.

(** One turn of a pattern loop, on both sides of the equation: the match
    lies in the content after [lastIndex] and is not empty, so the turns
    that follow need less fuel. *)
Ltac loop_turn Hs IH :=
  match goal with
  | |- context [exec true ?pattern ?rc ?li] =>
      let E := fresh "E" in
      destruct (exec true pattern rc li) as [[?m|] ?li'] eqn:E; [|done];
      apply exec_bounds in E as (-> & ? & ? & ? & E); specialize (E Hs);
      pose proof (replaceStr_length rc (matched m));
      repeat match goal with
             | |- context [if ?b then _ else _] => destruct b; try done
             end;
      try (apply bind_ext; intros ? ?);
      apply IH; lia
  end.

(** The loop of a file pattern gives the same result for every amount of
    fuel above the number of characters from [lastIndex] to the end of the
    content: the fuel [forPatterns] passes is never used up. *)
Lemma filePatternLoop_fuel h pattern :
  startsWithChar pattern = true →
  ∀ fuel fuel' lastIndex regularContent artifacts t,
    (length regularContent - lastIndex < fuel)%nat →
    (length regularContent - lastIndex < fuel')%nat →
    filePatternLoop h fuel pattern lastIndex regularContent artifacts t
    = filePatternLoop h fuel' pattern lastIndex regularContent artifacts t.
Proof.
  intros Hs. induction fuel as [|fuel IH]; intros fuel' li rc arts t Hf Hf'; [lia|].
  destruct fuel' as [|fuel']; [lia|]. simpl. loop_turn Hs IH.
Qed.

Lemma inlinePatternLoop_fuel h pattern :
  startsWithChar pattern = true →
  ∀ fuel fuel' lastIndex regularContent artifacts t,
    (length regularContent - lastIndex < fuel)%nat →
    (length regularContent - lastIndex < fuel')%nat →
    inlinePatternLoop h fuel pattern lastIndex regularContent artifacts t
    = inlinePatternLoop h fuel' pattern lastIndex regularContent artifacts t.
Proof.
  intros Hs. induction fuel as [|fuel IH]; intros fuel' li rc arts t Hf Hf'; [lia|].
  destruct fuel' as [|fuel']; [lia|]. simpl. loop_turn Hs IH.
Qed.

Lemma earlier_filePatternLoop_fuel h pattern :
  startsWithChar pattern = true →
  ∀ fuel fuel' lastIndex regularContent artifacts t,
    (length regularContent - lastIndex < fuel)%nat →
    (length regularContent - lastIndex < fuel')%nat →
    Earlier.filePatternLoop h fuel pattern lastIndex regularContent artifacts t
    = Earlier.filePatternLoop h fuel' pattern lastIndex regularContent artifacts t.
Proof.
  intros Hs. induction fuel as [|fuel IH]; intros fuel' li rc arts t Hf Hf'; [lia|].
  destruct fuel' as [|fuel']; [lia|]. simpl. loop_turn Hs IH.
Qed.

(** *** Edit groups *)

Lemma bind_inr {A B} (m : M A) (f : A → M B) t b t' :
  bind m f t = (inr b, t') → ∃ a t1, m t = (inr a, t1) ∧ f a t1 = (inr b, t').
Proof.
  unfold bind. destruct (m t) as [[e|a] t1]; [done|]. eauto.
Qed.

Lemma ret_inr {A} (a b : A) t t' : ret a t = (inr b, t') → a = b ∧ t = t'.
Proof. by intros [= -> ->]. Qed.

Lemma searchReplaceLoop_length n content lastIndex :
  (length (searchReplaceLoop n content lastIndex) ≤ n)%nat.
Proof.
  revert lastIndex. induction n as [|n IH]; intros lastIndex; simpl.
  - by destruct (exec _ _ _ _) as [[m|] ?].
  - destruct (exec _ _ _ _) as [[m|] lastIndex']; simpl; [|lia].
    specialize (IH lastIndex'). lia.
Qed.

(** At most 10 operations come out of one edit block. *)
Lemma parseSearchReplace_length content :
  (length (parseSearchReplace content) ≤ 10)%nat.
Proof.
  unfold parseSearchReplace. destruct content; try (cbn [length]; lia).
  destruct (_ || _); [cbn [length]; lia|]. apply searchReplaceLoop_length.
Qed.

(** At most 5 edit blocks are taken from a message. *)
Lemma editBlockLoop_length n limitedMessage lastIndex :
  (length (editBlockLoop n limitedMessage lastIndex) ≤ n)%nat.
Proof.
  revert lastIndex. induction n as [|n IH]; intros lastIndex; simpl.
  - by destruct (exec _ _ _ _) as [[m|] ?].
  - destruct (exec _ _ _ _) as [[m|] lastIndex']; simpl; [|lia].
    specialize (IH lastIndex'). lia.
Qed.

Lemma operationsBounded_mono b b' m :
  (b ≤ b')%nat → operationsBounded b m → operationsBounded b' m.
Proof.
  intros Hb H. eapply Forall_impl; [exact H|]. intros kv Hkv. simpl in *. lia.
Qed.

Lemma mapAppend_bounded key ops b m :
  (length ops ≤ 10)%nat → operationsBounded b m →
  operationsBounded (b + 10) (mapAppend key ops m).
Proof.
  intros Hops. induction 1 as [|[k v] m Hv Hm IH]; simpl; [constructor|].
  destruct (PathSanitizer.strEq k key).
  - constructor; [simpl; rewrite length_app; simpl in Hv; lia|].
    by apply (operationsBounded_mono b); [lia|].
  - constructor; [simpl in *; lia|done].
Qed.

Section EditGroups.

Context (h : Host).

(** A block adds at most 10 operations to any group. *)
Lemma processEditBlock_bounded regularContent m block t st' t' b :
  operationsBounded b m →
  processEditBlock h (regularContent, m) block t = (inr st', t') →
  operationsBounded (b + 10) (snd st').
Proof.
  intros Hb. unfold processEditBlock.
  destruct (locateTarget (Block.content block)) as [targetFile editContent].
  pose proof (parseSearchReplace_length (VStr editContent)) as Hlen.
  destruct (parseSearchReplace (VStr editContent)) as [|o os] eqn:Eops.
  { intros [<- _]%ret_inr. simpl. by apply (operationsBounded_mono b); [lia|]. }
  match goal with |- context [mapGet ?k m] => generalize k end. intros finalPath.
  destruct (mapGet finalPath m).
  { intros [<- _]%ret_inr. simpl. by apply mapAppend_bounded. }
  intros (id & t1 & _ & (ts & t2 & _ & [<- _]%ret_inr)%bind_inr)%bind_inr.
  simpl. apply Forall_app. split.
  - by apply (operationsBounded_mono b); [lia|].
  - constructor; [cbn [snd Edit.operations]; lia|constructor].
Qed.

Lemma processEditBlocks_bounded blocks st t st' t' b :
  operationsBounded b (snd st) →
  processEditBlocks h st blocks t = (inr st', t') →
  operationsBounded (b + 10 * length blocks) (snd st').
Proof.
  revert st t b. induction blocks as [|block blocks IH]; intros [rc m] t b Hb; simpl.
  - intros [<- _]%ret_inr. by apply (operationsBounded_mono b); [lia|].
  - intros (st1 & t1 & H1 & H2)%bind_inr.
    apply (processEditBlock_bounded _ _ _ _ _ _ b) in H1; [|done].
    apply (IH _ _ (b + 10)%nat) in H2; [|done].
    apply (operationsBounded_mono (b + 10 + 10 * length blocks)); [lia|done].
Qed.

Lemma parseBody_edits_bounded message t r t' :
  parseBody h message t = (inr r, t') →
  Forall (λ g, (length (Edit.operations g) ≤ 50)%nat) (edits r).
Proof.
  unfold parseBody. destruct (falsy message || negb (isString message)).
  { intros [<- _]%ret_inr. constructor. }
  destruct message as [| | | |message|]; try (intros [<- _]%ret_inr; constructor).
  cbv zeta.
  match goal with |- context [editBlockLoop 5 ?m 0] => generalize m end.
  intros limitedMessage.
  intros (st1 & t1 & H1 & (st2 & t2 & _ & (st3 & t3 & _
          & (p & t4 & _ & [<- _]%ret_inr)%bind_inr)%bind_inr)%bind_inr)%bind_inr.
  simpl. apply (processEditBlocks_bounded _ _ _ _ _ 0) in H1; [|constructor].
  pose proof (editBlockLoop_length 5 limitedMessage 0) as Hn.
  apply Forall_take. apply Forall_fmap. unfold operationsBounded in H1.
  eapply Forall_impl; [exact H1|]. intros kv Hkv. unfold compose.
  cbv beta in Hkv |- *. lia.
Qed.

End EditGroups.

(** C3, amended: [parseSearchReplace] returns at most 10 operations for one
    edit block, and every edit group [parseLLMResponse] returns has at most
    50: up to 5 blocks are read, and the operations of the blocks that
    declare the same path are concatenated without a further cap. *)
Theorem edit_group_operations_bounded (h : Host) (message : jsval) (t : nat) :
  (∀ content, (length (parseSearchReplace content) ≤ 10)%nat)
  ∧ Forall (λ g, (length (Edit.operations g) ≤ 50)%nat)
      (edits (fst (parseLLMResponse h message t))).
Proof.
  split; [apply parseSearchReplace_length|].
  unfold parseLLMResponse.
  destruct (parseBody h message t) as [[e|r] t'] eqn:E; simpl; [constructor|].
  by apply (parseBody_edits_bounded h) in E.
Qed.

(** C3 as stated fails: two blocks for the same path with 6 operations
    each are merged into one group of 12. *)
Lemma merged_group_exceeds_ten :
  map (λ g, (Edit.path g, length (Edit.operations g)))
      (edits (fst (parseLLMResponse quietHost (VStr twoBlocksOnePath) 0)))
  = [(str "foo.py", 12%nat)].
Proof. by vm_compute. Qed.

(** The bound of 50 is reached. *)
Example merged_group_can_reach_fifty :
  map (λ g, (Edit.path g, length (Edit.operations g)))
      (edits (fst (parseLLMResponse quietHost (VStr fiveBlocksOnePath) 0)))
  = [(str "foo.py", 50%nat)].
Proof. by vm_compute. Qed.

(** The scenarios of the specification. *)
Example parse_file_scenario :
  let r := fst (parseLLMResponse quietHost (VStr fileMessage) 0) in
  content r = VStr (str "Here is a file:")
  ∧ map (λ a, (ArtifactReconciler.path a, ArtifactReconciler.content a,
               ArtifactReconciler.language a)) (artifacts r)
    = [(str "src/x.js", str "console.log(1);", VStr (str "javascript"))]
  ∧ edits r = [].
Proof. by vm_compute. Qed.

Example parse_edit_scenario :
  map (λ g, (Edit.path g, Edit.operations g))
      (edits (fst (parseLLMResponse quietHost (VStr oneEdit) 0)))
  = [(str "foo.py", [operation (str "a") (str "b")])].
Proof. by vm_compute. Qed.

(** C7: [parseLLMResponse] is a total function, so no error leaves it:
    it returns what the [try] block returns, and whenever a step of the
    block throws, an object that holds the argument itself as [content]
    and no artifacts and no edits.  So do both revisions. *)
Theorem parse_catches_every_throw (h : Host) (message : jsval) (t : nat) :
  match parseBody h message t with
  | (inr r, t') => parseLLMResponse h message t = (r, t')
  | (inl e, t') =>
      let r := fst (parseLLMResponse h message t) in
      content r = message ∧ artifacts r = [] ∧ edits r = []
  end
  ∧ match Earlier.parseBody h message t with
    | (inr r, t') => Earlier.parseLLMResponse h message t = (r, t')
    | (inl e, t') =>
        Earlier.parseLLMResponse h message t
        = ({| Earlier.content := message; Earlier.artifacts := [];
              Earlier.edits := [] |}, t')
    end.
Proof.
  unfold parseLLMResponse, Earlier.parseLLMResponse.
  destruct (parseBody h message t) as [[e|r] t'];
    destruct (Earlier.parseBody h message t) as [[e'|r'] t'']; by split_and!.
Qed.

(** A host without the Performance interface: building the identifier of
    the first edit group throws, and the message comes back as it is. *)
Lemma parse_catches_every_throw_witness :
  parseBody hostWithoutPerformance (VStr oneEdit) 0%nat
  = (inl (Thrown (str "performance is not defined")), 3%nat)
  ∧ content (fst (parseLLMResponse hostWithoutPerformance (VStr oneEdit) 0)) = VStr oneEdit
  ∧ artifacts (fst (parseLLMResponse hostWithoutPerformance (VStr oneEdit) 0)) = []
  ∧ edits (fst (parseLLMResponse hostWithoutPerformance (VStr oneEdit) 0)) = []
  ∧ Earlier.parseLLMResponse hostWithoutPerformance (VStr oneEdit) 0
    = ({| Earlier.content := VStr oneEdit; Earlier.artifacts := [];
          Earlier.edits := [] |}, 3%nat).
Proof.
  pose proof (parse_catches_every_throw hostWithoutPerformance (VStr oneEdit) 0%nat)
    as [Hlater Hearlier].
  assert (parseBody hostWithoutPerformance (VStr oneEdit) 0%nat
          = (inl (Thrown (str "performance is not defined")), 3%nat)) as Hthrow
    by by vm_compute.
  assert (Earlier.parseBody hostWithoutPerformance (VStr oneEdit) 0%nat
          = (inl (Thrown (str "performance is not defined")), 3%nat)) as Hthrow'
    by by vm_compute.
  rewrite Hthrow in Hlater. rewrite Hthrow' in Hearlier.
  destruct Hlater as (Hc & Ha & He). by split_and!.
Defined.

End ParserProps.

(** * Further properties *)

Module StringFacts.

Import JsFacts Notions.

Lemma indexOfFrom_eq s pat i :
  indexOfFrom s pat i =
  if startsWith s pat then Z.of_nat i
  else match s with [] => -1 | _ :: s' => indexOfFrom s' pat (S i) end.
Proof. by destruct s. Qed.

Lemma indexOfFrom_none s pat i :
  indexOfFrom s pat i = -1 ↔ ∀ k, startsWith (drop k s) pat = false.
Proof.
  revert i. induction s as [|c s IH]; intros i; rewrite indexOfFrom_eq.
  - destruct (startsWith [] pat) eqn:E.
    + split; [lia|]. intros H. specialize (H 0%nat). rewrite drop_0 in H. congruence.
    + split; [|done]. intros _ k. by rewrite drop_nil.
  - destruct (startsWith (c :: s) pat) eqn:E.
    + split; [lia|]. intros H. specialize (H 0%nat). rewrite drop_0 in H. congruence.
    + rewrite IH. split.
      * intros H [|k]; [done|]. apply H.
      * intros H k. apply (H (S k)).
Qed.

Lemma indexOfFrom_found s pat i :
  indexOfFrom s pat i ≠ -1 → ∃ k, startsWith (drop k s) pat = true.
Proof.
  revert i. induction s as [|c s IH]; intros i; rewrite indexOfFrom_eq.
  - destruct (startsWith [] pat) eqn:E; [|done]. intros _. by exists 0%nat.
  - destruct (startsWith (c :: s) pat) eqn:E; [intros _; by exists 0%nat|].
    intros [k Hk]%IH. by exists (S k).
Qed.

(** [s.includes(pat)] holds exactly when [pat] is a part of [s]. *)
Lemma includes_true s pat :
  includes s pat = true ↔ ∃ pre post, s = pre ++ pat ++ post.
Proof.
  unfold includes, indexOf. rewrite negb_true_iff, Z.eqb_neq. split.
  - intros [k [r Hr]%startsWith_prefix]%indexOfFrom_found.
    exists (take k s), r. by rewrite <- Hr, take_drop.
  - intros (pre & post & ->) H. rewrite indexOfFrom_none in H.
    specialize (H (length pre)). rewrite drop_app_length in H.
    assert (startsWith (pat ++ post) pat = true) by (apply startsWith_prefix; eauto).
    congruence.
Qed.

Lemma includes_false s pat :
  includes s pat = false ↔ ∀ pre post, s ≠ pre ++ pat ++ post.
Proof.
  rewrite <- not_true_iff_false, includes_true. split.
  - intros H pre post E. apply H. eauto.
  - intros H (pre & post & E). by apply (H pre post).
Qed.

Lemma includes_nil s : includes s [] = true.
Proof. apply includes_true. by exists [], s. Qed.

Lemma endsWith_true s p : endsWith s p = true ↔ ∃ r, s = r ++ p.
Proof.
  unfold endsWith. rewrite startsWith_prefix. split.
  - intros [r Hr]. exists (rev r).
    rewrite <- (rev_involutive s), Hr. by rewrite rev_app_distr, rev_involutive.
  - intros [r ->]. exists (rev r). by rewrite rev_app_distr.
Qed.


End StringFacts.

Module PathFacts.

Import PathSanitizer JsFacts Notions Terms StringFacts.

(** *** [validateAndSanitizePath] *)

Lemma elem_of_dropWhile {A} (p : A → bool) l x : x ∈ dropWhile p l → x ∈ l.
Proof.
  induction l as [|y l IH]; simpl; [done|].
  destruct (p y); [|done]. intros ?. right. auto.
Qed.

Lemma elem_of_rev {A} (l : list A) x : x ∈ rev l → x ∈ l.
Proof. rewrite !list_elem_of_In. apply in_rev. Qed.

Lemma elem_of_trim s x : x ∈ trim s → x ∈ s.
Proof.
  unfold trim, trimEnd, trimStart.
  intros H%elem_of_rev%elem_of_dropWhile%elem_of_rev. by apply elem_of_dropWhile in H.
Qed.

Lemma elem_of_replaceChar c rep s x :
  x ∈ replaceChar c rep s → x ∈ rep ∨ (x ∈ s ∧ x ≠ c).
Proof.
  unfold replaceChar. rewrite list_elem_of_In, in_flat_map.
  intros (y & Hy%list_elem_of_In & Hx).
  destruct (Ascii.eqb y c) eqn:E.
  - left. by apply list_elem_of_In.
  - right. destruct Hx as [<-|[]]. split; [done|]. by apply Ascii.eqb_neq.
Qed.

Lemma elem_of_removeClass cls s x : x ∈ removeClass cls s → x ∈ s.
Proof.
  unfold removeClass. rewrite !list_elem_of_In, filter_In. tauto.
Qed.

(** The path [validateAndSanitizePath] returns when it does not fall back
    on [unknown.txt]. *)
Lemma sanitize_string p :
  p ≠ [] →
  validateAndSanitizePath (VStr p) =
  (let sanitized :=
     removeClass forbiddenChar (trim (replaceChar BACKSLASH (str "/") (removeDotDot p))) in
   if negb (includes sanitized (str ".")) && negb (endsWith sanitized (str "/"))
   then sanitized ++ str ".txt" else sanitized).
Proof. by destruct p. Qed.

(** X1: the path [validateAndSanitizePath] returns holds no backslash,
    and it has a dot in it or ends with a slash, whatever the argument. *)
Theorem sanitize_no_backslash_and_typed (v : jsval) :
  (BACKSLASH ∉ validateAndSanitizePath v)
  ∧ (includes (validateAndSanitizePath v) (str ".") = true
     ∨ endsWith (validateAndSanitizePath v) (str "/") = true).
Proof.
  assert (validateAndSanitizePath v = str "unknown.txt"
          ∨ ∃ p, p ≠ [] ∧ v = VStr p) as [->|(p & Hp & ->)].
  { destruct v as [| |b|n|[|c s]|]; try (by left); try (right; by eexists (_ :: _));
      left; unfold validateAndSanitizePath; cbn [isString negb];
      by rewrite orb_true_r. }
  { split; [|by left]. intros H%list_elem_of_In. simpl in H. intuition discriminate. }
  rewrite sanitize_string by done. cbv zeta.
  set (sanitized := removeClass _ _).
  assert (BACKSLASH ∉ sanitized) as Hclean.
  { intros H%elem_of_removeClass%elem_of_trim%elem_of_replaceChar.
    destruct H as [H|[_ H]]; [|done].
    apply list_elem_of_In in H. simpl in H. intuition discriminate. }
  destruct (includes sanitized (str ".")) eqn:Ei; cbn [negb andb].
  { rewrite Ei. split; [done|by left]. }
  destruct (endsWith sanitized (str "/")) eqn:Ee; cbn [negb andb].
  { rewrite Ee. split; [done|by right]. }
  split.
  - intros [H|H%list_elem_of_In]%elem_of_app; [done|].
    simpl in H. intuition discriminate.
  - left. apply includes_true. by exists sanitized, (str "txt").
Qed.


Lemma removeDotDot_fixed p :
  includes p (str "..") = false → removeDotDot p = p.
Proof.
  rewrite includes_false.
  induction p as [|c p IH]; intros H; [done|].
  destruct p as [|d p]; [done|].
  change (removeDotDot (c :: d :: p))
    with (if Ascii.eqb c "."%char && Ascii.eqb d "."%char
          then removeDotDot p else c :: removeDotDot (d :: p)).
  destruct (Ascii.eqb c "."%char && Ascii.eqb d "."%char) eqn:E.
  - apply andb_true_iff in E as [->%Ascii.eqb_eq ->%Ascii.eqb_eq].
    by destruct (H [] p).
  - f_equal. apply IH. intros pre post Hp. apply (H (c :: pre) post). by rewrite Hp.
Qed.

Lemma replaceChar_fixed c rep s : c ∉ s → replaceChar c rep s = s.
Proof.
  unfold replaceChar. induction s as [|x s IH]; intros H; [done|].
  simpl. apply not_elem_of_cons in H as [Hx Hs].
  assert (Ascii.eqb x c = false) as -> by (apply Ascii.eqb_neq; congruence).
  simpl. f_equal. by apply IH.
Qed.

Lemma removeClass_fixed cls s :
  Forall (λ c, cls c = false) s → removeClass cls s = s.
Proof.
  unfold removeClass. induction 1 as [|x s Hx _ IH]; [done|].
  simpl. rewrite Hx. simpl. by f_equal.
Qed.


Lemma cleanPath_spec p :
  cleanPath p = true →
  p ≠ [] ∧ includes p (str "..") = false ∧ (BACKSLASH ∉ p)
  ∧ Forall (λ c, forbiddenChar c = false) p ∧ trim p = p.
Proof.
  unfold cleanPath. rewrite !andb_true_iff, negb_true_iff, forallb_forall, strEq_true.
  intros [[[Hne Hdd] Hall] Htrim]. split_and!; [by destruct p|done| | |done].
  - intros Hin%list_elem_of_In. apply Hall in Hin. by rewrite Ascii.eqb_refl in Hin.
  - apply Forall_forall. intros c Hc%list_elem_of_In. apply Hall in Hc.
    apply andb_true_iff in Hc as [_ Hc]. by apply negb_true_iff in Hc.
Qed.

Lemma sanitize_clean p :
  cleanPath p = true →
  validateAndSanitizePath (VStr p) =
  if negb (includes p (str ".")) && negb (endsWith p (str "/")) then p ++ str ".txt" else p.
Proof.
  intros (Hne & Hdd & Hbs & Hforb & Htrim)%cleanPath_spec.
  rewrite sanitize_string by done. cbv zeta.
  by rewrite removeDotDot_fixed, replaceChar_fixed, Htrim, removeClass_fixed.
Qed.

Lemma sanitize_clean_fixed p :
  cleanPath p = true →
  includes p (str ".") = true ∨ endsWith p (str "/") = true →
  validateAndSanitizePath (VStr p) = p.
Proof.
  intros Hclean Htyped. rewrite sanitize_clean by done.
  destruct Htyped as [-> | ->]; [done|]. by rewrite andb_false_r.
Qed.

(** X2: [validateAndSanitizePath] returns a clean path as it is, when
    the path has a dot in it or ends with a slash. *)
Theorem sanitize_clean_path_unchanged (p : jsstring) :
  cleanPath p = true →
  includes p (str ".") = true ∨ endsWith p (str "/") = true →
  validateAndSanitizePath (VStr p) = p.
Proof.
  intros Hclean Htyped. rewrite sanitize_clean by done.
  destruct Htyped as [-> | ->]; [done|]. by rewrite andb_false_r.
Qed.

Lemma sanitize_clean_path_unchanged_witness :
  cleanPath (str "src/App.jsx") = true
  ∧ validateAndSanitizePath (VStr (str "src/App.jsx")) = str "src/App.jsx".
Proof.
  split; [reflexivity|].
  apply sanitize_clean_path_unchanged; [reflexivity|]. left. reflexivity.
Defined.


(** *** [getLanguageFromPath] *)

Lemma split_eq sep s :
  split sep s =
  match s with
  | [] => [[]]
  | c :: s' =>
      if Ascii.eqb c sep then [] :: split sep s'
      else match split sep s' with
           | [] => [[c]]
           | l :: ls => (c :: l) :: ls
           end
  end.
Proof. by destruct s. Qed.

Lemma split_without sep s : sep ∉ s → split sep s = [s].
Proof.
  induction s as [|c s IH]; intros H; [done|].
  apply not_elem_of_cons in H as [Hc Hs]. rewrite split_eq.
  assert (Ascii.eqb c sep = false) as -> by (apply Ascii.eqb_neq; congruence).
  by rewrite IH.
Qed.

(** The segments after a separator are those of the text after it. *)
Lemma split_app sep a b :
  ∃ init, init ≠ [] ∧ split sep (a ++ sep :: b) = init ++ split sep b.
Proof.
  induction a as [|c a (init & Hne & IH)].
  - exists [[]]. split; [done|]. simpl app. by rewrite split_eq, Ascii.eqb_refl.
  - rewrite <- app_comm_cons, split_eq, IH. destruct (Ascii.eqb c sep).
    + by exists ([] :: init).
    + destruct init as [|l init]; [done|]. by exists ((c :: l) :: init).
Qed.

Lemma last_split_app sep a b :
  last (split sep (a ++ sep :: b)) = last (split sep b).
Proof.
  destruct (split_app sep a b) as (init & _ & ->).
  pose proof (split_nonempty sep b) as Hb.
  destruct (split sep b) as [|x l] using rev_ind; [done|].
  by rewrite (assoc_L (++)), !last_snoc.
Qed.

(** The extension of a path: the part after its last dot. *)
Lemma pop_split_extension stem ext :
  "."%char ∉ ext → pop (split "."%char (stem ++ str "." ++ ext)) = Some ext.
Proof.
  intros H. unfold pop. change (str "." ++ ext) with ("."%char :: ext).
  by rewrite last_split_app, split_without.
Qed.

Lemma assoc_In k m v : assoc k m = Some v → In (k, v) m.
Proof.
  induction m as [|[k' v'] m IH]; simpl; [done|].
  destruct (strEq k k') eqn:E.
  - apply strEq_true in E. intros [= ->]. left. by subst.
  - auto.
Qed.

Lemma languageMap_values k v : assoc k languageMap = Some v → v ≠ [].
Proof.
  intros H%assoc_In. revert H. unfold languageMap. cbn [map fst snd].
  intros H. repeat (destruct H as [[= <- <-]|H]; [discriminate|]). destruct H.
Qed.

Lemma removeDotDot_cons2 c d p :
  removeDotDot (c :: d :: p)
  = if Ascii.eqb c "."%char && Ascii.eqb d "."%char
    then removeDotDot p else c :: removeDotDot (d :: p).
Proof. reflexivity. Qed.

(** Nothing is removed across a character that is not a dot. *)
Lemma removeDotDot_app s c t :
  c ≠ "."%char → removeDotDot (s ++ c :: t) = removeDotDot s ++ removeDotDot (c :: t).
Proof.
  intros Hc. induction s as [s IH] using (induction_ltof1 _ (@length _)). unfold ltof in IH.
  destruct s as [|x [|y s]]; [done| |].
  - cbn [app]. rewrite removeDotDot_cons2.
    assert (Ascii.eqb c "."%char = false) as -> by by apply Ascii.eqb_neq.
    by rewrite andb_false_r.
  - rewrite <- !app_comm_cons, !removeDotDot_cons2. destruct (_ && _).
    + apply IH. simpl. lia.
    + rewrite app_comm_cons, IH by (simpl; lia). done.
Qed.

Lemma dropWhile_app_stop {A} (p : A → bool) x c t :
  p c = false → ∃ y, dropWhile p (x ++ c :: t) = y ++ c :: t.
Proof.
  intros Hc. induction x as [|a x [y IH]]; cbn [app dropWhile].
  - exists []. by rewrite Hc.
  - destruct (p a); [by exists y|by exists (a :: x)].
Qed.

Lemma trimEnd_fixed l e : isWhiteSpace e = false → trimEnd (l ++ [e]) = l ++ [e].
Proof.
  intros He. unfold trimEnd. rewrite rev_unit. cbn [dropWhile]. rewrite He.
  by rewrite <- (rev_unit l e), rev_involutive.
Qed.

Lemma plainChar_spec c :
  plainChar c = true →
  isWhiteSpace c = false ∧ c ≠ "."%char ∧ c ≠ BACKSLASH ∧ forbiddenChar c = false.
Proof.
  unfold plainChar. rewrite !andb_true_iff, !negb_true_iff.
  intros [[[? ?%Ascii.eqb_neq] ?%Ascii.eqb_neq] ?]. done.
Qed.

(** [validateAndSanitizePath] keeps the end of a path from the character
    before its last dot on, when the characters around the dot are plain
    ones. *)
Lemma sanitize_keeps_extension stem c ext :
  plainChar c = true → forallb plainChar ext = true →
  ∃ stem', validateAndSanitizePath (VStr (stem ++ c :: str "." ++ ext))
           = stem' ++ c :: str "." ++ ext.
Proof.
  intros (Hcw & Hcd & Hcb & Hcf)%plainChar_spec Hext.
  assert (Forall (λ x, isWhiteSpace x = false ∧ x ≠ "."%char ∧ x ≠ BACKSLASH
                       ∧ forbiddenChar x = false) ext) as Hall.
  { apply Forall_forall. intros x Hx%list_elem_of_In.
    rewrite forallb_forall in Hext. by apply plainChar_spec, Hext. }
  set (suffix := c :: str "." ++ ext).
  assert (removeDotDot suffix = suffix) as Hdots.
  { apply removeDotDot_fixed. apply includes_false. intros pre post E. unfold suffix in E.
    change (str "." ++ ext) with ("."%char :: ext) in E.
    change (str ".." ++ post) with ("."%char :: "."%char :: post) in E.
    destruct pre as [|p0 [|p1 pre]]; cbn [app] in E.
    - by injection E as -> _.
    - injection E as _ E. subst ext.
      by apply Forall_cons in Hall as [(_ & ? & _) _].
    - injection E as _ _ E.
      assert ("."%char ∈ ext) as Hin.
      { rewrite E. apply elem_of_app. right. by left. }
      rewrite Forall_forall in Hall. by destruct (Hall _ Hin) as (_ & ? & _). }
  assert (replaceChar BACKSLASH (str "/") suffix = suffix) as Hslash.
  { apply replaceChar_fixed. intros [?|[?|Hin]%elem_of_cons]%elem_of_cons; [done..|].
    rewrite Forall_forall in Hall. by destruct (Hall _ Hin) as (_ & _ & ? & _). }
  assert (removeClass forbiddenChar suffix = suffix) as Hclass.
  { apply removeClass_fixed. constructor; [done|]. constructor; [done|].
    eapply Forall_impl; [exact Hall|]. by intros x (_ & _ & _ & ?). }
  assert (∃ init e, suffix = init ++ [e] ∧ isWhiteSpace e = false) as (init & e & Hlast & He).
  { unfold suffix. destruct ext as [|x ext _] using rev_ind.
    - by exists [c], "."%char.
    - exists (c :: str "." ++ ext), x. split; [done|].
      apply Forall_app in Hall as [_ Hx]. by apply Forall_cons in Hx as [(? & _) _]. }
  assert (removeDotDot (stem ++ suffix) = removeDotDot stem ++ suffix) as Hstem.
  { rewrite <- Hdots at 2. by apply removeDotDot_app. }
  rewrite sanitize_string by by destruct stem.
  fold suffix. rewrite Hstem. unfold replaceChar.
  rewrite flat_map_app. fold (replaceChar BACKSLASH (str "/") suffix). rewrite Hslash.
  cbv zeta. unfold trim, trimStart.
  destruct (dropWhile_app_stop isWhiteSpace
              (flat_map (λ x, if Ascii.eqb x BACKSLASH then str "/" else [x])
                 (removeDotDot stem)) c (str "." ++ ext) Hcw) as [y Hy].
  fold suffix in Hy. rewrite Hy, Hlast, (assoc_L (++)), trimEnd_fixed by done.
  rewrite <- (assoc_L (++)), <- Hlast. unfold removeClass. rewrite List.filter_app.
  fold (removeClass forbiddenChar suffix). rewrite Hclass.
  assert (includes (List.filter (λ x, negb (forbiddenChar x)) y ++ suffix) (str ".") = true)
    as ->.
  { apply includes_true. exists (List.filter (λ x, negb (forbiddenChar x)) y ++ [c]), ext.
    by rewrite <- (assoc_L (++)). }
  cbn [negb andb]. by eexists.
Qed.

(** X3: [getLanguageFromPath] goes by the part after the last dot, in
    lower case, whatever the path before it: when the character before the
    dot and those after it are plain ones (no white space, dot, backslash
    or stripped character), the language is what the table has for that
    part, and [text] when it has nothing. *)
Theorem language_follows_last_extension (stem : jsstring) (c : ascii) (ext : jsstring) :
  plainChar c = true → forallb plainChar ext = true →
  getLanguageFromPath (VStr (stem ++ c :: str "." ++ ext))
  = let found := languageLookup (toLowerCase ext) in
    if falsy found then VStr (str "text") else found.
Proof.
  intros Hc Hext. unfold getLanguageFromPath.
  destruct (sanitize_keeps_extension stem c ext Hc Hext) as [stem' ->].
  change (stem' ++ c :: str "." ++ ext) with (stem' ++ [c] ++ str "." ++ ext).
  rewrite (assoc_L (++)), pop_split_extension; [done|].
  intros Hin%list_elem_of_In. rewrite forallb_forall in Hext.
  by apply Hext, plainChar_spec in Hin as (_ & ? & _).
Qed.

Lemma language_follows_last_extension_witness :
  plainChar "p"%char = true
  ∧ forallb plainChar (str "JSX") = true
  ∧ getLanguageFromPath (VStr (str " ..\src\<App>..p.JSX")) = VStr (str "jsx").
Proof.
  split_and!; [reflexivity..|].
  exact (language_follows_last_extension (str " ..\src\<App>..") "p"%char (str "JSX")
           eq_refl eq_refl).
Defined.

Lemma elem_of_removeDotDot p x : x ∈ removeDotDot p → x ∈ p.
Proof.
  revert x. induction p as [p IH] using (induction_ltof1 _ (@length _)). unfold ltof in IH.
  intros x. destruct p as [|c [|d p]]; [done..|].
  change (removeDotDot (c :: d :: p))
    with (if Ascii.eqb c "."%char && Ascii.eqb d "."%char
          then removeDotDot p else c :: removeDotDot (d :: p)).
  destruct (_ && _).
  - intros H%IH; [|simpl; lia]. by do 2 right.
  - intros [->|H%IH]%elem_of_cons; [by left| |simpl; lia]. by right.
Qed.

Lemma languageMap_keys k v :
  assoc k languageMap = Some v → endsWith k (str "/") = false.
Proof.
  intros H%assoc_In. revert H. unfold languageMap. cbn [map fst snd].
  intros H. repeat (destruct H as [[= <- <-]|H]; [reflexivity|]). destruct H.
Qed.

(** X4: a path without a dot is a [text] file for [getLanguageFromPath],
    because [.txt] is appended to it, or because it ends with a slash and
    no key of the table does. *)
Theorem language_without_dot_is_text (p : jsstring) :
  "."%char ∉ p → getLanguageFromPath (VStr p) = VStr (str "text").
Proof.
  intros Hdot. destruct (decide (p = [])) as [->|Hne]; [reflexivity|].
  unfold getLanguageFromPath. rewrite sanitize_string by done. cbv zeta.
  set (sanitized := removeClass _ _).
  assert ("."%char ∉ sanitized) as Hclean.
  { intros H%elem_of_removeClass%elem_of_trim%elem_of_replaceChar.
    destruct H as [H|[H _]].
    - apply list_elem_of_In in H. simpl in H. intuition discriminate.
    - by apply elem_of_removeDotDot in H. }
  assert (includes sanitized (str ".") = false) as ->.
  { apply includes_false. intros pre post E. apply Hclean. rewrite E.
    apply elem_of_app. right. by left. }
  destruct (endsWith sanitized (str "/")) eqn:Ee; cbn [negb andb].
  - rewrite split_without by done. cbn [pop last option_map].
    apply endsWith_true in Ee as [r Hr].
    assert (endsWith (toLowerCase sanitized) (str "/") = true) as Hlow.
    { apply endsWith_true. exists (toLowerCase r). rewrite Hr. unfold toLowerCase.
      by rewrite map_app. }
    unfold languageLookup.
    destruct (assoc (toLowerCase sanitized) languageMap) as [v|] eqn:Ea.
    { apply languageMap_keys in Ea. congruence. }
    destruct (strEq (toLowerCase sanitized) (str "constructor")) eqn:E1.
    { apply strEq_true in E1. rewrite E1 in Hlow. discriminate. }
    destruct (strEq (toLowerCase sanitized) (str "__proto__")) eqn:E2.
    { apply strEq_true in E2. rewrite E2 in Hlow. discriminate. }
    reflexivity.
  - change (str ".txt") with (str "." ++ str "txt").
    rewrite pop_split_extension; [reflexivity|].
    rewrite list_elem_of_In. simpl. intuition discriminate.
Qed.


Lemma language_without_dot_is_text_witness :
  ("."%char ∉ str "Makefile")
  ∧ getLanguageFromPath (VStr (str "Makefile")) = VStr (str "text").
Proof.
  assert ("."%char ∉ str "Makefile") as Hdot.
  { rewrite list_elem_of_In. simpl. intuition discriminate. }
  split; [exact Hdot|]. exact (language_without_dot_is_text (str "Makefile") Hdot).
Defined.

End PathFacts.

Module ReconcilerFacts.

Import PathSanitizer ArtifactReconciler JsFacts Notions Terms ReconcilerProps StringFacts PathFacts.

Lemma dedupe_paths l seen p :
  p ∈ path <$> filterState dedupeStep l seen ↔ p ∈ path <$> l ∧ p ∉ seen.
Proof.
  revert seen. induction l as [|a l IH]; intros seen.
  - simpl. split; [by intros ?%elem_of_nil|by intros [?%elem_of_nil _]].
  - rewrite filterState_dedupe_cons. case_decide as Hs.
    + rewrite IH, fmap_cons, elem_of_cons. split; [tauto|].
      intros [[->|?] ?]; done.
    + rewrite !fmap_cons, !elem_of_cons, IH, elem_of_union, elem_of_singleton.
      split.
      * intros [->|[? ?]]; [by split; [left|]|]. split; [by right|tauto].
      * intros [[->|?] ?]; [by left|].
        destruct (decide (p = path a)); [by left|right]. tauto.
Qed.

(** X5: [deduplicateArtifacts] leaves a list as it is exactly when no
    path occurs twice in it, and the paths of its result are those of its
    argument. *)
Theorem dedupe_fixed_iff_distinct_paths (xs : list Artifact) :
  (deduplicateArtifacts xs = xs ↔ NoDup (path <$> xs))
  ∧ (∀ p, p ∈ path <$> deduplicateArtifacts xs ↔ p ∈ path <$> xs)
  ∧ (length (deduplicateArtifacts xs) ≤ length xs)%nat.
Proof.
  unfold deduplicateArtifacts. split_and!.
  - split.
    + intros <-. apply dedupe_NoDup.
    + intros H. apply dedupe_fixed; [done|]. intros a _. apply not_elem_of_empty.
  - intros p. rewrite dedupe_paths. pose proof (not_elem_of_empty (C:=gset jsstring) p).
    tauto.
  - apply sublist_length, dedupe_sublist.
Qed.

Lemma containsMatch_nil a : containsMatch [] a = true.
Proof. unfold containsMatch. by rewrite includes_nil. Qed.

(** X6: when the declared path is normalized to the empty string (as
    [./] and [/] are) and there is an artifact, [findTargetFileForEdit]
    does not return [null]: every normalized path contains the empty
    string, so the last stage matches the first artifact if no stage
    before it has a match. *)
Theorem resolve_empty_path_never_null (arts : list Artifact) (editPath : jsstring) :
  arts ≠ [] → normalizePath editPath = [] →
  ∃ a, findTargetFileForEdit arts editPath = Some a ∧ a ∈ take 50 arts.
Proof.
  intros Hne Hn. rewrite findTarget_unfold. cbv zeta. rewrite Hn.
  assert (∀ test a, List.find test (take 50 arts) = Some a → a ∈ take 50 arts) as Hin.
  { intros test a H. apply list_elem_of_In. by apply find_some in H as [H _]. }
  destruct (List.find (exactMatch []) _) as [a|] eqn:E1; [eauto|].
  destruct (List.find (basenameMatch []) _) as [a|] eqn:E2; [eauto|].
  destruct arts as [|a arts]; [done|]. cbn [take List.find].
  rewrite containsMatch_nil. exists a. split; [done|]. by left.
Qed.

Lemma resolve_empty_path_never_null_witness :
  [Samples.projectFile "src/a.js"] ≠ []
  ∧ normalizePath (str "./") = []
  ∧ findTargetFileForEdit [Samples.projectFile "src/a.js"] (str "./")
    = Some (Samples.projectFile "src/a.js").
Proof.
  split_and!; [done|reflexivity|].
  destruct (resolve_empty_path_never_null [Samples.projectFile "src/a.js"] (str "./"))
    as (a & Ha & Hin); [done|reflexivity|].
  rewrite Ha. f_equal. apply elem_of_cons in Hin as [Hin|Hin%elem_of_nil]; done.
Defined.

End ReconcilerFacts.

Module PatchFacts.

Import PatchEngine Notions Samples JsFacts PatchProps.

(** What a turn of the loop does to the text and to the count depends on
    the text and the operation only: [d] is 1 when the operation applies. *)
Lemma applyOperation_text st o :
  ∃ d, (d ≤ 1)%nat
    ∧ Loop.appliedCount (applyOperation st o) = (Loop.appliedCount st + d)%nat
    ∧ (d = 0%nat → Loop.result (applyOperation st o) = Loop.result st)
    ∧ ∀ st' o', Loop.result st' = Loop.result st → op o' = op o →
        Loop.result (applyOperation st' o') = Loop.result (applyOperation st o)
        ∧ Loop.appliedCount (applyOperation st' o') = (Loop.appliedCount st' + d)%nat.
Proof.
  unfold applyOperation.
  destruct (lastIndexOf (Loop.result st) (search (op o)) =? -1) eqn:E.
  - destruct (fuzzyReplace _ _ _ _) as [r|] eqn:F.
    + exists 1%nat. cbn. split_and!; [lia|lia|lia|].
      intros st' o' -> ->. rewrite E, F. cbn. split; [done|lia].
    + exists 0%nat. cbn. split_and!; [lia|lia|done|].
      intros st' o' -> ->. rewrite E, F. cbn. split; [done|lia].
  - exists 1%nat. cbn. split_and!; [lia|lia|lia|].
    intros st' o' -> ->. rewrite E. cbn. split; [done|lia].
Qed.

Lemma fold_applyOperation_text os st :
  ∃ d, Loop.appliedCount (fold_left applyOperation os st) = (Loop.appliedCount st + d)%nat
    ∧ (d = 0%nat → Loop.result (fold_left applyOperation os st) = Loop.result st)
    ∧ ∀ st' os', Loop.result st' = Loop.result st → map op os' = map op os →
        Loop.result (fold_left applyOperation os' st')
        = Loop.result (fold_left applyOperation os st)
        ∧ Loop.appliedCount (fold_left applyOperation os' st')
          = (Loop.appliedCount st' + d)%nat.
Proof.
  revert st. induction os as [|o os IH]; intros st.
  - exists 0%nat. cbn. split_and!; [lia|done|].
    intros st' [|? ?] Hr Ho; [|done]. cbn. split; [done|lia].
  - cbn [fold_left].
    destruct (applyOperation_text st o) as (d1 & Hd1 & Hc1 & Hz1 & Hs1).
    destruct (IH (applyOperation st o)) as (d2 & Hc2 & Hz2 & Hs2).
    exists (d1 + d2)%nat. split_and!.
    + lia.
    + intros Hd. rewrite Hz2 by lia. apply Hz1. lia.
    + intros st' [|o' os'] Hr Ho; [done|]. cbn [map] in Ho. injection Ho as Ho Hos.
      cbn [fold_left]. destruct (Hs1 st' o' Hr Ho) as [Hr1 Hc1'].
      destruct (Hs2 (applyOperation st' o') os' Hr1 Hos) as [Hr2 Hc2'].
      split; [done|lia].
Qed.


Lemma earlier_applyOperation_text original st o :
  ∃ d, (d ≤ 1)%nat
    ∧ Earlier.Loop.appliedCount (Earlier.applyOperation original st o)
      = (Earlier.Loop.appliedCount st + d)%nat
    ∧ (d = 0%nat →
       Earlier.Loop.result (Earlier.applyOperation original st o) = Earlier.Loop.result st)
    ∧ ∀ original' st' o', Earlier.Loop.result st' = Earlier.Loop.result st → op o' = op o →
        Earlier.Loop.result (Earlier.applyOperation original' st' o')
        = Earlier.Loop.result (Earlier.applyOperation original st o)
        ∧ Earlier.Loop.appliedCount (Earlier.applyOperation original' st' o')
          = (Earlier.Loop.appliedCount st' + d)%nat.
Proof.
  unfold Earlier.applyOperation.
  destruct (lastIndexOf (Earlier.Loop.result st) (search (op o)) =? -1) eqn:E.
  - exists 0%nat. cbn. split_and!; [lia|lia|done|].
    intros original' st' o' -> ->. rewrite E. cbn. split; [done|lia].
  - exists 1%nat. cbn. split_and!; [lia|lia|lia|].
    intros original' st' o' -> ->. rewrite E. cbn. split; [done|lia].
Qed.

Lemma earlier_fold_applyOperation_text original os st :
  ∃ d, Earlier.Loop.appliedCount (fold_left (Earlier.applyOperation original) os st)
       = (Earlier.Loop.appliedCount st + d)%nat
    ∧ (d = 0%nat →
       Earlier.Loop.result (fold_left (Earlier.applyOperation original) os st)
       = Earlier.Loop.result st)
    ∧ ∀ original' st' os', Earlier.Loop.result st' = Earlier.Loop.result st →
        map op os' = map op os →
        Earlier.Loop.result (fold_left (Earlier.applyOperation original') os' st')
        = Earlier.Loop.result (fold_left (Earlier.applyOperation original) os st)
        ∧ Earlier.Loop.appliedCount (fold_left (Earlier.applyOperation original') os' st')
          = (Earlier.Loop.appliedCount st' + d)%nat.
Proof.
  revert st. induction os as [|o os IH]; intros st.
  - exists 0%nat. cbn. split_and!; [lia|done|].
    intros original' st' [|? ?] Hr Ho; [|done]. cbn. split; [done|lia].
  - cbn [fold_left].
    destruct (earlier_applyOperation_text original st o) as (d1 & Hd1 & Hc1 & Hz1 & Hs1).
    destruct (IH (Earlier.applyOperation original st o)) as (d2 & Hc2 & Hz2 & Hs2).
    exists (d1 + d2)%nat. split_and!.
    + lia.
    + intros Hd. rewrite Hz2 by lia. apply Hz1. lia.
    + intros original' st' [|o' os'] Hr Ho; [done|]. cbn [map] in Ho.
      injection Ho as Ho Hos.
      cbn [fold_left]. destruct (Hs1 original' st' o' Hr Ho) as [Hr1 Hc1'].
      destruct (Hs2 original' (Earlier.applyOperation original' st' o') os' Hr1 Hos)
        as [Hr2 Hc2'].
      split; [done|lia].
Qed.

(** X7: when [applySearchReplace] counts no operation as applied, the
    text it returns is the original; so do both revisions. *)
Theorem applySearchReplace_nothing_applied_nothing_changed
    (originalContent : option jsstring) (operations : option (list Operation)) :
  (appliedCount (applySearchReplace originalContent operations) = 0%nat →
   result (applySearchReplace originalContent operations) = originalContent)
  ∧ (Earlier.appliedCount (Earlier.applySearchReplace originalContent operations) = 0%nat →
     Earlier.result (Earlier.applySearchReplace originalContent operations)
     = originalContent).
Proof.
  destruct originalContent as [[|c cs]|], operations as [[|o os]|]; try by split.
  rewrite applySearchReplace_nonempty, earlier_applySearchReplace_nonempty by done.
  cbv zeta. cbn [result appliedCount Earlier.result Earlier.appliedCount].
  split.
  - match goal with |- context [fold_left applyOperation ?l ?i] =>
      destruct (fold_applyOperation_text l i) as (d & Hc & Hz & _) end.
    rewrite Hc. cbn [Loop.appliedCount]. intros Hd. rewrite Hz by lia. done.
  - match goal with |- context [fold_left (Earlier.applyOperation ?x) ?l ?i] =>
      destruct (earlier_fold_applyOperation_text x l i) as (d & Hc & Hz & _) end.
    rewrite Hc. cbn [Earlier.Loop.appliedCount]. intros Hd. rewrite Hz by lia. done.
Qed.

Lemma applySearchReplace_nothing_applied_nothing_changed_witness :
  appliedCount (applySearchReplace (Some greeting) (Some [operation (str "moon") (str "sun")]))
  = 0%nat
  ∧ result (applySearchReplace (Some greeting) (Some [operation (str "moon") (str "sun")]))
    = Some greeting.
Proof.
  split; [reflexivity|].
  apply (applySearchReplace_nothing_applied_nothing_changed
           (Some greeting) (Some [operation (str "moon") (str "sun")])).
  reflexivity.
Defined.


Lemma map_op_imap (g : nat → nat) (ops : list Operation) :
  map op (imap (λ index o, {| op := o; originalIndex := g index |}) ops) = ops.
Proof.
  revert g. induction ops as [|o ops IH]; intros g; [done|].
  cbn. f_equal. apply (IH (g ∘ S)).
Qed.

(** The turns of the loop on [ops1 ++ ops2]: those of [ops2] first. *)
Lemma sorted_app (ops1 ops2 : list Operation) :
  rev (indexOperations (ops1 ++ ops2))
  = rev (imap (λ index o, {| op := o; originalIndex := length ops1 + index |}) ops2)
    ++ rev (indexOperations ops1).
Proof. unfold indexOperations. by rewrite imap_app, rev_app_distr. Qed.

Lemma applySearchReplace_fold text ops :
  text ≠ [] → (length ops ≤ 20)%nat →
  applySearchReplace (Some text) (Some ops) =
  (let st := fold_left applyOperation (rev (indexOperations ops))
               {| Loop.result := text; Loop.appliedCount := 0; Loop.failedOps := [] |} in
   {| result := Some (Loop.result st);
      appliedCount := Loop.appliedCount st;
      failedOps := Loop.failedOps st |}).
Proof.
  intros Hne Hlen. destruct ops as [|o ops].
  - by destruct text.
  - rewrite applySearchReplace_nonempty by done. by rewrite take_ge by done.
Qed.

Lemma earlier_applySearchReplace_fold text ops :
  text ≠ [] → (length ops ≤ 20)%nat →
  Earlier.applySearchReplace (Some text) (Some ops) =
  (let st := fold_left (Earlier.applyOperation text) (rev (indexOperations ops))
               {| Earlier.Loop.result := text; Earlier.Loop.appliedCount := 0;
                  Earlier.Loop.failedOps := [] |} in
   {| Earlier.result := Some (Earlier.Loop.result st);
      Earlier.appliedCount := Earlier.Loop.appliedCount st;
      Earlier.failedOps := Earlier.Loop.failedOps st |}).
Proof.
  intros Hne Hlen. destruct ops as [|o ops].
  - by destruct text.
  - rewrite earlier_applySearchReplace_nonempty by done. by rewrite take_ge by done.
Qed.

Lemma applySearchReplace_app (text middle : jsstring) (ops1 ops2 : list Operation) :
  (length (ops1 ++ ops2) ≤ 20)%nat →
  result (applySearchReplace (Some text) (Some ops2)) = Some middle →
  middle ≠ [] →
  result (applySearchReplace (Some text) (Some (ops1 ++ ops2)))
  = result (applySearchReplace (Some middle) (Some ops1))
  ∧ appliedCount (applySearchReplace (Some text) (Some (ops1 ++ ops2)))
    = (appliedCount (applySearchReplace (Some text) (Some ops2))
       + appliedCount (applySearchReplace (Some middle) (Some ops1)))%nat.
Proof.
  rewrite length_app. intros Hlen Hmid Hne.
  assert (text ≠ []) as Htext.
  { intros ->. destruct ops2; simpl in Hmid; congruence. }
  revert Hmid.
  rewrite !applySearchReplace_fold by (done || rewrite ?length_app; lia).
  cbv zeta. cbn [result appliedCount]. rewrite sorted_app, fold_left_app.
  set (start := {| Loop.result := text; Loop.appliedCount := 0; Loop.failedOps := [] |}).
  set (shifted := rev (imap _ ops2)).
  destruct (fold_applyOperation_text (rev (indexOperations ops2)) start)
    as (d2 & Hc2 & _ & Hs2).
  destruct (Hs2 start shifted) as [Hr2 Hc2']; [done|..].
  { unfold shifted, indexOperations. by rewrite !map_rev, !map_op_imap. }
  intros [= Hmid]. rewrite Hmid in Hr2.
  set (zero := {| Loop.result := middle; Loop.appliedCount := 0; Loop.failedOps := [] |}).
  destruct (fold_applyOperation_text (rev (indexOperations ops1)) zero)
    as (d1 & Hc1 & _ & Hs1).
  destruct (Hs1 (fold_left applyOperation shifted start) (rev (indexOperations ops1)))
    as [Hr1 Hc1']; [done..|].
  rewrite Hr1, Hc1', Hc2', Hc2, Hc1. by cbn.
Qed.

Lemma earlier_applySearchReplace_app (text middle : jsstring) (ops1 ops2 : list Operation) :
  (length (ops1 ++ ops2) ≤ 20)%nat →
  Earlier.result (Earlier.applySearchReplace (Some text) (Some ops2)) = Some middle →
  middle ≠ [] →
  Earlier.result (Earlier.applySearchReplace (Some text) (Some (ops1 ++ ops2)))
  = Earlier.result (Earlier.applySearchReplace (Some middle) (Some ops1))
  ∧ Earlier.appliedCount (Earlier.applySearchReplace (Some text) (Some (ops1 ++ ops2)))
    = (Earlier.appliedCount (Earlier.applySearchReplace (Some text) (Some ops2))
       + Earlier.appliedCount (Earlier.applySearchReplace (Some middle) (Some ops1)))%nat.
Proof.
  rewrite length_app. intros Hlen Hmid Hne.
  assert (text ≠ []) as Htext.
  { intros ->. destruct ops2; simpl in Hmid; congruence. }
  revert Hmid.
  rewrite !earlier_applySearchReplace_fold by (done || rewrite ?length_app; lia).
  cbv zeta. cbn [Earlier.result Earlier.appliedCount]. rewrite sorted_app, fold_left_app.
  set (start := {| Earlier.Loop.result := text; Earlier.Loop.appliedCount := 0;
                   Earlier.Loop.failedOps := [] |}).
  set (shifted := rev (imap _ ops2)).
  destruct (earlier_fold_applyOperation_text text (rev (indexOperations ops2)) start)
    as (d2 & Hc2 & _ & Hs2).
  destruct (Hs2 text start shifted) as [Hr2 Hc2']; [done|..].
  { unfold shifted, indexOperations. by rewrite !map_rev, !map_op_imap. }
  intros [= Hmid]. rewrite Hmid in Hr2.
  set (zero := {| Earlier.Loop.result := middle; Earlier.Loop.appliedCount := 0;
                  Earlier.Loop.failedOps := [] |}).
  destruct (earlier_fold_applyOperation_text middle (rev (indexOperations ops1)) zero)
    as (d1 & Hc1 & _ & Hs1).
  destruct (Hs1 text (fold_left (Earlier.applyOperation text) shifted start)
              (rev (indexOperations ops1))) as [Hr1 Hc1']; [done..|].
  rewrite Hr1, Hc1', Hc2', Hc2, Hc1. by cbn.
Qed.

(** X8: for at most 20 operations in all, applying [ops1 ++ ops2] is
    applying [ops2] and then [ops1] to the text that gives, provided that
    text is not empty: the texts are the same and the counts of applied
    operations add up; so do both revisions. *)
Theorem applySearchReplace_composes (text : jsstring) (ops1 ops2 : list Operation) :
  (length (ops1 ++ ops2) ≤ 20)%nat →
  (∀ middle,
     result (applySearchReplace (Some text) (Some ops2)) = Some middle → middle ≠ [] →
     result (applySearchReplace (Some text) (Some (ops1 ++ ops2)))
     = result (applySearchReplace (Some middle) (Some ops1))
     ∧ appliedCount (applySearchReplace (Some text) (Some (ops1 ++ ops2)))
       = (appliedCount (applySearchReplace (Some text) (Some ops2))
          + appliedCount (applySearchReplace (Some middle) (Some ops1)))%nat)
  ∧ (∀ middle,
       Earlier.result (Earlier.applySearchReplace (Some text) (Some ops2)) = Some middle →
       middle ≠ [] →
       Earlier.result (Earlier.applySearchReplace (Some text) (Some (ops1 ++ ops2)))
       = Earlier.result (Earlier.applySearchReplace (Some middle) (Some ops1))
       ∧ Earlier.appliedCount (Earlier.applySearchReplace (Some text) (Some (ops1 ++ ops2)))
         = (Earlier.appliedCount (Earlier.applySearchReplace (Some text) (Some ops2))
            + Earlier.appliedCount
                (Earlier.applySearchReplace (Some middle) (Some ops1)))%nat).
Proof.
  intros Hlen. split; intros middle Hmid Hne.
  - by apply applySearchReplace_app.
  - by apply earlier_applySearchReplace_app.
Qed.

Lemma applySearchReplace_composes_witness :
  (length ([helloToBye] ++ [worldToMoon]) ≤ 20)%nat
  ∧ result (applySearchReplace (Some greeting) (Some [worldToMoon]))
    = Some (str "hello wide moon")
  ∧ result (applySearchReplace (Some greeting) (Some ([helloToBye] ++ [worldToMoon])))
    = result (applySearchReplace (Some (str "hello wide moon")) (Some [helloToBye])).
Proof.
  assert (length ([helloToBye] ++ [worldToMoon]) ≤ 20)%nat as Hlen by (simpl; lia).
  split_and!; [exact Hlen|reflexivity|].
  destruct (applySearchReplace_composes greeting [helloToBye] [worldToMoon] Hlen)
    as [Hnow _].
  destruct (Hnow (str "hello wide moon")) as [Hr _]; [reflexivity|done|]. exact Hr.
Defined.

End PatchFacts.

Module ParserFacts.

Import PathSanitizer ArtifactReconciler Regex ResponseParser Notions Samples JsFacts
  RegexProps ParserProps Terms.

(** *** The edit groups *)

Lemma mapGet_None key m : mapGet key m = None → key ∉ map fst m.
Proof.
  induction m as [|[k v] m IH]; simpl; [intros _; apply not_elem_of_nil|].
  destruct (strEq k key) eqn:E; [done|]. apply strEq_false in E.
  intros H%IH. apply not_elem_of_cons. split; [congruence|done].
Qed.

Lemma mapAppend_keys key ops m : map fst (mapAppend key ops m) = map fst m.
Proof.
  induction m as [|[k v] m IH]; simpl; [done|].
  destruct (strEq k key); simpl; [done|]. by f_equal.
Qed.

Lemma mapAppend_consistent key ops m :
  groupsConsistent m → groupsConsistent (mapAppend key ops m).
Proof.
  intros [Hnd Hall]. split; [by rewrite mapAppend_keys|].
  clear Hnd. induction Hall as [|[k v] m (Hk & Hp & Ho & Hc) Htail IH]; simpl; [constructor|].
  destruct (strEq k key).
  - constructor; [|done]. cbn in *. split_and!; [done..| |].
    + by destruct (Edit.operations v).
    + rewrite length_app. lia.
  - constructor; [|done]. by split_and!.
Qed.

Section Blocks.

Context (h : Host).

Lemma processEditBlock_consistent regularContent m block t st' t' :
  groupsConsistent m →
  processEditBlock h (regularContent, m) block t = (inr st', t') →
  groupsConsistent (snd st') ∧ (length (snd st') ≤ S (length m))%nat.
Proof.
  intros Hm. unfold processEditBlock.
  destruct (locateTarget (Block.content block)) as [targetFile editContent].
  destruct (parseSearchReplace (VStr editContent)) as [|o os] eqn:Eops.
  { intros [<- _]%ret_inr. simpl. split; [done|lia]. }
  set (finalPath := match targetFile with Some (c :: f) => c :: f | _ => str "unknown" end).
  assert (finalPath ≠ []) as Hfinal.
  { unfold finalPath. by destruct targetFile as [[|c f]|]. }
  destruct (mapGet finalPath m) eqn:Eget.
  { intros [<- _]%ret_inr. simpl. split; [by apply mapAppend_consistent|].
    assert (length (mapAppend finalPath (o :: os) m) = length m) as ->; [|lia].
    by rewrite <- (length_map fst), mapAppend_keys, length_map. }
  intros (id & t1 & _ & (ts & t2 & _ & [<- _]%ret_inr)%bind_inr)%bind_inr.
  simpl. destruct Hm as [Hnd Hall]. split; [|rewrite length_app; simpl; lia].
  split.
  - rewrite map_app. simpl. apply NoDup_app. split_and!; [done| |apply NoDup_singleton].
    intros k Hk Hin. apply list_elem_of_singleton in Hin. subst k.
    by apply mapGet_None in Eget.
  - apply Forall_app. split; [done|]. constructor; [|constructor]. by cbn.
Qed.

Lemma processEditBlocks_consistent blocks st t st' t' :
  groupsConsistent (snd st) →
  processEditBlocks h st blocks t = (inr st', t') →
  groupsConsistent (snd st')
  ∧ (length (snd st') ≤ length (snd st) + length blocks)%nat.
Proof.
  revert st t. induction blocks as [|block blocks IH]; intros [rc m] t Hm; simpl.
  - intros [<- _]%ret_inr. split; [done|simpl; lia].
  - intros (st1 & t1 & H1 & H2)%bind_inr.
    apply processEditBlock_consistent in H1 as [H1 Hl1]; [|done].
    apply IH in H2 as [H2 Hl2]; [|done]. split; [done|]. simpl in *. lia.
Qed.

End Blocks.


(** *** The artifacts *)

Section Patterns.

Context (h : Host).

Lemma makeArtifact_inr rawFilePath content language source t a t' :
  looksLikeEdit content = false →
  makeArtifact h (validateAndSanitizePath (VStr rawFilePath)) content language source t
  = (inr a, t') →
  parsedArtifact a.
Proof.
  intros Hedit. unfold makeArtifact.
  intros (id & t1 & _ & (ts & t2 & _ & [<- _]%ret_inr)%bind_inr)%bind_inr.
  unfold parsedArtifact. cbn. split_and!; eauto.
Qed.

Lemma filePatternLoop_invariant pattern fuel lastIndex regularContent artifacts t st' t' :
  artifactsInvariant artifacts →
  filePatternLoop h fuel pattern lastIndex regularContent artifacts t = (inr st', t') →
  artifactsInvariant (snd st').
Proof.
  revert lastIndex regularContent artifacts t.
  induction fuel as [|fuel IH]; intros li rc arts t Hinv; simpl.
  { by intros [<- _]%ret_inr. }
  destruct (exec true pattern rc li) as [[m|] li']; [|by intros [<- _]%ret_inr].
  destruct (length arts <? 10)%nat eqn:El; [|by intros [<- _]%ret_inr].
  apply Nat.ltb_lt in El.
  destruct (looksLikeEdit _) eqn:Ee; [by apply IH|].
  destruct (looksLikeCode _); [by apply IH|].
  intros (a & t1 & Ha & Hloop)%bind_inr.
  apply makeArtifact_inr in Ha; [|done].
  apply IH in Hloop; [done|]. destruct Hinv as [Hall Hlen]. split.
  - apply Forall_app. split; [done|by constructor].
  - rewrite length_app. simpl. lia.
Qed.

Lemma inlinePatternLoop_invariant pattern fuel lastIndex regularContent artifacts t st' t' :
  artifactsInvariant artifacts →
  inlinePatternLoop h fuel pattern lastIndex regularContent artifacts t = (inr st', t') →
  artifactsInvariant (snd st').
Proof.
  revert lastIndex regularContent artifacts t.
  induction fuel as [|fuel IH]; intros li rc arts t Hinv; simpl.
  { by intros [<- _]%ret_inr. }
  destruct (exec true pattern rc li) as [[m|] li']; [|by intros [<- _]%ret_inr].
  destruct (length arts <? 5)%nat eqn:El; [|by intros [<- _]%ret_inr].
  apply Nat.ltb_lt in El.
  destruct (looksLikeEdit _) eqn:Ee; [by apply IH|].
  intros (a & t1 & Ha & Hloop)%bind_inr.
  apply makeArtifact_inr in Ha; [|done].
  apply IH in Hloop; [done|]. destruct Hinv as [Hall Hlen]. split.
  - apply Forall_app. split; [done|by constructor].
  - rewrite length_app. simpl. lia.
Qed.

Lemma forPatterns_invariant
    (loop : nat → regex → nat → jsstring → list Artifact → M (jsstring * list Artifact))
    patterns regularContent artifacts t st' t' :
  (∀ pattern fuel lastIndex regularContent artifacts t st' t',
     artifactsInvariant artifacts →
     loop fuel pattern lastIndex regularContent artifacts t = (inr st', t') →
     artifactsInvariant (snd st')) →
  artifactsInvariant artifacts →
  forPatterns loop patterns regularContent artifacts t = (inr st', t') →
  artifactsInvariant (snd st').
Proof.
  intros Hloop. revert regularContent artifacts t.
  induction patterns as [|pattern patterns IH]; intros rc arts t Hinv; simpl.
  { by intros [<- _]%ret_inr. }
  intros (st1 & t1 & H1 & H2)%bind_inr.
  apply Hloop in H1; [|done]. by apply IH in H2.
Qed.

(** What the [try] block returns. *)
Lemma parseBody_result message t r t' :
  parseBody h message t = (inr r, t') →
  artifactsInvariant (artifacts r)
  ∧ (∃ m, groupsConsistent m ∧ (length m ≤ 5)%nat ∧ edits r = map snd m)
  ∧ match metadata r with
    | Some md =>
        totalArtifacts md = length (artifacts r) ∧ totalEdits md = length (edits r)
        ∧ error md = None
    | None => artifacts r = [] ∧ edits r = []
    end.
Proof.
  assert (artifactsInvariant []) as Hnil by (split; [constructor|simpl; lia]).
  assert (groupsConsistent []) as Hgnil by (split; constructor).
  assert (∃ m, groupsConsistent m ∧ (length m ≤ 5)%nat ∧ [] = map snd m) as Hempty.
  { exists []. split_and!; [done|simpl; lia|done]. }
  unfold parseBody. destruct (falsy message || negb (isString message)).
  { intros [<- _]%ret_inr. cbn. by split_and!. }
  destruct message as [| | | |message|];
    try (intros [<- _]%ret_inr; cbn; by split_and!).
  cbv zeta.
  match goal with |- context [editBlockLoop 5 ?m 0] => generalize m end.
  intros limitedMessage.
  intros (st1 & t1 & H1 & (st2 & t2 & H2 & (st3 & t3 & H3
          & (p & t4 & _ & [<- _]%ret_inr)%bind_inr)%bind_inr)%bind_inr)%bind_inr.
  cbn [artifacts edits metadata totalArtifacts totalEdits error].
  apply processEditBlocks_consistent in H1 as [Hg Hl]; [|done].
  pose proof (editBlockLoop_length 5 limitedMessage 0) as Hn. cbn [snd length] in Hl.
  apply (forPatterns_invariant (filePatternLoop h)) in H2;
    [|apply filePatternLoop_invariant|done].
  apply (forPatterns_invariant (inlinePatternLoop h)) in H3;
    [|apply inlinePatternLoop_invariant|done].
  destruct H3 as [Hall Hlen].
  rewrite !take_ge by (rewrite ?length_map; lia).
  split_and!; try done.
  exists (snd st1). split_and!; [done|lia|done].
Qed.

Lemma earlier_parseBody_edits message t r t' :
  Earlier.parseBody h message t = (inr r, t') →
  ∃ m, groupsConsistent m ∧ Earlier.edits r = take 5 (map snd m).
Proof.
  assert (∃ m, groupsConsistent m ∧ [] = take 5 (map snd m)) as Hempty.
  { exists []. split; [split; constructor|done]. }
  unfold Earlier.parseBody. destruct (falsy message || negb (isString message)).
  { by intros [<- _]%ret_inr. }
  destruct message as [| | | |message|]; try by intros [<- _]%ret_inr.
  cbv zeta.
  match goal with |- context [editBlockLoop 5 ?m 0] => generalize m end.
  intros limitedMessage.
  intros (st1 & t1 & H1 & (st2 & t2 & _ & [<- _]%ret_inr)%bind_inr)%bind_inr.
  cbn [Earlier.edits].
  apply processEditBlocks_consistent in H1 as [Hg _]; [|split; constructor].
  by exists (snd st1).
Qed.

Lemma groups_of_map m :
  groupsConsistent m →
  NoDup (map Edit.path (map snd m))
  ∧ Forall (λ g, Edit.path g ≠ [] ∧ Edit.operations g ≠ []
                 ∧ Edit.operationCount g = length (Edit.operations g)) (map snd m).
Proof.
  intros [Hnd Hall]. split.
  - assert (map Edit.path (map snd m) = map fst m) as ->; [|done].
    rewrite map_map. apply map_ext_Forall. eapply Forall_impl; [exact Hall|].
    by intros kv (-> & _).
  - apply Forall_fmap. eapply Forall_impl; [exact Hall|]. by intros kv (_ & ? & ? & ?).
Qed.

End Patterns.

Lemma NoDup_paths_take n (gs : list Edit.EditGroup) :
  NoDup (map Edit.path gs) → NoDup (map Edit.path (take n gs)).
Proof.
  intros H. apply (sublist_NoDup (map Edit.path (take n gs)) (map Edit.path gs)); [done|].
  apply (fmap_sublist Edit.path), sublist_take.
Qed.

(** X9: the totals in the metadata [parseLLMResponse] returns are the
    lengths of the lists it returns: the loops stop at 10 artifacts and 5
    edit blocks, so [slice] never cuts anything off.  Without metadata,
    both lists are empty. *)
Theorem parse_totals_count_what_is_returned (h : Host) (message : jsval) (t : nat) :
  let r := fst (parseLLMResponse h message t) in
  match metadata r with
  | Some md =>
      totalArtifacts md = length (artifacts r) ∧ totalEdits md = length (edits r)
  | None => artifacts r = [] ∧ edits r = []
  end.
Proof.
  unfold parseLLMResponse.
  destruct (parseBody h message t) as [[e|r] t'] eqn:E; cbn; [done|].
  apply parseBody_result in E as (_ & _ & E). destruct (metadata r); tauto.
Qed.

(** X10: the edit groups [parseLLMResponse] returns have different paths,
    none of them empty, and each holds at least one operation and as many
    as its [operationCount] says; so do both revisions. *)
Theorem parse_edit_groups_consistent (h : Host) (message : jsval) (t : nat) :
  let es := edits (fst (parseLLMResponse h message t)) in
  let es' := Earlier.edits (fst (Earlier.parseLLMResponse h message t)) in
  let consistent g :=
    Edit.path g ≠ [] ∧ Edit.operations g ≠ []
    ∧ Edit.operationCount g = length (Edit.operations g) in
  NoDup (map Edit.path es) ∧ Forall consistent es
  ∧ NoDup (map Edit.path es') ∧ Forall consistent es'.
Proof.
  cbv zeta. unfold parseLLMResponse, Earlier.parseLLMResponse.
  assert (NoDup (map Edit.path []) ∧ ∀ P, Forall P (@nil Edit.EditGroup)) as [Hnd Hall].
  { split; constructor. }
  destruct (parseBody h message t) as [[e|r] t1] eqn:E;
    destruct (Earlier.parseBody h message t) as [[e'|r'] t2] eqn:E'; cbn [fst edits Earlier.edits].
  - by split_and!.
  - apply earlier_parseBody_edits in E' as (m & [Hn Hf]%groups_of_map & ->).
    split_and!; [done|done| |by apply Forall_take].
    by apply NoDup_paths_take.
  - apply parseBody_result in E as (_ & (m & [Hn Hf]%groups_of_map & _ & ->) & _).
    by split_and!.
  - apply parseBody_result in E as (_ & (m & [Hn Hf]%groups_of_map & _ & ->) & _).
    apply earlier_parseBody_edits in E' as (m' & [Hn' Hf']%groups_of_map & ->).
    split_and!; [done|done| |by apply Forall_take].
    by apply NoDup_paths_take.
Qed.

(** X11: every artifact [parseLLMResponse] returns has a path that came
    out of [validateAndSanitizePath], a content without any of the three
    markers of an edit, the number of lines and the length of that
    content, the type [file], the author [ai], and is not yet added to the
    project. *)
Theorem parse_artifacts_well_formed (h : Host) (message : jsval) (t : nat) :
  Forall parsedArtifact (artifacts (fst (parseLLMResponse h message t))).
Proof.
  unfold parseLLMResponse.
  destruct (parseBody h message t) as [[e|r] t'] eqn:E; cbn; [constructor|].
  by apply parseBody_result in E as ([? _] & _).
Qed.

End ParserFacts.

Module MatcherFacts.

Import Regex Notions RegexProps Terms JsFacts StringFacts.

Lemma reaches_refl st : reaches st st.
Proof. by exists []. Qed.

Lemma reaches_trans a b c : reaches a b → reaches b c → reaches a c.
Proof. intros [x Hx] [y Hy]. exists (x ++ y). by rewrite Hx, Hy, (assoc_L (++)). Qed.

Section Body.

Context (body : mstate → (mstate → option mstate) → option mstate).

Hypothesis body_reaches :
  ∀ st k res, body st k = Some res → ∃ st', k st' = Some res ∧ reaches st st'.

Lemma iterate_reaches greedy k n st res :
  iterate body greedy k n st = Some res →
  ∃ st', k st' = Some res ∧ reaches st st'.
Proof.
  revert st. induction n as [|n IHn]; intros st; rewrite iterate_eq; cbv zeta.
  - intros H. exists st. split; [|apply reaches_refl].
    destruct greedy; apply orElse_Some in H as [H|H]; done.
  - intros H.
    assert (body st (λ st', if (pos st' =? pos st)%nat then None
                            else iterate body greedy k n st') = Some res
            ∨ k st = Some res) as [Hagain|Hk].
    { destruct greedy; apply orElse_Some in H; tauto. }
    + apply body_reaches in Hagain as (st1 & H1 & A1).
      destruct (pos st1 =? pos st)%nat; [done|].
      apply IHn in H1 as (st2 & H2 & A2).
      exists st2. split; [done|]. by apply (reaches_trans _ st1).
    + exists st. split; [done|apply reaches_refl].
Qed.

End Body.

(** A match hands to its continuation a state whose input is an end part
    of the input it started with. *)
Lemma run_reaches ignoreCase r :
  ∀ st k res, run ignoreCase r st k = Some res →
    ∃ st', k st' = Some res ∧ reaches st st'.
Proof.
  induction r as [|c|cls|r1 IH1 r2 IH2|r1 IH1 r2 IH2|greedy r IH|i r IH| |];
    intros st k res; simpl.
  - intros H. exists st. split; [done|apply reaches_refl].
  - destruct st as [p [|x xs] cs]; simpl; [done|].
    destruct (sameChar ignoreCase c x); [|done]. intros H.
    eexists. split; [exact H|]. by exists [x].
  - destruct st as [p [|x xs] cs]; simpl; [done|].
    destruct (cls x); [|done]. intros H.
    eexists. split; [exact H|]. by exists [x].
  - intros (st1 & H1 & A1)%IH1. apply IH2 in H1 as (st2 & H2 & A2).
    exists st2. split; [done|]. by apply (reaches_trans _ st1).
  - intros [H|H]%orElse_Some; [by apply IH1|by apply IH2].
  - by apply iterate_reaches.
  - intros (st1 & H1 & A1)%IH. eexists. split; [exact H1|]. exact A1.
  - destruct (pos st =? 0)%nat; [|done]. intros H. exists st.
    split; [done|apply reaches_refl].
  - destruct (rest st); [|done]. intros H. exists st.
    split; [done|apply reaches_refl].
Qed.

Lemma searchFrom_eq ignoreCase r whole i suffix :
  searchFrom ignoreCase r whole i suffix =
  match run ignoreCase r {| pos := i; rest := suffix; caps := [] |} Some with
  | Some st => Some {| input := whole; mindex := i; mend := pos st; mcaps := caps st |}
  | None =>
      match suffix with
      | [] => None
      | _ :: suffix' => searchFrom ignoreCase r whole (S i) suffix'
      end
  end.
Proof. by destruct suffix. Qed.

(** *** Sequences and literals *)

Lemma run_seqs_cons ignoreCase r rs st k :
  run ignoreCase (seqs (r :: rs)) st k
  = run ignoreCase r st (λ st', run ignoreCase (seqs rs) st' k).
Proof. by destruct rs. Qed.

Lemma run_Seq ignoreCase r1 r2 st k :
  run ignoreCase (Seq r1 r2) st k
  = run ignoreCase r1 st (λ st', run ignoreCase r2 st' k).
Proof. reflexivity. Qed.

Lemma run_Group ignoreCase i r st k :
  run ignoreCase (Group i r) st k
  = run ignoreCase r st
      (λ st', k {| pos := pos st'; rest := rest st';
                   caps := (i, (pos st, pos st')) :: caps st' |}).
Proof. reflexivity. Qed.

Lemma sameChar_refl ignoreCase c : sameChar ignoreCase c c = true.
Proof. unfold sameChar. destruct ignoreCase; apply Ascii.eqb_refl. Qed.

Lemma run_Lit ignoreCase c p x tail cs k :
  run ignoreCase (Lit c) {| pos := p; rest := x :: tail; caps := cs |} k
  = if sameChar ignoreCase c x then k (stateAt p [x] tail cs) else None.
Proof. unfold stateAt. cbn. by rewrite Nat.add_1_r. Qed.

Lemma stateAt_nil p tail cs :
  stateAt p [] tail cs = {| pos := p; rest := tail; caps := cs |}.
Proof. unfold stateAt. cbn. by rewrite Nat.add_0_r. Qed.

Lemma stateAt_app p a b tail cs :
  stateAt p (a ++ b) tail cs = stateAt (p + length a) b tail cs.
Proof. unfold stateAt. rewrite length_app. f_equal. lia. Qed.

(** A literal word matches itself. *)
Lemma run_lits ignoreCase w p tail cs k :
  run ignoreCase (lits w) {| pos := p; rest := w ++ tail; caps := cs |} k
  = k (stateAt p w tail cs).
Proof.
  revert p. induction w as [|c w IH]; intros p.
  - by rewrite stateAt_nil.
  - destruct w as [|d w].
    + cbn [lits app]. by rewrite run_Lit, sameChar_refl.
    + change (lits (c :: d :: w)) with (Seq (Lit c) (lits (d :: w))).
      rewrite run_Seq, <- app_comm_cons, run_Lit, sameChar_refl.
      unfold stateAt at 1. cbn [length]. rewrite IH.
      change (c :: d :: w) with ([c] ++ d :: w). by rewrite stateAt_app.
Qed.

(** A literal word fails on an input that starts with another character. *)
Lemma run_lits_head ignoreCase c w st k :
  match rest st with
  | [] => True
  | x :: _ => sameChar ignoreCase c x = false
  end →
  run ignoreCase (lits (c :: w)) st k = None.
Proof.
  intros H. destruct st as [p [|x xs] cs]; cbn [rest] in H.
  - by destruct w.
  - destruct w; cbn; by rewrite H.
Qed.


Lemma run_Lit_head ignoreCase c st k :
  match rest st with
  | [] => True
  | x :: _ => sameChar ignoreCase c x = false
  end →
  run ignoreCase (Lit c) st k = None.
Proof. apply (run_lits_head ignoreCase c []). Qed.

(** *** Repetition of a class *)

Lemma run_Star ignoreCase greedy r st k :
  run ignoreCase (Star greedy r) st k
  = iterate (run ignoreCase r) greedy k (length (rest st)) st.
Proof. reflexivity. Qed.

Lemma run_Class ignoreCase cls p x tail cs k :
  run ignoreCase (Class cls) {| pos := p; rest := x :: tail; caps := cs |} k
  = if cls x then k (stateAt p [x] tail cs) else None.
Proof. unfold stateAt. cbn. by rewrite Nat.add_1_r. Qed.

Lemma run_Class_head ignoreCase cls st k :
  match rest st with
  | [] => True
  | x :: _ => cls x = false
  end →
  run ignoreCase (Class cls) st k = None.
Proof.
  intros H. destruct st as [p [|x xs] cs]; cbn [rest] in H; cbn; [done|]. by rewrite H.
Qed.

Lemma stateAt_pos p a tail cs x :
  (pos (stateAt p (x :: a) tail cs) =? p)%nat = false.
Proof. unfold stateAt. cbn. apply Nat.eqb_neq. lia. Qed.

Lemma iterate_greedy_class ignoreCase cls ws tail cs k n p :
  (length ws ≤ n)%nat →
  Forall (λ c, cls c = true) ws →
  match tail with [] => True | c :: _ => cls c = false end →
  (∀ a b, ws = a ++ b → a ≠ [] → k (stateAt p a (b ++ tail) cs) = None) →
  iterate (run ignoreCase (Class cls)) true k n
    {| pos := p; rest := ws ++ tail; caps := cs |}
  = k {| pos := p; rest := ws ++ tail; caps := cs |}.
Proof.
  revert n p. induction ws as [|x ws IH]; intros n p Hn Hall Htail Hk;
    rewrite iterate_eq; cbv zeta.
  - destruct n as [|n]; [done|]. by rewrite run_Class_head.
  - destruct n as [|n]; [simpl in Hn; lia|].
    apply Forall_cons in Hall as [Hx Hall].
    rewrite <- app_comm_cons, run_Class, Hx.
    cbn [pos]. rewrite stateAt_pos. unfold stateAt at 1. cbn [length].
    rewrite IH; [|simpl in Hn; lia|done|done|].
    + replace {| pos := p + 1; rest := ws ++ tail; caps := cs |}
        with (stateAt p [x] (ws ++ tail) cs) by done.
      by rewrite (Hk [x] ws).
    + intros a b -> Ha. rewrite <- (stateAt_app p [x] a).
      by rewrite (Hk ([x] ++ a) b).
Qed.

(** A greedy repetition of a class ends up taking nothing when the rest
    of the expression fails after each of the characters it can take. *)
Lemma run_star_greedy_class ignoreCase cls ws tail p cs k :
  Forall (λ c, cls c = true) ws →
  match tail with [] => True | c :: _ => cls c = false end →
  (∀ a b, ws = a ++ b → a ≠ [] → k (stateAt p a (b ++ tail) cs) = None) →
  run ignoreCase (Star true (Class cls)) {| pos := p; rest := ws ++ tail; caps := cs |} k
  = k {| pos := p; rest := ws ++ tail; caps := cs |}.
Proof.
  intros. rewrite run_Star. apply iterate_greedy_class; try done.
  cbn [rest]. rewrite length_app. lia.
Qed.

Lemma iterate_lazy_any ignoreCase s tail cs k res n p :
  (length s ≤ n)%nat →
  (∀ a b, s = a ++ b → b ≠ [] → k (stateAt p a (b ++ tail) cs) = None) →
  k (stateAt p s tail cs) = Some res →
  iterate (run ignoreCase anyChar) false k n
    {| pos := p; rest := s ++ tail; caps := cs |}
  = Some res.
Proof.
  revert n p. induction s as [|x s IH]; intros n p Hn Hk Hres;
    rewrite iterate_eq; cbv zeta.
  - rewrite stateAt_nil in Hres. cbn [app]. by rewrite Hres.
  - destruct n as [|n]; [simpl in Hn; lia|].
    pose proof (Hk [] (x :: s) eq_refl) as H0. rewrite stateAt_nil in H0.
    cbn [app] in H0. rewrite <- app_comm_cons, H0 by done. cbn [orElse].
    unfold anyChar. rewrite run_Class. cbn [pos]. rewrite stateAt_pos.
    unfold stateAt at 1. cbn [length]. apply IH; [simpl in Hn; lia| |].
    + intros a b -> Hb. rewrite <- (stateAt_app p [x] a). by apply (Hk ([x] ++ a) b).
    + rewrite <- (stateAt_app p [x] s). exact Hres.
Qed.

(** A lazy repetition of any character stops at the first place where the
    rest of the expression matches. *)
Lemma run_star_lazy_any ignoreCase s tail p cs k res :
  (∀ a b, s = a ++ b → b ≠ [] → k (stateAt p a (b ++ tail) cs) = None) →
  k (stateAt p s tail cs) = Some res →
  run ignoreCase (Star false anyChar) {| pos := p; rest := s ++ tail; caps := cs |} k
  = Some res.
Proof.
  intros. rewrite run_Star. apply iterate_lazy_any; try done.
  cbn [rest]. rewrite length_app. lia.
Qed.


(** *** The two idioms of the search/replace expression *)

Lemma firstLineHasText_spec s :
  firstLineHasText s = true →
  ∃ w c s', s = w ++ c :: s'
    ∧ Forall (λ x, isWhiteSpace x = true ∧ x ≠ LF) w ∧ isWhiteSpace c = false.
Proof.
  unfold firstLineHasText. induction s as [|x s IH]; cbn [dropWhile]; [done|].
  destruct (isWhiteSpace x && negb (Ascii.eqb x LF)) eqn:E.
  - intros (w & c & s' & -> & Hw & Hc)%IH. exists (x :: w), c, s'.
    split_and!; [done| |done]. constructor; [|done].
    apply andb_true_iff in E as [E1 E2]. split; [done|].
    apply negb_true_iff in E2. by apply Ascii.eqb_neq.
  - intros Hx%negb_true_iff. exists [], x, s. by split_and!.
Qed.

(** [\s*\n] before a line that holds text: the white space taken is given
    back, and the line break is the one in front of that line. *)
Lemma run_space_then_LF ignoreCase rs p w c text cs k :
  Forall (λ x, isWhiteSpace x = true ∧ x ≠ LF) w → isWhiteSpace c = false →
  run ignoreCase (seqs (Star true space :: Lit LF :: rs))
    {| pos := p; rest := LF :: w ++ c :: text; caps := cs |} k
  = run ignoreCase (seqs rs) (stateAt p [LF] (w ++ c :: text) cs) k.
Proof.
  intros Hw Hc. rewrite run_seqs_cons. unfold space.
  assert (∀ x, x ≠ LF → sameChar ignoreCase LF x = false) as Hother.
  { intros x Hx. unfold sameChar. destruct ignoreCase; apply Ascii.eqb_neq; [|done].
    intros E. apply Hx. revert E. clear.
    destruct x as [[] [] [] [] [] [] [] []]; by vm_compute. }
  change (LF :: w ++ c :: text) with ((LF :: w) ++ c :: text).
  rewrite run_star_greedy_class.
  - rewrite run_seqs_cons. change ((LF :: w) ++ c :: text) with (LF :: w ++ c :: text).
    by rewrite run_Lit, sameChar_refl.
  - constructor; [done|]. eapply Forall_impl; [exact Hw|]. by intros x [? _].
  - done.
  - intros a b Hab Ha. rewrite run_seqs_cons. apply run_Lit_head.
    unfold stateAt. cbn [rest].
    assert (Forall (λ x, x ≠ LF) (b ++ [c])) as Hall.
    { apply Forall_app. split.
      - assert (Forall (λ x, x ≠ LF) w) as Hw'.
        { eapply Forall_impl; [exact Hw|]. by intros x [_ ?]. }
        destruct a as [|y a]; [done|]. injection Hab as _ ->.
        by apply Forall_app in Hw' as [_ ?].
      - constructor; [|done]. intros ->. done. }
    destruct b as [|y b]; cbn [app] in *.
    + apply Hother. by apply Forall_cons in Hall as [? _].
    + apply Hother. by apply Forall_cons in Hall as [? _].
Qed.

(** [([\s\S]*?)\n] before a marker: the group ends at the first line
    break that is followed by the first character of the marker. *)
Lemma run_lazy_group_until g rs p s m marker text cs k res :
  includes s [LF; m] = false → m ≠ LF →
  run false (seqs rs)
    (stateAt p (s ++ LF :: m :: marker) text ((g, (p, (p + length s)%nat)) :: cs)) k
  = Some res →
  run false (seqs (Group g (Star false anyChar) :: Lit LF :: lits (m :: marker) :: rs))
    {| pos := p; rest := s ++ LF :: (m :: marker) ++ text; caps := cs |} k
  = Some res.
Proof.
  intros Hs Hm Hres. rewrite run_seqs_cons, run_Group.
  apply run_star_lazy_any.
  - intros a b -> Hb. rewrite run_seqs_cons. unfold stateAt. cbn [pos rest caps].
    destruct b as [|x b]; [done|]. clear Hb.
    destruct (decide (x = LF)) as [->|Hx].
    + rewrite <- app_comm_cons, run_Lit. cbn [sameChar]. rewrite Ascii.eqb_refl.
      rewrite run_seqs_cons. apply run_lits_head. unfold stateAt. cbn [rest].
      destruct b as [|y b]; cbn [app sameChar]; apply Ascii.eqb_neq.
      * done.
      * intros <-. rewrite includes_false in Hs.
        by apply (Hs a b).
    + apply run_Lit_head. cbn [rest app sameChar]. apply Ascii.eqb_neq. congruence.
  - unfold stateAt. cbn [pos rest caps].
    rewrite run_seqs_cons, run_Lit. cbn [sameChar]. rewrite Ascii.eqb_refl.
    rewrite run_seqs_cons. unfold stateAt. cbn [length].
    rewrite run_lits.
    rewrite <- Hres. f_equal. unfold stateAt. rewrite !length_app. cbn [length].
    f_equal. lia.
Qed.

End MatcherFacts.

Module BlockFacts.

Import Regex ResponseParser Notions RegexProps Terms JsFacts StringFacts MatcherFacts.

Lemma searchReplaceRegex_block s r :
  firstLineHasText s = true → firstLineHasText r = true →
  includes s [LF; "="%char] = false → includes r [LF; ">"%char] = false →
  run false searchReplaceRegex
    {| pos := 0; rest := searchReplaceBlock s r; caps := [] |} Some
  = Some {| pos := length (searchReplaceBlock s r); rest := [];
            caps := [ (2%nat, ((24 + length s)%nat, (24 + length s + length r)%nat));
                      (1%nat, (15%nat, (15 + length s)%nat)) ] |}.
Proof.
  intros (ws & cs & s' & Es & Hws & Hcs)%firstLineHasText_spec
         (wr & cr & r' & Er & Hwr & Hcr)%firstLineHasText_spec Hs Hr.
  unfold searchReplaceRegex, searchReplaceBlock, word.
  rewrite run_seqs_cons, run_lits. unfold stateAt at 1.
  set (afterSearch := LF :: str "=======" ++ LF :: r ++ LF :: str ">>>>>>> REPLACE").
  assert (s ++ afterSearch = ws ++ cs :: s' ++ afterSearch) as Hsx.
  { by rewrite Es, <- (assoc_L (++)). }
  rewrite Hsx, run_space_then_LF by done. rewrite <- Hsx. unfold stateAt at 1.
  unfold afterSearch.
  apply (run_lazy_group_until 1 _ _ s "="%char (str "======")); [done..|].
  unfold stateAt at 1.
  set (afterReplace := LF :: str ">>>>>>> REPLACE").
  assert (r ++ afterReplace = wr ++ cr :: r' ++ afterReplace) as Hrx.
  { by rewrite Er, <- (assoc_L (++)). }
  rewrite Hrx, run_space_then_LF by done. rewrite <- Hrx. unfold stateAt at 1.
  unfold afterReplace.
  rewrite <- (app_nil_r (str ">>>>>>> REPLACE")).
  apply (run_lazy_group_until 2 [] _ r ">"%char (str ">>>>>> REPLACE")); [done..|].
  cbn [seqs run]. f_equal. unfold stateAt.
  rewrite ?app_nil_r. repeat (rewrite length_app || (progress cbn [length])).
  change (length (str "<<<<<<< SEARCH")) with 14%nat.
  change (length (str "=======")) with 7%nat.
  change (length (str "======")) with 6%nat.
  change (length (str ">>>>>>> REPLACE")) with 15%nat.
  change (length (str ">>>>>> REPLACE")) with 14%nat.
  repeat first [lia | progress f_equal].
Qed.


Lemma searchReplaceLoop_eq n content lastIndex :
  searchReplaceLoop n content lastIndex =
  match exec false searchReplaceRegex content lastIndex with
  | (Some m, lastIndex') =>
      match n with
      | O => []
      | S n' =>
          {| PatchEngine.search := groupText 1 m;
             PatchEngine.replace := groupText 2 m;
             PatchEngine.type := str "search_replace" |}
          :: searchReplaceLoop n' content lastIndex'
      end
  | (None, _) => []
  end.
Proof. by destruct n. Qed.

(** At the end of the content the expression finds nothing more. *)
Lemma exec_searchReplace_end content :
  exec false searchReplaceRegex content (length content) = (None, 0%nat).
Proof.
  unfold exec. rewrite Nat.ltb_irrefl, drop_all, searchFrom_eq.
  unfold searchReplaceRegex, word. rewrite run_seqs_cons.
  change (str "<<<<<<< SEARCH") with ("<"%char :: str "<<<<<< SEARCH").
  by rewrite run_lits_head.
Qed.

Lemma block_length s r : (20 ≤ length (searchReplaceBlock s r))%nat.
Proof.
  unfold searchReplaceBlock. repeat (rewrite length_app || (progress cbn [length])).
  change (length (str "<<<<<<< SEARCH")) with 14%nat.
  change (length (str ">>>>>>> REPLACE")) with 15%nat. lia.
Qed.

(** The loop of [parseSearchReplace] on one block. *)
Lemma searchReplaceLoop_block search replace :
  firstLineHasText search = true → firstLineHasText replace = true →
  includes search [LF; "="%char] = false → includes replace [LF; ">"%char] = false →
  searchReplaceLoop 10 (searchReplaceBlock search replace) 0
  = [ {| PatchEngine.search := search; PatchEngine.replace := replace;
         PatchEngine.type := str "search_replace" |} ].
Proof.
  intros Hs1 Hr1 Hs2 Hr2. rewrite searchReplaceLoop_eq. unfold exec at 1.
  cbn [Nat.ltb Nat.leb]. rewrite drop_0, searchFrom_eq.
  rewrite searchReplaceRegex_block by done. cbn [pos caps mend].
  rewrite searchReplaceLoop_eq, exec_searchReplace_end.
  unfold groupText, group. cbn [mcaps lookupCapture Nat.eqb input].
  f_equal. f_equal.
  - unfold searchReplaceBlock.
    replace (15 + length search - 15)%nat with (length search) by lia.
    change (str "<<<<<<< SEARCH" ++ LF :: search ++ ?x)
      with ((str "<<<<<<< SEARCH" ++ [LF]) ++ search ++ x).
    rewrite drop_app_length'; [|done]. by rewrite take_app_length.
  - unfold searchReplaceBlock.
    replace (24 + length search + length replace - (24 + length search))%nat
      with (length replace) by lia.
    replace (str "<<<<<<< SEARCH" ++ LF :: search ++ LF :: str "=======" ++ LF :: replace
             ++ LF :: str ">>>>>>> REPLACE")
      with ((str "<<<<<<< SEARCH" ++ LF :: search ++ LF :: str "=======" ++ [LF])
            ++ replace ++ LF :: str ">>>>>>> REPLACE").
    2:{ rewrite <- !(assoc_L (++)). cbn [app]. f_equal. f_equal.
        by rewrite <- !(assoc_L (++)). }
    rewrite drop_app_length'; [by rewrite take_app_length|].
    repeat (rewrite length_app || (progress cbn [length])).
    change (length (str "<<<<<<< SEARCH")) with 14%nat.
    change (length (str "=======")) with 7%nat. lia.
Qed.

Lemma block_guards s r :
  falsy (VStr (searchReplaceBlock s r)) = false
  ∧ (length (searchReplaceBlock s r) <? 20)%nat = false.
Proof.
  pose proof (block_length s r) as Hlen. split.
  - cbn. by destruct (searchReplaceBlock s r).
  - apply Nat.ltb_ge. lia.
Qed.

(** X12: [parseSearchReplace] reads a block in the prompt's format back
    as the one operation it was written from, when the first line of the
    search text and of the replacement holds a character that is not white
    space, no later line of the search text starts with [=], and no later
    line of the replacement starts with [>]. *)
Theorem parseSearchReplace_reads_block_back (search replace : jsstring) :
  firstLineHasText search = true → firstLineHasText replace = true →
  includes search [LF; "="%char] = false → includes replace [LF; ">"%char] = false →
  parseSearchReplace (VStr (searchReplaceBlock search replace))
  = [ {| PatchEngine.search := search; PatchEngine.replace := replace;
         PatchEngine.type := str "search_replace" |} ].
Proof.
  intros Hs1 Hr1 Hs2 Hr2. unfold parseSearchReplace.
  destruct (block_guards search replace) as [-> ->]. cbn [orb].
  by apply searchReplaceLoop_block.
Qed.


Lemma parseSearchReplace_reads_block_back_witness :
  firstLineHasText (Samples.lines ["  print(1)"; "  print(2)"]) = true
  ∧ firstLineHasText (str "  print(3)") = true
  ∧ includes (Samples.lines ["  print(1)"; "  print(2)"]) [LF; "="%char] = false
  ∧ includes (str "  print(3)") [LF; ">"%char] = false
  ∧ parseSearchReplace
      (VStr (Samples.lines [ "<<<<<<< SEARCH"; "  print(1)"; "  print(2)"; "=======";
                             "  print(3)"; ">>>>>>> REPLACE" ]))
    = [ Samples.operation (Samples.lines ["  print(1)"; "  print(2)"]) (str "  print(3)") ].
Proof.
  split_and!; [reflexivity..|].
  exact (parseSearchReplace_reads_block_back
           (Samples.lines ["  print(1)"; "  print(2)"]) (str "  print(3)")
           eq_refl eq_refl eq_refl eq_refl).
Defined.

(** The hypothesis on the first line is needed: a search text that starts
    with an empty line comes back without it. *)
Example parseSearchReplace_drops_leading_blank_line :
  parseSearchReplace (VStr (searchReplaceBlock (Samples.lines [""; "a"]) (str "b")))
  = [ Samples.operation (str "a") (str "b") ].
Proof. by vm_compute. Qed.

End BlockFacts.

Module ProseFacts.

Import PathSanitizer ArtifactReconciler Regex ResponseParser Notions RegexProps Terms
  JsFacts StringFacts MatcherFacts ParserProps.

Lemma sameChar_backquote ignoreCase x :
  sameChar ignoreCase "`"%char x = true → x = "`"%char.
Proof.
  destruct ignoreCase, x as [[] [] [] [] [] [] [] []]; by vm_compute.
Qed.

Lemma run_fence ignoreCase st k res :
  run ignoreCase (word "```") st k = Some res → ∃ tail, rest st = str "```" ++ tail.
Proof.
  destruct st as [p [|x1 [|x2 [|x3 tail]]] cs]; cbn; try done.
  - by destruct (sameChar ignoreCase "`"%char x1).
  - destruct (sameChar ignoreCase "`"%char x1); [|done]. cbn.
    by destruct (sameChar ignoreCase "`"%char x2).
  - destruct (sameChar ignoreCase "`"%char x1) eqn:E1; [|done]. cbn.
    destruct (sameChar ignoreCase "`"%char x2) eqn:E2; [|done]. cbn.
    destruct (sameChar ignoreCase "`"%char x3) eqn:E3; [|done].
    apply sameChar_backquote in E1, E2, E3. subst. by exists tail.
Qed.

(** An expression that needs a fence matches only where one follows. *)
Lemma run_needs_fence ignoreCase r st k res :
  needsFence r → run ignoreCase r st k = Some res →
  includes (rest st) (str "```") = true.
Proof.
  intros (rs1 & rs2 & ->). revert st.
  induction rs1 as [|r rs1 IH]; intros st; cbn [app]; rewrite run_seqs_cons.
  - intros [tail Ht]%run_fence. apply includes_true. by exists [], tail.
  - intros (st1 & H1 & [c Hc])%run_reaches. apply IH in H1.
    apply includes_true in H1 as (pre & post & Hp). apply includes_true.
    exists (c ++ pre), post. by rewrite Hc, Hp, <- (assoc_L (++)).
Qed.

Lemma includes_cons c s pat : includes s pat = true → includes (c :: s) pat = true.
Proof.
  rewrite !includes_true. intros (pre & post & ->). by exists (c :: pre), post.
Qed.

Lemma searchFrom_none ignoreCase r whole i suffix :
  needsFence r → includes suffix (str "```") = false →
  searchFrom ignoreCase r whole i suffix = None.
Proof.
  intros Hr. revert i. induction suffix as [|c suffix IH]; intros i Hs;
    rewrite searchFrom_eq.
  - destruct (run _ _ _ _) as [st|] eqn:E; [|done].
    apply (run_needs_fence _ _ _ _ _ Hr) in E. cbn [rest] in E. congruence.
  - destruct (run _ _ _ _) as [st|] eqn:E.
    + apply (run_needs_fence _ _ _ _ _ Hr) in E. cbn [rest] in E. congruence.
    + apply IH. destruct (includes suffix _) eqn:Ei; [|done].
      apply (includes_cons c) in Ei. congruence.
Qed.


Lemma exec_none ignoreCase r s lastIndex :
  needsFence r → includes s (str "```") = false →
  exec ignoreCase r s lastIndex = (None, 0%nat).
Proof.
  intros Hr Hs. unfold exec. destruct (_ <? _)%nat; [done|].
  rewrite searchFrom_none; [done..|].
  destruct (includes (drop lastIndex s) _) eqn:E; [|done].
  apply includes_true in E as (pre & post & E).
  assert (includes s (str "```") = true); [|congruence].
  apply includes_true. exists (take lastIndex s ++ pre), post.
  by rewrite <- (assoc_L (++)), <- E, take_drop.
Qed.

Lemma patterns_need_fence :
  Forall needsFence (editBlockRegex :: filePatterns ++ inlineFilePatterns).
Proof.
  repeat constructor.
  1-4: eexists [], _; reflexivity.
  1-2: eexists [_; _; _; _; _], _; reflexivity.
  eexists [_; _; _; _; _; _; _], _; reflexivity.
Qed.

(** The text the parser works on holds a fence only if the message does. *)
Lemma limited_without_fence message :
  includes message (str "```") = false →
  includes (if 50000 <? Z.of_nat (length message)
            then substring message 0 50000 ++ truncationMark else message)
           (str "```") = false.
Proof.
  intros Hm. destruct (_ <? _); [|done].
  destruct (includes (_ ++ _) _) eqn:E; [|done]. exfalso.
  apply includes_true in E as (pre & post & E).
  assert ("`"%char ∉ truncationMark) as Hmark.
  { rewrite list_elem_of_In. cbn. intuition discriminate. }
  assert (substring message 0 50000 = take (Z.to_nat 50000) message) as Hsub.
  { rewrite <- (Z2Nat.id 50000) at 1 by lia. apply substring_0. }
  rewrite Hsub in E.
  assert (includes message (str "```") = true); [|congruence].
  apply includes_true.
  apply app_eq_inv in E as [(k & Ek & Ep)|(k & Ek & Ep)].
  - (* the fence starts inside the message *)
    destruct k as [|x1 [|x2 [|x3 k]]].
    + apply (f_equal (λ l, l !! 0%nat)) in Ep. by cbn in Ep.
    + apply (f_equal (λ l, l !! 1%nat)) in Ep. by cbn in Ep.
    + apply (f_equal (λ l, l !! 2%nat)) in Ep. by cbn in Ep.
    + pose proof (f_equal (take 3) Ep) as Et. pose proof (f_equal (drop 3) Ep) as Ed.
      cbn [str list_ascii_of_string app take drop] in Et, Ed. rewrite !take_0 in Et.
      exists pre, (k ++ drop (Z.to_nat 50000) message).
      rewrite <- (take_drop (Z.to_nat 50000) message) at 1. rewrite Ek.
      change (x1 :: x2 :: x3 :: k) with ([x1; x2; x3] ++ k). rewrite <- Et.
      by rewrite <- !(assoc_L (++)).
  - exfalso. apply Hmark. rewrite Ep. apply elem_of_app. right. by left.
Qed.

Section Prose.

Context (h : Host).

Lemma editBlockLoop_none n limitedMessage :
  includes limitedMessage (str "```") = false →
  editBlockLoop n limitedMessage 0 = [].
Proof.
  intros H. destruct n; cbn [editBlockLoop]; rewrite exec_none; try done;
    by apply (Forall_inv patterns_need_fence).
Qed.

Lemma forPatterns_none
    (loop : nat → regex → nat → jsstring → list Artifact → M (jsstring * list Artifact))
    patterns regularContent artifacts t :
  (∀ fuel pattern artifacts t, needsFence pattern →
     loop (S fuel) pattern 0%nat regularContent artifacts t
     = (inr (regularContent, artifacts), t)) →
  Forall needsFence patterns →
  forPatterns loop patterns regularContent artifacts t
  = (inr (regularContent, artifacts), t).
Proof.
  intros Hloop. induction 1 as [|pattern patterns Hp _ IH]; [done|].
  cbn [forPatterns]. unfold bind. rewrite Hloop by done. apply IH.
Qed.

Lemma filePatternLoop_none fuel pattern regularContent artifacts t :
  includes regularContent (str "```") = false → needsFence pattern →
  filePatternLoop h (S fuel) pattern 0%nat regularContent artifacts t
  = (inr (regularContent, artifacts), t).
Proof. intros Hc Hp. cbn [filePatternLoop]. by rewrite exec_none. Qed.

Lemma inlinePatternLoop_none fuel pattern regularContent artifacts t :
  includes regularContent (str "```") = false → needsFence pattern →
  inlinePatternLoop h (S fuel) pattern 0%nat regularContent artifacts t
  = (inr (regularContent, artifacts), t).
Proof. intros Hc Hp. cbn [inlinePatternLoop]. by rewrite exec_none. Qed.

Lemma earlier_filePatternLoop_none fuel pattern regularContent artifacts t :
  includes regularContent (str "```") = false → needsFence pattern →
  Earlier.filePatternLoop h (S fuel) pattern 0%nat regularContent artifacts t
  = (inr (regularContent, artifacts), t).
Proof. intros Hc Hp. cbn [Earlier.filePatternLoop]. by rewrite exec_none. Qed.

Lemma earlier_forPatterns_none patterns regularContent artifacts t :
  includes regularContent (str "```") = false →
  Forall needsFence patterns →
  Earlier.forPatterns h patterns regularContent artifacts t
  = (inr (regularContent, artifacts), t).
Proof.
  intros Hc. induction 1 as [|pattern patterns Hp _ IH]; [done|].
  cbn [Earlier.forPatterns]. unfold bind.
  rewrite earlier_filePatternLoop_none by done. apply IH.
Qed.

Lemma parseBody_prose message t :
  message ≠ [] → includes message (str "```") = false →
  let limitedMessage :=
    if 50000 <? Z.of_nat (length message)
    then substring message 0 50000 ++ truncationMark else message in
  parseBody h (VStr message) t
  = (inr {| content := VStr (cleanUp limitedMessage);
            artifacts := []; edits := [];
            instructions := Some (parseInstructions (cleanUp limitedMessage));
            metadata := Some {| totalArtifacts := 0; totalEdits := 0;
                                parsedAt := toISOString h t; error := None |} |},
     S t)
  ∧ Earlier.parseBody h (VStr message) t
    = (inr {| Earlier.content := VStr (cleanUp limitedMessage);
              Earlier.artifacts := []; Earlier.edits := [] |}, t).
Proof.
  intros Hne Hm. pose proof (limited_without_fence message Hm) as Hl. cbv zeta.
  pose proof patterns_need_fence as Hp. apply Forall_cons in Hp as [_ Hp].
  apply Forall_app in Hp as [Hfile Hinline].
  unfold parseBody, Earlier.parseBody.
  assert (falsy (VStr message) || negb (isString (VStr message)) = false) as ->.
  { by destruct message. }
  revert Hl. generalize (if 50000 <? Z.of_nat (length message)
                         then substring message 0 50000 ++ truncationMark else message).
  intros limitedMessage Hl. cbv zeta. rewrite editBlockLoop_none by done.
  cbn [processEditBlocks]. unfold bind at 1 5. unfold ret at 1 3. cbn [fst snd map].
  split.
  - unfold bind at 1.
    rewrite (forPatterns_none (filePatternLoop h));
      [|intros; by apply filePatternLoop_none|done].
    unfold bind at 1. cbn [fst snd].
    rewrite (forPatterns_none (inlinePatternLoop h));
      [|intros; by apply inlinePatternLoop_none|done].
    reflexivity.
  - unfold bind. by rewrite earlier_forPatterns_none.
Qed.

End Prose.

(** X13: a message without three backquotes in a row has no artifacts
    and no edits: [parseLLMResponse] returns its text, cut to 50000
    characters and cleaned up, with the instructions found in it, and makes
    one call of the host, for the time stamp; so do both revisions, the
    earlier one without a call. *)
Theorem parse_prose_passes_through (h : Host) (message : jsstring) (t : nat) :
  message ≠ [] → includes message (str "```") = false →
  let limitedMessage :=
    if 50000 <? Z.of_nat (length message)
    then substring message 0 50000 ++ truncationMark else message in
  parseLLMResponse h (VStr message) t
  = ({| content := VStr (cleanUp limitedMessage);
        artifacts := []; edits := [];
        instructions := Some (parseInstructions (cleanUp limitedMessage));
        metadata := Some {| totalArtifacts := 0; totalEdits := 0;
                            parsedAt := toISOString h t; error := None |} |},
     S t)
  ∧ Earlier.parseLLMResponse h (VStr message) t
    = ({| Earlier.content := VStr (cleanUp limitedMessage);
          Earlier.artifacts := []; Earlier.edits := [] |}, t).
Proof.
  intros Hne Hm. destruct (parseBody_prose h message t Hne Hm) as [H1 H2].
  cbv zeta in *. unfold parseLLMResponse, Earlier.parseLLMResponse.
  by rewrite H1, H2.
Qed.


Lemma parse_prose_passes_through_witness :
  str "First, say hello." ≠ []
  ∧ includes (str "First, say hello.") (str "```") = false
  ∧ fst (parseLLMResponse Samples.quietHost (VStr (str "First, say hello.")) 0)
    = {| content := VStr (str "First, say hello.");
         artifacts := []; edits := [];
         instructions := Some [ str "First, say hello." ];
         metadata := Some {| totalArtifacts := 0; totalEdits := 0;
                             parsedAt := str "2023-11-14T22:13:20.000Z";
                             error := None |} |}.
Proof.
  split_and!; [done|reflexivity|].
  destruct (parse_prose_passes_through Samples.quietHost (str "First, say hello.") 0%nat)
    as [Hnow _]; [done|reflexivity|].
  cbv zeta in Hnow. rewrite Hnow. reflexivity.
Defined.

End ProseFacts.

Module SimilarityFacts.

Import PathSanitizer Regex Similarity JsFacts.

Example similarity_samples :
  calculateSimilarity (str "a  b") (str " a b ") = Fin 1
  ∧ calculateSimilarity (str "a b c") (str "b") = Fin (9 # 10)
  ∧ calculateSimilarity (str "a b c") (str "c d") = Fin (1 # 4)
  ∧ splitRegex false spacesRegex (str "a  b c") = [str "a"; str "b"; str "c"]
  ∧ splitRegex false spacesRegex (str " a ") = [[]; str "a"; []]
  ∧ splitRegex false spacesRegex [] = [[]].
Proof. split_and!; by vm_compute. Qed.


Lemma strEq_sym a b : strEq a b = strEq b a.
Proof.
  destruct (strEq b a) eqn:E.
  - apply strEq_true. apply strEq_true in E. done.
  - apply strEq_false. apply strEq_false in E. congruence.
Qed.

(** The set of the elements of the first set that the second has is the
    intersection, and the set of the elements of both is the union. *)
Lemma intersection_set (set1 set2 : gset jsstring) :
  newSet (List.filter (λ x, bool_decide (x ∈ set2)) (elements set1)) = set1 ∩ set2.
Proof.
  unfold newSet. apply set_eq. intros x.
  rewrite elem_of_list_to_set, list_elem_of_In, filter_In, <- list_elem_of_In,
    elem_of_elements, bool_decide_eq_true, elem_of_intersection. done.
Qed.

Lemma union_set (set1 set2 : gset jsstring) :
  newSet (elements set1 ++ elements set2) = set1 ∪ set2.
Proof.
  unfold newSet. apply set_eq. intros x.
  by rewrite elem_of_list_to_set, elem_of_app, !elem_of_elements, elem_of_union.
Qed.

Lemma splitFrom_nonempty ignoreCase r piece q suffix skip :
  splitFrom ignoreCase r piece q suffix skip ≠ [].
Proof.
  revert piece q skip. induction suffix as [|c suffix IH]; intros piece q skip; [done|].
  cbn [splitFrom]. destruct skip; [|apply IH].
  destruct (run _ _ _ _); [|apply IH].
  cbv zeta. destruct (_ =? _)%nat; [apply IH|]. by destruct (_ =? _)%nat.
Qed.

(** Splitting at white space gives at least one piece. *)
Lemma split_spaces_nonempty s : splitRegex false spacesRegex s ≠ [].
Proof.
  destruct s as [|c s]; [by vm_compute|]. apply splitFrom_nonempty.
Qed.

Lemma newSet_nonempty xs : xs ≠ [] → newSet xs ≠ ∅.
Proof.
  destruct xs as [|x xs]; [done|]. intros _ E.
  assert (x ∈ newSet (x :: xs)) as Hx by (apply elem_of_list_to_set; by left).
  rewrite E in Hx. by apply not_elem_of_empty in Hx.
Qed.

(** X14: [calculateSimilarity] gives the same number for two texts in
    either order. *)
Theorem calculateSimilarity_symmetric (str1 str2 : jsstring) :
  calculateSimilarity str1 str2 = calculateSimilarity str2 str1.
Proof.
  unfold calculateSimilarity. rewrite (strEq_sym str2 str1).
  destruct (strEq str1 str2); [done|]. cbv zeta.
  match goal with |- context [strEq ?a ?b] => rewrite (strEq_sym b a) end.
  destruct (strEq _ _); [done|].
  match goal with |- context [includes ?a ?b || includes ?b ?a] =>
    rewrite (orb_comm (includes b a) (includes a b)) end.
  destruct (_ || _); [done|].
  rewrite !intersection_set, !union_set.
  match goal with |- context [?a ∩ ?b] =>
    rewrite (comm_L (∩) b a), (comm_L (∪) b a) end.
  done.
Qed.

(** X15: [calculateSimilarity] returns a number between 0 and 1, never
    [NaN]: splitting gives at least one word, so the union it divides by
    is not empty. *)
Theorem calculateSimilarity_is_a_ratio (str1 str2 : jsstring) :
  ∃ q, calculateSimilarity str1 str2 = Fin q ∧ (0 <= q)%Q ∧ (q <= 1)%Q.
Proof.
  unfold calculateSimilarity.
  destruct (strEq str1 str2); [by exists 1%Q|]. cbv zeta.
  destruct (strEq _ _); [by exists 1%Q|].
  destruct (_ || _); [by exists (9 # 10)%Q|].
  rewrite intersection_set, union_set.
  match goal with |- context [?a ∩ ?b] => set (set1 := a); set (set2 := b) end.
  assert (size (set1 ∩ set2) ≤ size (set1 ∪ set2))%nat as Hle.
  { apply subseteq_size. intros x [Hx _]%elem_of_intersection.
    apply elem_of_union. by left. }
  assert (size (set1 ∪ set2) ≠ 0)%nat as Hpos.
  { intros Hz%size_empty_inv%leibniz_equiv.
    apply empty_union_L in Hz as [Hz _]. revert Hz. apply newSet_nonempty.
    apply split_spaces_nonempty. }
  unfold divide. rewrite (proj2 (Nat.eqb_neq _ _) Hpos).
  eexists. split; [reflexivity|]. unfold Qle. cbn [Qnum Qden].
  rewrite Z.mul_1_r, Z.mul_1_l. split; [lia|].
  rewrite <- positive_nat_Z, Nat2Pos.id by done. lia.
Qed.

End SimilarityFacts.

Module WorkspaceFacts.

Import PathSanitizer ArtifactReconciler ResponseParser Workspace Scenes JsFacts Notions
  ReconcilerProps PatchProps ParserProps.

Lemma handleArtifactUpdate_inr h v newArtifacts t requests t' :
  handleArtifactUpdate h v newArtifacts t = (inr requests, t') →
  if noConversation (currentConversationId v) then
    ∃ newConvId,
      requests = [ SetCurrentConversationId newConvId;
                   SetArtifacts {[ newConvId := deduplicateArtifacts newArtifacts ]};
                   SaveArtifactsAfter 50
                     {[ newConvId := deduplicateArtifacts newArtifacts ]} ]
  else
    requests
    = [ SetArtifacts (<[ propertyKey (currentConversationId v)
                         := deduplicateArtifacts newArtifacts ]> (artifacts v));
        SaveArtifactsAfter 50
          (<[ propertyKey (currentConversationId v)
              := deduplicateArtifacts newArtifacts ]> (artifacts v)) ].
Proof.
  unfold handleArtifactUpdate. destruct (noConversation _).
  - intros (newConvId & t1 & _ & [<- _]%ret_inr)%bind_inr. by exists newConvId.
  - by intros [<- _]%ret_inr.
Qed.

Lemma withContent_paths (test : Artifact → bool) text files :
  path <$> map (λ art, if test art then withContent art text else art) files
  = path <$> files.
Proof.
  induction files as [|a files IH]; [done|]. cbn. rewrite <- IH.
  by destruct (test a).
Qed.

(** What the handler asks for when it goes on to change the project. *)
Lemma handleApplyEditFromViewer_inr h v editId t events t' :
  handleApplyEditFromViewer h v editId t = (inr events, t') →
  events = []
  ∨ (∃ p, events = [ ConsoleError p; AlertShown (FileNotFound p) ])
  ∨ events = [ AlertShown NoOperationsApplied ]
  ∨ ∃ edit targetFile requests report t1,
      List.find (λ e, strEq (Edit.id e) editId) (currentEdits v) = Some edit
      ∧ findTargetFileForEdit (currentArtifacts v) (Edit.path edit) = Some targetFile
      ∧ let r := PatchEngine.applySearchReplace (Some (ArtifactReconciler.content targetFile))
                   (Some (Edit.operations edit)) in
        PatchEngine.appliedCount r ≠ 0%nat
        ∧ handleArtifactUpdate h v
            (map (λ art, if strEq (path art) (path targetFile)
                         then withContent art (resultText r) else art)
                 (currentArtifacts v)) t
          = (inr requests, t1)
        ∧ events = requests ++ [ AlertShown report ]
        ∧ (report = AppliedAll (PatchEngine.appliedCount r) (path targetFile)
           ∧ PatchEngine.appliedCount r = length (Edit.operations edit)
           ∨ ∃ failures,
               report = AppliedSome (PatchEngine.appliedCount r)
                          (length (Edit.operations edit)) (path targetFile) failures
               ∧ PatchEngine.appliedCount r ≠ length (Edit.operations edit)).
Proof.
  unfold handleApplyEditFromViewer.
  destruct (List.find _ (currentEdits v)) as [edit|] eqn:Efind;
    [|intros [<- _]%ret_inr; by left].
  destruct (findTargetFileForEdit _ _) as [targetFile|] eqn:Etarget;
    [|intros [<- _]%ret_inr; right; left; by eexists].
  cbv zeta. destruct (_ =? 0)%nat eqn:Ez; [intros [<- _]%ret_inr; by right; right; left|].
  apply Nat.eqb_neq in Ez.
  intros (requests & t1 & Hupdate & Hrest)%bind_inr.
  do 3 right. exists edit, targetFile, requests.
  destruct (_ =? length _)%nat eqn:Eall; apply ret_inr in Hrest as [<- _].
  - apply Nat.eqb_eq in Eall. eexists _, t1. split_and!; try done. by left.
  - apply Nat.eqb_neq in Eall. eexists _, t1. split_and!; try done. right. by eexists.
Qed.


Lemma withContent_related (test : Artifact → bool) text files :
  Forall2 (λ old new, new = old ∨ ∃ text, new = withContent old text) files
    (map (λ art, if test art then withContent art text else art) files).
Proof.
  induction files as [|a files IH]; cbn; constructor; [|done].
  destruct (test a); [right; by eexists|by left].
Qed.

(** X16: in a conversation whose files have different paths, whenever
    [handleApplyEditFromViewer] asks for new artifacts, the other
    conversations keep theirs, and the files of the current one keep their
    paths and their order: a file is left as it is or gets a new content,
    with every other field as before ([lineCount] and [size] too). *)
Theorem apply_edit_keeps_the_list_of_files
    (h : Host) (v : View) (editId : jsstring) (t : nat) (events : list Event) (t' : nat) :
  handleApplyEditFromViewer h v editId t = (inr events, t') →
  noConversation (currentConversationId v) = false →
  NoDup (path <$> currentArtifacts v) →
  ∀ updatedArtifacts, SetArtifacts updatedArtifacts ∈ events →
    (∀ k, k ≠ propertyKey (currentConversationId v) →
          updatedArtifacts !! k = artifacts v !! k)
    ∧ ∃ files,
        updatedArtifacts !! propertyKey (currentConversationId v) = Some files
        ∧ path <$> files = path <$> currentArtifacts v
        ∧ Forall2 (λ old new, new = old ∨ ∃ text, new = withContent old text)
            (currentArtifacts v) files.
Proof.
  intros Hrun Hconv Hnd m Hin.
  apply handleApplyEditFromViewer_inr in Hrun
    as [->|[(p & ->)|[->|(edit & targetFile & requests & report & t1 & _ & _ & Hrun)]]].
  - by apply elem_of_nil in Hin.
  - apply elem_of_cons in Hin as [?|Hin]; [done|].
    apply elem_of_cons in Hin as [?|Hin]; [done|]. by apply elem_of_nil in Hin.
  - apply elem_of_cons in Hin as [?|Hin]; [done|]. by apply elem_of_nil in Hin.
  - cbv zeta in Hrun. destruct Hrun as (_ & Hupdate & -> & _).
    apply handleArtifactUpdate_inr in Hupdate. rewrite Hconv in Hupdate. subst requests.
    cbn [app] in Hin.
    apply elem_of_cons in Hin as [[= ->]|Hin].
    2:{ apply elem_of_cons in Hin as [?|Hin]; [done|].
        apply elem_of_cons in Hin as [?|Hin]; [done|]. by apply elem_of_nil in Hin. }
    unfold deduplicateArtifacts. rewrite dedupe_fixed.
    + split.
      * intros k Hk. by rewrite lookup_insert_ne.
      * eexists. split; [apply lookup_insert_eq|].
        split; [apply withContent_paths|apply withContent_related].
    + by rewrite withContent_paths.
    + intros a _. apply not_elem_of_empty.
Qed.


Lemma appliedCount_at_most_20 original ops :
  (PatchEngine.appliedCount (PatchEngine.applySearchReplace original ops) ≤ 20)%nat.
Proof.
  destruct original as [[|c cs]|], ops as [[|o os]|]; try (cbn; lia).
  rewrite applySearchReplace_nonempty by done. cbv zeta. cbn [PatchEngine.appliedCount].
  match goal with |- context [fold_left PatchEngine.applyOperation ?l ?i] =>
    destruct (fold_applyOperation_tally l i) as (fs & _ & Hc & _) end.
  cbv zeta in Hc. rewrite sorted_length in Hc. cbn [PatchEngine.Loop.appliedCount] in Hc.
  lia.
Qed.

(** X17: for an edit of more than 20 operations,
    [handleApplyEditFromViewer] never reports that all changes were
    applied: [applySearchReplace] looks at the first 20 only, and the
    count is compared with the number of all operations. *)
Theorem apply_edit_never_complete_beyond_20_operations
    (h : Host) (v : View) (editId : jsstring) (t : nat) (events : list Event) (t' : nat)
    (edit : Edit.EditGroup) :
  handleApplyEditFromViewer h v editId t = (inr events, t') →
  List.find (λ e, strEq (Edit.id e) editId) (currentEdits v) = Some edit →
  (20 < length (Edit.operations edit))%nat →
  ∀ appliedCount p, AlertShown (AppliedAll appliedCount p) ∉ events.
Proof.
  intros Hrun Hfind Hlen n p Hin.
  apply handleApplyEditFromViewer_inr in Hrun
    as [->|[(p' & ->)|[->|(edit' & targetFile & requests & report & t1 & Hfind' & _
                           & Hrun)]]].
  - by apply elem_of_nil in Hin.
  - apply elem_of_cons in Hin as [?|Hin]; [done|].
    apply elem_of_cons in Hin as [?|Hin]; [done|]. by apply elem_of_nil in Hin.
  - apply elem_of_cons in Hin as [?|Hin]; [done|]. by apply elem_of_nil in Hin.
  - rewrite Hfind in Hfind'. injection Hfind' as <-.
    cbv zeta in Hrun. destruct Hrun as (_ & Hupdate & -> & Hreport).
    apply elem_of_app in Hin as [Hin|Hin].
    + apply handleArtifactUpdate_inr in Hupdate.
      destruct (noConversation _); [destruct Hupdate as [newConvId ->]|subst requests];
        repeat (apply elem_of_cons in Hin as [?|Hin]; [done|]); by apply elem_of_nil in Hin.
    + apply list_elem_of_singleton in Hin. injection Hin as <-.
      destruct Hreport as [[_ Hall]|(failures & ? & _)]; [|done].
      pose proof (appliedCount_at_most_20 (Some (ArtifactReconciler.content targetFile))
                    (Some (Edit.operations edit))). lia.
Qed.

(** X18: an edit whose target file is empty is refused:
    [applySearchReplace] hands an empty text back with the count 0, and
    [handleApplyEditFromViewer] shows the alert for no applied operation
    and asks for nothing else. *)
Theorem apply_edit_refused_on_empty_file
    (h : Host) (v : View) (editId : jsstring) (t : nat)
    (edit : Edit.EditGroup) (targetFile : Artifact) :
  List.find (λ e, strEq (Edit.id e) editId) (currentEdits v) = Some edit →
  findTargetFileForEdit (currentArtifacts v) (Edit.path edit) = Some targetFile →
  ArtifactReconciler.content targetFile = [] →
  handleApplyEditFromViewer h v editId t = (inr [ AlertShown NoOperationsApplied ], t).
Proof.
  intros Hfind Htarget Hempty. unfold handleApplyEditFromViewer.
  rewrite Hfind, Htarget, Hempty. cbv zeta. by destruct (Edit.operations edit).
Qed.


Example apply_edit_scenes :
  fst (handleApplyEditFromViewer Samples.quietHost project (str "edit-1") 0%nat)
  = inr [ SetArtifacts
            {[ str "conv-1" := [ withContent (file "greeting.txt" Samples.greeting)
                                   (str "bye wide world");
                                 file "empty.txt" [] ] ]};
          SaveArtifactsAfter 50
            {[ str "conv-1" := [ withContent (file "greeting.txt" Samples.greeting)
                                   (str "bye wide world");
                                 file "empty.txt" [] ] ]};
          AlertShown (AppliedAll 1 (str "greeting.txt")) ].
Proof. vm_compute. reflexivity. Qed.


Lemma apply_edit_keeps_the_list_of_files_witness :
  noConversation (currentConversationId project) = false
  ∧ NoDup (path <$> currentArtifacts project)
  ∧ ∃ files,
      ({[ str "conv-1" := [ withContent (file "greeting.txt" Samples.greeting)
                              (str "bye wide world");
                            file "empty.txt" [] ] ]} : gmap jsstring (list Artifact))
      !! propertyKey (currentConversationId project) = Some files
      ∧ path <$> files = path <$> currentArtifacts project.
Proof.
  assert (NoDup (path <$> currentArtifacts project)) as Hnd.
  { apply NoDup_cons. split; [|apply NoDup_singleton].
    intros H%list_elem_of_singleton. discriminate H. }
  split_and!; [reflexivity|exact Hnd|].
  destruct (apply_edit_keeps_the_list_of_files Samples.quietHost project (str "edit-1")
              0%nat _ _ eq_refl eq_refl Hnd _ (list_elem_of_here _ _))
    as (_ & files & Hfiles & Hpaths & _).
  exists files. by split.
Defined.

Lemma apply_edit_never_complete_beyond_20_operations_witness :
  (20 < length (Edit.operations
                  (editGroup "edit-2" "greeting.txt"
                     (replicate 21 (Samples.operation (str "e") (str "E"))))))%nat
  ∧ AlertShown (AppliedAll 20 (str "greeting.txt"))
    ∉ (match fst (handleApplyEditFromViewer Samples.quietHost project (str "edit-2") 0%nat)
       with inr events => events | inl _ => [] end).
Proof.
  assert (20 < length (Edit.operations
                         (editGroup "edit-2" "greeting.txt"
                            (replicate 21 (Samples.operation (str "e") (str "E"))))))%nat
    as Hlen by (cbn; lia).
  split; [exact Hlen|].
  destruct (handleApplyEditFromViewer Samples.quietHost project (str "edit-2") 0%nat)
    as [[e|events] t'] eqn:Hrun; cbn [fst]; [apply not_elem_of_nil|].
  exact (apply_edit_never_complete_beyond_20_operations Samples.quietHost project
           (str "edit-2") 0%nat events t' _ Hrun eq_refl Hlen 20%nat (str "greeting.txt")).
Defined.

Lemma apply_edit_refused_on_empty_file_witness :
  findTargetFileForEdit (currentArtifacts project) (str "empty.txt")
  = Some (file "empty.txt" [])
  ∧ handleApplyEditFromViewer Samples.quietHost project (str "edit-3") 0%nat
    = (inr [ AlertShown NoOperationsApplied ], 0%nat).
Proof.
  split; [reflexivity|].
  exact (apply_edit_refused_on_empty_file Samples.quietHost project (str "edit-3") 0%nat
           (editGroup "edit-3" "empty.txt" [ Samples.helloToBye ]) (file "empty.txt" [])
           eq_refl eq_refl eq_refl).
Defined.

End WorkspaceFacts.

Module EditBlockFacts.

Import PathSanitizer ArtifactReconciler Regex ResponseParser Notions RegexProps Terms
  JsFacts StringFacts MatcherFacts BlockFacts ProseFacts PathFacts ParserProps.

Lemma run_Alt ignoreCase r1 r2 st k :
  run ignoreCase (Alt r1 r2) st k
  = orElse (run ignoreCase r1 st k) (run ignoreCase r2 st k).
Proof. reflexivity. Qed.

Lemma orElse_first {A} (a b : option A) x : a = Some x → orElse a b = Some x.
Proof. by intros ->. Qed.

Lemma sameChar_LF ignoreCase x : sameChar ignoreCase LF x = true → x = LF.
Proof. destruct ignoreCase, x as [[] [] [] [] [] [] [] []]; by vm_compute. Qed.

Lemma sameChar_CR ignoreCase x : sameChar ignoreCase CR x = true → x = CR.
Proof. destruct ignoreCase, x as [[] [] [] [] [] [] [] []]; by vm_compute. Qed.

(** [\r?\n] at a line break that no carriage return precedes. *)
Lemma run_optional_CR_LF ignoreCase rs p tail cs k :
  run ignoreCase (seqs (Opt (Lit CR) :: Lit LF :: rs))
    {| pos := p; rest := LF :: tail; caps := cs |} k
  = run ignoreCase (seqs rs) (stateAt p [LF] tail cs) k.
Proof.
  rewrite run_seqs_cons. unfold Opt. rewrite run_Alt.
  rewrite run_Lit_head.
  2:{ cbn [rest]. by destruct ignoreCase. }
  cbn [orElse run]. by rewrite run_seqs_cons, run_Lit, sameChar_refl.
Qed.

(** [\r?\n] fails in front of a character that is not white space. *)
Lemma run_optional_CR_LF_head ignoreCase rs p x tail cs k :
  isWhiteSpace x = false →
  run ignoreCase (seqs (Opt (Lit CR) :: Lit LF :: rs))
    {| pos := p; rest := x :: tail; caps := cs |} k = None.
Proof.
  intros Hx. rewrite run_seqs_cons. unfold Opt. rewrite run_Alt.
  rewrite run_Lit_head.
  2:{ cbn [rest]. destruct (sameChar ignoreCase CR x) eqn:E; [|done].
      apply sameChar_CR in E as ->. by vm_compute in Hx. }
  cbn [orElse run]. rewrite run_seqs_cons. apply run_Lit_head.
  cbn [rest]. destruct (sameChar ignoreCase LF x) eqn:E; [|done].
  apply sameChar_LF in E as ->. by vm_compute in Hx.
Qed.

(** A fence does not start inside a text without backquote that a line
    break follows. *)
Lemma run_fence_head ignoreCase b tail p cs k :
  "`"%char ∉ b →
  run ignoreCase (word "```") {| pos := p; rest := b ++ LF :: tail; caps := cs |} k = None.
Proof.
  intros Hb. apply run_lits_head. cbn [rest].
  destruct b as [|y b]; cbn [app].
  - by destruct ignoreCase.
  - destruct (sameChar ignoreCase "`"%char y) eqn:E; [|done].
    apply sameChar_backquote in E as ->. exfalso. apply Hb. by left.
Qed.

(** [\r?\n```] matches nowhere inside a text without backquote, unless a
    carriage return is its last character. *)
Lemma run_closing_fence_inside ignoreCase b p cs k :
  b ≠ [] → b ≠ [CR] → "`"%char ∉ b →
  run ignoreCase (seqs [Opt (Lit CR); Lit LF; word "```"])
    {| pos := p; rest := b ++ LF :: str "```"; caps := cs |} k = None.
Proof.
  intros Hne Hcr Hb. destruct b as [|x b]; [done|]. clear Hne.
  assert ("`"%char ∉ b) as Hb'.
  { intros ?. apply Hb. by right. }
  rewrite run_seqs_cons. unfold Opt. rewrite run_Alt, <- app_comm_cons.
  assert (run ignoreCase (Lit CR) {| pos := p; rest := x :: b ++ LF :: str "```"; caps := cs |}
            (λ st', run ignoreCase (seqs [Lit LF; word "```"]) st' k) = None) as ->.
  { rewrite run_Lit. destruct (sameChar ignoreCase CR x) eqn:E; [|done].
    apply sameChar_CR in E as ->. destruct b as [|y b]; [done|].
    unfold stateAt. rewrite run_seqs_cons, <- app_comm_cons, run_Lit.
    destruct (sameChar ignoreCase LF y); [|done].
    unfold stateAt. cbn [seqs]. apply run_fence_head.
    intros ?. apply Hb'. by right. }
  cbn [orElse run]. rewrite run_seqs_cons, run_Lit.
  destruct (sameChar ignoreCase LF x); [|done].
  unfold stateAt. cbn [seqs]. by apply run_fence_head.
Qed.

Lemma iterate_greedy_class_all ignoreCase cls ws tail cs k res n p :
  (length ws ≤ n)%nat →
  Forall (λ c, cls c = true) ws →
  match tail with [] => True | c :: _ => cls c = false end →
  k (stateAt p ws tail cs) = Some res →
  iterate (run ignoreCase (Class cls)) true k n
    {| pos := p; rest := ws ++ tail; caps := cs |}
  = Some res.
Proof.
  revert n p. induction ws as [|x ws IH]; intros n p Hn Hall Htail Hres;
    rewrite iterate_eq; cbv zeta.
  - rewrite stateAt_nil in Hres. cbn [app].
    destruct n as [|n]; [done|]. by rewrite run_Class_head.
  - destruct n as [|n]; [simpl in Hn; lia|].
    apply Forall_cons in Hall as [Hx Hall].
    rewrite <- app_comm_cons, run_Class, Hx.
    cbn [pos]. rewrite stateAt_pos. unfold stateAt at 1. cbn [length].
    rewrite (IH n (p + 1)%nat); [done|simpl in Hn; lia|done|done|].
    by rewrite <- (stateAt_app p [x] ws).
Qed.

(** A greedy repetition of a class takes all the characters it can when
    the rest of the expression matches after them. *)
Lemma run_star_greedy_class_all ignoreCase cls ws tail p cs k res :
  Forall (λ c, cls c = true) ws →
  match tail with [] => True | c :: _ => cls c = false end →
  k (stateAt p ws tail cs) = Some res →
  run ignoreCase (Star true (Class cls)) {| pos := p; rest := ws ++ tail; caps := cs |} k
  = Some res.
Proof.
  intros. rewrite run_Star. apply iterate_greedy_class_all; try done.
  cbn [rest]. rewrite length_app. lia.
Qed.

(** The expression of the edit blocks on a fenced block whose body holds
    no backquote, starts with a character that is not white space and does
    not end with a carriage return. *)
Lemma editBlockRegex_block c body :
  isWhiteSpace c = false → "`"%char ∉ c :: body → last (c :: body) ≠ Some CR →
  run true editBlockRegex
    {| pos := 0; rest := str "```edit" ++ LF :: (c :: body) ++ LF :: str "```"; caps := [] |}
    Some
  = Some {| pos := 13 + length body; rest := [];
            caps := [ (1%nat, (8%nat, (9 + length body)%nat)) ] |}.
Proof.
  intros Hc Hq Hlast. unfold editBlockRegex, word.
  change (str "```edit" ++ ?x) with (str "```" ++ str "edit" ++ x).
  rewrite run_seqs_cons, run_lits. unfold stateAt at 1.
  rewrite run_seqs_cons. unfold Opt at 1. rewrite run_Alt. apply orElse_first.
  rewrite run_lits. unfold stateAt at 1.
  rewrite run_seqs_cons. unfold space.
  change (LF :: (c :: body) ++ ?x) with ([LF] ++ (c :: body) ++ x).
  rewrite run_star_greedy_class.
  2:{ repeat constructor. }
  2:{ by rewrite <- app_comm_cons. }
  2:{ intros a b E Ha. destruct a as [|a1 a]; [done|].
      destruct a as [|a2 a]; [|discriminate E]. cbn [app] in E.
      injection E as <- <-. unfold stateAt. rewrite <- app_comm_cons.
      by apply run_optional_CR_LF_head. }
  cbn [app]. rewrite run_optional_CR_LF. unfold stateAt at 1.
  rewrite run_seqs_cons, run_Group. rewrite app_comm_cons.
  apply run_star_lazy_any.
  - intros a b E Hb. unfold stateAt. cbn [pos rest caps].
    apply run_closing_fence_inside; [done| |].
    + intros ->. apply Hlast. rewrite E. by rewrite last_snoc.
    + intros ?. apply Hq. rewrite E. apply elem_of_app. by right.
  - unfold stateAt. cbn [pos rest caps]. rewrite run_optional_CR_LF.
    unfold stateAt. cbn [seqs pos rest caps].
    rewrite <- (app_nil_r (str "```")). unfold word. rewrite run_lits.
    unfold stateAt. rewrite ?app_nil_r. cbn [length].
    change (length (str "```")) with 3%nat. change (length (str "edit")) with 4%nat.
    match goal with
    | |- Some {| pos := ?a; rest := _; caps := [(_, (_, ?b))] |}
         = Some {| pos := ?c; rest := _; caps := [(_, (_, ?d))] |} =>
        replace a with c by lia; replace b with d by lia
    end.
    reflexivity.
Qed.


Lemma exec_fence_end ignoreCase r s :
  needsFence r → exec ignoreCase r s (length s) = (None, 0%nat).
Proof.
  intros Hr. unfold exec. rewrite Nat.ltb_irrefl, drop_all, searchFrom_eq.
  destruct (run _ _ _ _) eqn:E; [|done].
  by apply (run_needs_fence _ _ _ _ _ Hr) in E.
Qed.

Lemma editBlockLoop_eq n limitedMessage lastIndex :
  editBlockLoop n limitedMessage lastIndex =
  match exec true editBlockRegex limitedMessage lastIndex with
  | (Some m, lastIndex') =>
      match n with
      | O => []
      | S n' =>
          {| Block.fullMatch := matched m;
             Block.content := groupText 1 m;
             Block.index := mindex m |}
          :: editBlockLoop n' limitedMessage lastIndex'
      end
  | (None, _) => []
  end.
Proof. by destruct n. Qed.

(** The edit blocks of a message that is one fenced block. *)
Lemma editBlockLoop_block c body :
  isWhiteSpace c = false → "`"%char ∉ c :: body → last (c :: body) ≠ Some CR →
  let message := str "```edit" ++ LF :: (c :: body) ++ LF :: str "```" in
  editBlockLoop 5 message 0
  = [ {| Block.fullMatch := message; Block.content := c :: body; Block.index := 0 |} ].
Proof.
  intros Hc Hq Hlast message.
  assert (length message = (13 + length body)%nat) as Hlen.
  { unfold message. repeat (rewrite length_app || (progress cbn [length])).
    change (length (str "```edit")) with 7%nat. change (length (str "```")) with 3%nat.
    lia. }
  rewrite editBlockLoop_eq. unfold exec at 1. cbn [Nat.ltb Nat.leb].
  rewrite drop_0, searchFrom_eq. unfold message at 1.
  rewrite editBlockRegex_block by done. cbn [pos caps mend].
  rewrite editBlockLoop_eq, <- Hlen, exec_fence_end
    by apply (Forall_inv patterns_need_fence).
  unfold matched, groupText, group. cbn [mcaps lookupCapture Nat.eqb input mend mindex].
  f_equal. f_equal.
  - by rewrite drop_0, Nat.sub_0_r, firstn_all.
  - replace (9 + length body - 8)%nat with (length (c :: body)) by (cbn [length]; lia).
    unfold message.
    change (str "```edit" ++ LF :: ?x) with ((str "```edit" ++ [LF]) ++ x).
    rewrite drop_app_length'; [|done]. by rewrite take_app_length.
Qed.

(** The expression of the file marker on a line that is the marker
    [@@@], one space and a path. *)
Lemma fileMarkerRegex_line c path tail :
  isWhiteSpace c = false → Forall (λ x, isLineTerminator x = false) (c :: path) →
  run true fileMarkerRegex
    {| pos := 0; rest := str "@@@ " ++ (c :: path) ++ LF :: tail; caps := [] |} Some
  = Some {| pos := 5 + length path; rest := LF :: tail;
            caps := [ (1%nat, (4%nat, (5 + length path)%nat)) ] |}.
Proof.
  intros Hc Hline. apply Forall_cons in Hline as [Hc' Hline].
  unfold fileMarkerRegex. rewrite run_seqs_cons.
  change (alts (?r :: ?rs)) with (Alt r (alts rs)). rewrite run_Alt. apply orElse_first.
  change (str "@@@ " ++ ?x) with (str "@@@" ++ [" "%char] ++ x).
  unfold word. rewrite run_lits. unfold stateAt at 1.
  rewrite run_seqs_cons. unfold space. apply run_star_greedy_class_all.
  { by repeat constructor. }
  { by rewrite <- app_comm_cons. }
  unfold stateAt at 1. cbn [seqs]. rewrite run_Group. unfold Plus, dot.
  rewrite run_Seq, <- app_comm_cons, run_Class, Hc'. cbn [negb].
  unfold stateAt at 1. apply run_star_greedy_class_all.
  { eapply Forall_impl; [exact Hline|]. cbn. by intros x ->. }
  { done. }
  unfold stateAt. cbn [pos rest caps length].
  change (length (str "@@@")) with 3%nat.
  match goal with
  | |- Some {| pos := ?a; rest := _; caps := [(_, (_, ?b))] |}
       = Some {| pos := ?c; rest := _; caps := [(_, (_, ?d))] |} =>
      replace a with c by lia; replace b with d by lia
  end.
  reflexivity.
Qed.

Lemma trim_block s r : trim (LF :: searchReplaceBlock s r) = searchReplaceBlock s r.
Proof.
  unfold trim. change (trimStart (LF :: searchReplaceBlock s r)) with (searchReplaceBlock s r).
  assert (searchReplaceBlock s r
          = (str "<<<<<<< SEARCH" ++ LF :: s ++ LF :: str "=======" ++ LF :: r
             ++ LF :: str ">>>>>>> REPLAC") ++ ["E"%char]) as ->.
  { unfold searchReplaceBlock.
    repeat first [ reflexivity | rewrite <- (assoc_L (++)) | progress cbn [app]
                 | progress f_equal ]. }
  by apply trimEnd_fixed.
Qed.

Lemma replaceStr_prefix pat tail : replaceStr (pat ++ tail) pat [] = tail.
Proof.
  unfold replaceStr, indexOf. rewrite indexOfFrom_eq.
  assert (startsWith (pat ++ tail) pat = true) as ->.
  { apply startsWith_prefix. by exists tail. }
  change (Z.of_nat 0) with 0. change (Z.to_nat 0) with 0%nat.
  cbn [Z.eqb take app Nat.add]. by rewrite drop_app_length.
Qed.

Lemma length_dropWhile_le {A} (p : A → bool) l : (length (dropWhile p l) ≤ length l)%nat.
Proof.
  induction l as [|x l IH]; cbn [dropWhile length]; [done|].
  destruct (p x); cbn [length]; lia.
Qed.

(** [targetFile] and [editContent] of the body of such a block. *)
Lemma locateTarget_block path s r :
  cleanPath path = true →
  includes path (str ".") = true ∨ endsWith path (str "/") = true →
  Forall (λ x, isLineTerminator x = false) path →
  locateTarget (str "@@@ " ++ path ++ LF :: searchReplaceBlock s r)
  = (Some path, searchReplaceBlock s r).
Proof.
  intros Hclean Htyped Hline.
  pose proof Hclean as (Hne & _ & _ & _ & Htrim)%cleanPath_spec.
  destruct path as [|c path]; [done|].
  assert (isWhiteSpace c = false) as Hc.
  { destruct (isWhiteSpace c) eqn:E; [|done]. exfalso.
    unfold trim, trimStart in Htrim. cbn [dropWhile] in Htrim. rewrite E in Htrim.
    apply (f_equal length) in Htrim. unfold trimEnd in Htrim.
    rewrite length_rev in Htrim.
    pose proof (length_dropWhile_le isWhiteSpace (rev (dropWhile isWhiteSpace path))).
    pose proof (length_dropWhile_le isWhiteSpace path).
    rewrite length_rev in *. cbn [length] in Htrim. lia. }
  unfold locateTarget, matchFirst. rewrite searchFrom_eq, fileMarkerRegex_line by done.
  cbn [pos caps]. unfold matched, groupText, group.
  cbn [mcaps lookupCapture Nat.eqb input mend mindex].
  rewrite drop_0, Nat.sub_0_r.
  replace (5 + length path - 4)%nat with (length (c :: path)) by (cbn [length]; lia).
  f_equal.
  - f_equal. change (str "@@@ " ++ ?x) with (str "@@@ " ++ x).
    rewrite drop_app_length'; [|done]. rewrite take_app_length, Htrim.
    by apply sanitize_clean_fixed.
  - replace (take (5 + length path) (str "@@@ " ++ (c :: path) ++ LF :: searchReplaceBlock s r))
      with (str "@@@ " ++ c :: path).
    2:{ rewrite (assoc_L (++)). rewrite take_app_length'; [done|].
        rewrite length_app. cbn [length]. change (length (str "@@@ ")) with 4%nat. lia. }
    rewrite (assoc_L (++)), replaceStr_prefix. apply trim_block.
Qed.


Lemma block_snoc s r : ∃ init, searchReplaceBlock s r = init ++ ["E"%char].
Proof.
  exists (str "<<<<<<< SEARCH" ++ LF :: s ++ LF :: str "=======" ++ LF :: r
          ++ LF :: str ">>>>>>> REPLAC").
  unfold searchReplaceBlock.
  repeat first [ reflexivity | rewrite <- (assoc_L (++)) | progress cbn [app]
               | progress f_equal ].
Qed.

Lemma block_without_backquote s r :
  "`"%char ∉ s → "`"%char ∉ r → "`"%char ∉ searchReplaceBlock s r.
Proof.
  intros Hs Hr. unfold searchReplaceBlock.
  repeat (rewrite not_elem_of_app || rewrite not_elem_of_cons).
  split_and!; try done; intros H%list_elem_of_In; cbn in H; by repeat destruct H as [H|H].
Qed.

Lemma replaceStr_self s : replaceStr s s [] = [].
Proof. rewrite <- (app_nil_r s) at 1. apply replaceStr_prefix. Qed.

Lemma editMessage_eq path s r :
  editMessage path s r
  = str "```edit" ++ LF :: ("@"%char :: str "@@ " ++ path ++ LF :: searchReplaceBlock s r)
    ++ LF :: str "```".
Proof.
  unfold editMessage.
  repeat first [ reflexivity | rewrite <- (assoc_L (++)) | progress cbn [app]
               | progress f_equal ].
Qed.

Section EditBlock.

Context (h : Host).

Lemma processEditBlocks_block path s r mark t :
  cleanPath path = true →
  includes path (str ".") = true ∨ endsWith path (str "/") = true →
  Forall (λ c, isLineTerminator c = false) path →
  firstLineHasText s = true → firstLineHasText r = true →
  includes s [LF; "="%char] = false → includes r [LF; ">"%char] = false →
  "`"%char ∉ path ++ s ++ r →
  performanceNowBase36 h (t + 2) = inr mark →
  let message := editMessage path s r in
  processEditBlocks h (message, []) (editBlockLoop 5 message 0) t
  = (inr ([], [ (path,
                 singleEdit path s r (safeId h (str "edit-" ++ path) mark t)
                   (toISOString h (t + 3)) message) ]),
     (t + 4)%nat).
Proof.
  intros Hclean Htyped Hline Hs1 Hr1 Hs2 Hr2 Hq Hmark message.
  rewrite !elem_of_app in Hq.
  pose proof (block_without_backquote s r) as Hblock.
  destruct (block_snoc s r) as [init Hinit].
  unfold message. rewrite editMessage_eq, editBlockLoop_block.
  - rewrite <- editMessage_eq. fold message.
    cbn [processEditBlocks]. unfold bind at 1. unfold processEditBlock.
    cbn [Block.content Block.fullMatch].
    change ("@"%char :: str "@@ " ++ ?x) with (str "@@@ " ++ x).
    rewrite locateTarget_block by done. unfold parseSearchReplace.
    destruct (block_guards s r) as [-> ->]. cbn [orb].
    rewrite searchReplaceLoop_block by done.
    rewrite replaceStr_self.
    pose proof Hclean as (Hne & _)%cleanPath_spec.
    destruct path as [|c path]; [done|]. cbn [mapGet].
    unfold generateSafeId, now, bind, call, ret.
    replace (S (S t)) with (t + 2)%nat by lia. rewrite Hmark. cbn [app].
    replace (S (S (t + 2))) with (t + 4)%nat by lia.
    replace (S (t + 2)) with (t + 3)%nat by lia. reflexivity.
  - done.
  - apply not_elem_of_cons. split; [done|].
    rewrite !not_elem_of_app, not_elem_of_cons. split_and!; try tauto; [|done].
    intros H%list_elem_of_In. cbn in H. by repeat destruct H as [H|H].
  - rewrite Hinit.
    replace ("@"%char :: str "@@ " ++ path ++ LF :: init ++ ["E"%char])
      with (("@"%char :: str "@@ " ++ path ++ LF :: init) ++ ["E"%char]).
    + by rewrite last_snoc.
    + repeat first [ reflexivity | rewrite <- (assoc_L (++)) | progress cbn [app]
                   | progress f_equal ].
Qed.

Lemma parseBody_block path s r mark t :
  cleanPath path = true →
  includes path (str ".") = true ∨ endsWith path (str "/") = true →
  Forall (λ c, isLineTerminator c = false) path →
  firstLineHasText s = true → firstLineHasText r = true →
  includes s [LF; "="%char] = false → includes r [LF; ">"%char] = false →
  "`"%char ∉ path ++ s ++ r →
  Z.of_nat (length (editMessage path s r)) ≤ 50000 →
  performanceNowBase36 h (t + 2) = inr mark →
  let message := editMessage path s r in
  let edit := singleEdit path s r (safeId h (str "edit-" ++ path) mark t)
                (toISOString h (t + 3)) message in
  parseBody h (VStr message) t
  = (inr {| content := VStr []; artifacts := []; edits := [edit];
            instructions := Some [];
            metadata := Some {| totalArtifacts := 0; totalEdits := 1;
                                parsedAt := toISOString h (t + 4); error := None |} |},
     (t + 5)%nat)
  ∧ Earlier.parseBody h (VStr message) t
    = (inr {| Earlier.content := VStr []; Earlier.artifacts := [];
              Earlier.edits := [edit] |}, (t + 4)%nat).
Proof.
  intros Hclean Htyped Hline Hs1 Hr1 Hs2 Hr2 Hq Hlen Hmark message edit.
  pose proof (processEditBlocks_block path s r mark t
                Hclean Htyped Hline Hs1 Hr1 Hs2 Hr2 Hq Hmark) as Hblocks.
  cbv zeta in Hblocks. fold message in Hblocks, Hlen.
  pose proof patterns_need_fence as Hp. apply Forall_cons in Hp as [_ Hp].
  apply Forall_app in Hp as [Hfile Hinline].
  unfold parseBody, Earlier.parseBody.
  assert (falsy (VStr message) || negb (isString (VStr message)) = false) as ->.
  { unfold message. by rewrite editMessage_eq. }
  assert ((50000 <? Z.of_nat (length message)) = false) as ->.
  { apply Z.ltb_ge. lia. }
  cbv zeta. unfold bind at 1 5. rewrite Hblocks. cbn [fst snd map]. split.
  - unfold bind at 1.
    rewrite (forPatterns_none (filePatternLoop h));
      [|intros; by apply filePatternLoop_none|done].
    unfold bind at 1. cbn [fst snd].
    rewrite (forPatterns_none (inlinePatternLoop h));
      [|intros; by apply inlinePatternLoop_none|done].
    unfold bind, now, call, ret. cbn [fst snd].
    replace (S (t + 4)) with (t + 5)%nat by lia. reflexivity.
  - unfold bind. by rewrite earlier_forPatterns_none.
Qed.

End EditBlock.

Lemma not_includes_char c s : includes s [c] = false → c ∉ s.
Proof.
  intros H (pre & post & ->)%list_elem_of_split. rewrite includes_false in H.
  by apply (H pre post).
Qed.

(** X19: a message that is one edit block in the format the system
    prompt gives to the model comes back from [parseLLMResponse] as one
    group of edits for the path of the block, with the one operation the
    block was written from, and nothing else: no prose and no artifact.
    The path is a clean one with a dot or a final slash and on one line;
    the search text and the replacement are as [parseSearchReplace] needs
    them; none of the three holds a backquote; the message is within the
    50000 characters the parser reads, and the host answers
    [performance.now].  So do both revisions. *)
Theorem parse_reads_edit_block_back
    (h : Host) (path search replace mark : jsstring) (t : nat) :
  cleanPath path = true →
  includes path (str ".") = true ∨ endsWith path (str "/") = true →
  includes path [LF] = false → includes path [CR] = false →
  firstLineHasText search = true → firstLineHasText replace = true →
  includes search [LF; "="%char] = false → includes replace [LF; ">"%char] = false →
  includes (path ++ search ++ replace) (str "`") = false →
  Z.of_nat (length (editMessage path search replace)) ≤ 50000 →
  performanceNowBase36 h (t + 2) = inr mark →
  let message := editMessage path search replace in
  let edit := singleEdit path search replace (safeId h (str "edit-" ++ path) mark t)
                (toISOString h (t + 3)) message in
  parseLLMResponse h (VStr message) t
  = ({| content := VStr []; artifacts := []; edits := [edit];
        instructions := Some [];
        metadata := Some {| totalArtifacts := 0; totalEdits := 1;
                            parsedAt := toISOString h (t + 4); error := None |} |},
     (t + 5)%nat)
  ∧ Earlier.parseLLMResponse h (VStr message) t
    = ({| Earlier.content := VStr []; Earlier.artifacts := [];
          Earlier.edits := [edit] |}, (t + 4)%nat).
Proof.
  intros Hclean Htyped Hlf Hcr Hs1 Hr1 Hs2 Hr2 Hq Hlen Hmark.
  apply not_includes_char in Hlf, Hcr, Hq.
  assert (Forall (λ c, isLineTerminator c = false) path) as Hline.
  { apply Forall_forall. intros c Hc. unfold isLineTerminator.
    apply orb_false_iff. split; apply Ascii.eqb_neq; by intros ->. }
  destruct (parseBody_block h path search replace mark t) as [H1 H2]; try done.
  cbv zeta in *. unfold parseLLMResponse, Earlier.parseLLMResponse.
  by rewrite H1, H2.
Qed.

Lemma parse_reads_edit_block_back_witness :
  let message :=
    Samples.lines [ "```edit"; "@@@ src/app.py"; "<<<<<<< SEARCH"; "  print(1)"; "=======";
                    "  print(2)"; ">>>>>>> REPLACE"; "```" ] in
  cleanPath (str "src/app.py") = true
  ∧ firstLineHasText (str "  print(1)") = true
  ∧ message = editMessage (str "src/app.py") (str "  print(1)") (str "  print(2)")
  ∧ map (λ g, (Edit.path g, Edit.operations g, Edit.id g))
        (edits (fst (parseLLMResponse Samples.quietHost (VStr message) 0)))
    = [ (str "src/app.py", [ Samples.operation (str "  print(1)") (str "  print(2)") ],
         str "edit-src/app.py-1700000000000-2s8k-4fzyo82mvyr") ].
Proof.
  split_and!; [reflexivity..|].
  destruct (parse_reads_edit_block_back Samples.quietHost (str "src/app.py")
              (str "  print(1)") (str "  print(2)") (str "2s.8k") 0%nat)
    as [Hnow _]; [reflexivity|by left|reflexivity..|by vm_compute|reflexivity|].
  cbv zeta in Hnow. cbv zeta.
  change (Samples.lines _) with
    (editMessage (str "src/app.py") (str "  print(1)") (str "  print(2)")).
  rewrite Hnow. reflexivity.
Defined.

End EditBlockFacts.

Module IntakeFacts.

Import PathSanitizer ArtifactReconciler ResponseParser Workspace Scenes JsFacts Notions
  ReconcilerProps PatchProps ParserProps WorkspaceFacts.

(** The artifacts after a prefix are filtered with the paths of the prefix
    seen. *)
Lemma dedupe_app l1 l2 seen :
  filterState dedupeStep (l1 ++ l2) seen
  = filterState dedupeStep l1 seen
    ++ filterState dedupeStep l2 (list_to_set (path <$> l1) ∪ seen).
Proof.
  revert seen. induction l1 as [|a l1 IH]; intros seen.
  - cbn [app fmap list_fmap list_to_set]. by rewrite (left_id_L ∅ (∪)).
  - rewrite <- app_comm_cons, !filterState_dedupe_cons, fmap_cons.
    cbn [list_to_set]. case_decide as Hs.
    + rewrite IH. f_equal. f_equal. apply set_eq. intros x.
      rewrite !elem_of_union, elem_of_singleton. split; [tauto|].
      intros [[->|?]|?]; tauto.
    + rewrite IH, <- app_comm_cons. f_equal. f_equal. f_equal. apply set_eq. intros x.
      rewrite !elem_of_union, elem_of_singleton. tauto.
Qed.

Lemma enhance_inr h current p t o t' :
  enhance h current p t = (inr o, t') → enhancedFrom current p o.
Proof.
  unfold enhance. cbv zeta. destruct (existsb _ _) eqn:E.
  - by intros [<- _]%ret_inr.
  - intros (id & t1 & _ & (timestamp & t2 & _ & [<- _]%ret_inr)%bind_inr)%bind_inr.
    by split_and!.
Qed.

Lemma mapM_enhance h current parsed t mapped t' :
  mapM (enhance h current) parsed t = (inr mapped, t') →
  Forall2 (enhancedFrom current) parsed mapped.
Proof.
  revert t mapped t'. induction parsed as [|p parsed IH]; intros t mapped t'; cbn [mapM].
  - intros [<- _]%ret_inr. constructor.
  - intros (o & t1 & Ho%enhance_inr
            & (os & t2 & Hos%IH & [<- _]%ret_inr)%bind_inr)%bind_inr.
    by constructor.
Qed.

(** A response that holds nothing new makes no call of the host. *)
Lemma mapM_enhance_nothing_new h current parsed t :
  Forall (λ p, existsb (sameFile p) current = true) parsed →
  mapM (enhance h current) parsed t = (inr (map (λ _, None) parsed), t).
Proof.
  induction 1 as [|p parsed Hp _ IH]; [done|].
  cbn [mapM map]. unfold bind at 1. unfold enhance at 1. cbv zeta. rewrite Hp.
  unfold ret at 1. unfold bind at 1. by rewrite IH.
Qed.

Lemma omap_nothing {A B} (l : list A) : omap (λ a : option B, a) (map (λ _, None) l) = [].
Proof. by induction l. Qed.

Lemma enhanced_new current parsed mapped :
  Forall2 (enhancedFrom current) parsed mapped →
  Forall (λ a, ∃ p, p ∈ parsed ∧ enhancedFrom current p (Some a)) (omap (λ a, a) mapped).
Proof.
  induction 1 as [|p o parsed mapped Hp _ IH]; [constructor|].
  cbn [omap]. assert (Forall (λ a, ∃ q, q ∈ p :: parsed ∧ enhancedFrom current q (Some a))
                        (omap (λ a, a) mapped)) as IH'.
  { eapply Forall_impl; [exact IH|]. intros a (q & Hq & Ha). exists q. split; [by right|done]. }
  destruct o as [a|]; [|done]. cbn. constructor; [|done]. exists p. split; [by left|done].
Qed.

(** The path of an artifact that is not a file of the project is not a
    path of the project. *)
Lemma new_path current p :
  existsb (sameFile p) current = false → path p ∉ path <$> current.
Proof.
  intros Hnew (existing & Hpath & Hin)%list_elem_of_fmap.
  assert (existsb (sameFile p) current = true); [|congruence].
  apply existsb_exists. exists existing. split; [by apply list_elem_of_In|].
  unfold sameFile. apply orb_true_iff. left. by apply strEq_true.
Qed.


Lemma takeResponseArtifacts_stores h v current news requests t t' :
  current = currentArtifacts v → NoDup (path <$> current) →
  handleArtifactUpdate h v (current ++ news) t = (inr requests, t') →
  ∀ updatedArtifacts, SetArtifacts updatedArtifacts ∈ requests →
    ∃ key added,
      updatedArtifacts !! key = Some (current ++ added)
      ∧ NoDup (path <$> current ++ added)
      ∧ sublist added news.
Proof.
  intros -> Hnd Hup m Hin.
  assert (deduplicateArtifacts (currentArtifacts v ++ news)
          = currentArtifacts v
            ++ filterState dedupeStep news
                 (list_to_set (path <$> currentArtifacts v) ∪ ∅)) as Hd.
  { unfold deduplicateArtifacts. rewrite dedupe_app, dedupe_fixed; [done..|].
    intros a _. apply not_elem_of_empty. }
  assert (NoDup (path <$> deduplicateArtifacts (currentArtifacts v ++ news))) as Hnd'
    by apply dedupe_NoDup.
  rewrite Hd in Hnd'.
  apply handleArtifactUpdate_inr in Hup. rewrite Hd in Hup.
  destruct (noConversation _).
  - destruct Hup as [newConvId ->].
    apply elem_of_cons in Hin as [?|Hin]; [done|].
    apply elem_of_cons in Hin as [[= ->]|Hin].
    2:{ apply elem_of_cons in Hin as [?|Hin]; [done|]. by apply elem_of_nil in Hin. }
    eexists newConvId, _. split_and!; [apply lookup_singleton_eq|done|apply dedupe_sublist].
  - subst requests.
    apply elem_of_cons in Hin as [[= ->]|Hin].
    2:{ apply elem_of_cons in Hin as [?|Hin]; [done|]. by apply elem_of_nil in Hin. }
    eexists _, _. split_and!; [apply lookup_insert_eq|done|apply dedupe_sublist].
Qed.

(** X20: [sendMessage] takes the files of a response into a project
    whose files have different paths without touching a file of the
    project: whenever it asks for new artifacts, the list it stores is the
    list of the project followed by files of the response that are marked
    as added, none of which has the path or the non-empty content of a file
    of the project, and no path occurs twice in it; and it asks for nothing
    when every file of the response has the path or the non-empty content
    of a file of the project. *)
Theorem response_files_never_replace_project_files
    (h : Host) (storage : Storage) (v : View) (showArtifacts : bool)
    (parsedArtifacts : list Artifact) (t : nat) :
  NoDup (path <$> currentArtifacts v) →
  let requests := fst (fst (takeResponseArtifacts h storage v showArtifacts
                              parsedArtifacts t)) in
  (Forall (λ p, existsb (sameFile p) (currentArtifacts v) = true) parsedArtifacts →
   requests = [])
  ∧ ∀ updatedArtifacts, SetArtifacts updatedArtifacts ∈ requests →
      ∃ key added,
        updatedArtifacts !! key = Some (currentArtifacts v ++ added)
        ∧ NoDup (path <$> currentArtifacts v ++ added)
        ∧ Forall (λ a, ∃ p, p ∈ parsedArtifacts
                            ∧ enhancedFrom (currentArtifacts v) p (Some a)) added.
Proof.
  intros Hnd requests. subst requests. unfold takeResponseArtifacts.
  destruct (0 <? length parsedArtifacts)%nat; cbn [fst];
    [|split; [done|intros m Hm; by apply elem_of_nil in Hm]].
  destruct (mapM _ _ _) as [[e|mapped] t1] eqn:Emap; cbn [fst];
    [split; [done|intros m Hm; by apply elem_of_nil in Hm]|].
  destruct (0 <? length (omap _ mapped))%nat eqn:Ee; cbn [fst];
    [|split; [done|intros m Hm; by apply elem_of_nil in Hm]].
  destruct (handleArtifactUpdate _ _ _ _) as [[e|requests] t2] eqn:Eup; cbn [fst];
    [split; [done|intros m Hm; by apply elem_of_nil in Hm]|].
  split.
  - intros Hall. rewrite mapM_enhance_nothing_new in Emap by done.
    injection Emap as <- _. by rewrite omap_nothing in Ee.
  - intros m Hm.
    assert (SetArtifacts m ∈ requests) as Hin.
    { destruct (negb showArtifacts && _); [destruct (setItem _ _ _ _)|]; cbn [fst] in Hm;
        apply elem_of_app in Hm as [Hm|Hm]; try done;
        repeat (apply elem_of_cons in Hm as [?|Hm]; [done|]); by apply elem_of_nil in Hm. }
    destruct (takeResponseArtifacts_stores h v _ _ _ _ _ eq_refl Hnd Eup m Hin)
      as (key & added & Hkey & Hdistinct & Hsub).
    exists key, added. split_and!; [done..|].
    apply Forall_forall. intros a Ha.
    pose proof (enhanced_new _ _ _ (mapM_enhance _ _ _ _ _ _ Emap)) as Hnew.
    rewrite Forall_forall in Hnew. apply Hnew. by apply (elem_of_sublist added).
Qed.

Lemma response_files_never_replace_project_files_witness :
  NoDup (path <$> currentArtifacts project)
  ∧ ∀ updatedArtifacts,
      SetArtifacts updatedArtifacts
      ∈ fst (fst (takeResponseArtifacts Samples.quietHost quietStorage project false
                    [ parsedFile "greeting.txt" (str "hi");
                      parsedFile "notes.md" (str "one") ] 0)) →
      ∃ key added,
        updatedArtifacts !! key = Some (currentArtifacts project ++ added)
        ∧ NoDup (path <$> currentArtifacts project ++ added)
        ∧ Forall (λ a, ∃ p, p ∈ [ parsedFile "greeting.txt" (str "hi");
                                  parsedFile "notes.md" (str "one") ]
                            ∧ enhancedFrom (currentArtifacts project) p (Some a)) added.
Proof.
  assert (NoDup (path <$> currentArtifacts project)) as Hnd.
  { apply NoDup_cons. split; [|apply NoDup_singleton].
    intros H%list_elem_of_singleton. discriminate H. }
  split; [exact Hnd|].
  exact (proj2 (response_files_never_replace_project_files Samples.quietHost quietStorage
                  project false
                  [ parsedFile "greeting.txt" (str "hi"); parsedFile "notes.md" (str "one") ]
                  0%nat Hnd)).
Defined.

(** A response with a new content for [greeting.txt] and two files
    [notes.md]: the project keeps its greeting and takes the first of the
    two, and the message shows both as added. *)
Example response_with_one_path_twice :
  let response := [ parsedFile "greeting.txt" (str "hi"); parsedFile "notes.md" (str "one");
                    parsedFile "notes.md" (str "two") ] in
  let run := fst (takeResponseArtifacts Samples.quietHost quietStorage project false
                    response 0) in
  map (λ a, (path a, ArtifactReconciler.content a))
      (default [] (match fst run with
                   | SetArtifacts updatedArtifacts :: _ => updatedArtifacts !! str "conv-1"
                   | _ => None
                   end))
  = [ (str "greeting.txt", Samples.greeting); (str "empty.txt", []);
      (str "notes.md", str "one") ]
  ∧ match snd run with
    | inr shown =>
        map (λ s, (path (artifact s), ArtifactReconciler.content (artifact s),
                   addedToProject (artifact s))) shown
        = [ (str "notes.md", str "one", true); (str "notes.md", str "two", true) ]
    | inl _ => False
    end.
Proof. by vm_compute. Qed.

End IntakeFacts.

Module TreeFacts.

Import PathSanitizer ArtifactReconciler FileTree JsFacts.

Lemma nodeAt_empty q : nodeAt q ∅ = None.
Proof. by destruct q. Qed.

Lemma nodeAt_single part level : nodeAt [part] level = level !! part.
Proof. cbn. by destruct (level !! part). Qed.

Lemma nodeAt_cons part x q level :
  nodeAt (part :: x :: q) level =
  match level !! part with
  | Some (FolderNode _ _ children) => nodeAt (x :: q) children
  | _ => None
  end.
Proof. cbn. by destruct (level !! part) as [[]|]. Qed.

Lemma getProperty_undefined level part :
  getProperty level part = Undefined ↔ level !! part = None ∧ part ∉ objectPrototype.
Proof.
  unfold getProperty. destruct (level !! part); [by split; [|intros [? _]]|].
  case_bool_decide; by split; [|intros [_ ?]|..].
Qed.

(** The property under [part] after the first half of a turn that is not
    the last one. *)
Lemma folder_turn level part fullPath :
  let level1 :=
    match getProperty level part with
    | Undefined => <[ part := FolderNode part fullPath ∅ ]> level
    | _ => level
    end in
  (∀ x, x ≠ part → level1 !! x = level !! x)
  ∧ match getProperty level1 part with
    | Own node =>
        level1 !! part = Some node
        ∧ (level !! part = Some node
           ∨ level !! part = None ∧ (part ∉ objectPrototype)
             ∧ node = FolderNode part fullPath ∅)
    | Inherited => level1 = level ∧ level !! part = None ∧ part ∈ objectPrototype
    | Undefined => False
    end.
Proof.
  cbv zeta. destruct (getProperty level part) as [node| |] eqn:E.
  - split; [done|]. rewrite E. unfold getProperty in E.
    destruct (level !! part) as [node'|] eqn:E'; [|by case_bool_decide].
    injection E as ->. split; [done|by left].
  - split; [done|]. rewrite E. unfold getProperty in E.
    destruct (level !! part) as [node'|] eqn:E'; [done|].
    by case_bool_decide.
  - apply getProperty_undefined in E as [E Hp].
    split; [intros x Hx; by rewrite lookup_insert_ne|].
    unfold getProperty. rewrite lookup_insert_eq. split; [done|]. by right.
Qed.

Lemma place_single file before part level :
  place file before [part] level =
  match getProperty level part with
  | Undefined => Built (<[ part := fileNode file part ]> level)
  | _ => Built level
  end.
Proof. reflexivity. Qed.

Lemma place_cons file before part x rest level :
  place file before (part :: x :: rest) level =
  let level1 :=
    match getProperty level part with
    | Undefined =>
        <[ part := FolderNode part (join (str "/") (before ++ [part])) ∅ ]> level
    | _ => level
    end in
  match getProperty level1 part with
  | Own (FolderNode name fullPath children) =>
      match place file (before ++ [part]) (x :: rest) children with
      | Built children => Built (<[ part := FolderNode name fullPath children ]> level1)
      | TypeError => TypeError
      end
  | _ => TypeError
  end.
Proof. reflexivity. Qed.

Lemma plain_empty : plain ∅.
Proof. intros q node. by rewrite nodeAt_empty. Qed.

Lemma plain_children level part name fullPath children :
  plain level → level !! part = Some (FolderNode name fullPath children) → plain children.
Proof.
  intros Hplain Hpart [|x q] node Hq; [done|].
  assert (nodeAt (part :: x :: q) level = Some node) as H.
  { by rewrite nodeAt_cons, Hpart. }
  apply Hplain in H. by apply Forall_cons in H as [_ H].
Qed.

Lemma plain_insert level part node :
  plain level → part ∉ objectPrototype →
  match node with FolderNode _ _ children => plain children | FileNode _ _ _ => True end →
  plain (<[ part := node ]> level).
Proof.
  intros Hplain Hpart Hnode [|x [|y q]] found Hq; [done| |].
  - rewrite nodeAt_single in Hq. destruct (decide (x = part)) as [->|Hx].
    + by repeat constructor.
    + rewrite lookup_insert_ne in Hq by done. apply (Hplain [x] found).
      by rewrite nodeAt_single.
  - rewrite nodeAt_cons in Hq. destruct (decide (x = part)) as [->|Hx].
    + rewrite lookup_insert_eq in Hq. destruct node as [|name fullPath children]; [done|].
      apply Hnode in Hq. by constructor.
    + rewrite lookup_insert_ne in Hq by done. apply (Hplain (x :: y :: q) found).
      by rewrite nodeAt_cons.
Qed.

Lemma plain_own level part node :
  plain level → level !! part = Some node → part ∉ objectPrototype.
Proof.
  intros Hplain Hpart. assert (nodeAt [part] level = Some node) as H
    by by rewrite nodeAt_single.
  apply Hplain in H. by apply Forall_cons in H as [H _].
Qed.

(** A turn keeps the tree free of the names of [Object.prototype]. *)
Lemma place_plain file before parts level level' :
  plain level → place file before parts level = Built level' → plain level'.
Proof.
  revert before level level'. induction parts as [|part rest IH];
    intros before level level' Hplain; [by intros [= <-]|].
  destruct rest as [|x rest].
  - rewrite place_single. destruct (getProperty level part) eqn:E; try by intros [= <-].
    apply getProperty_undefined in E as [_ Hpart]. intros [= <-].
    by apply plain_insert.
  - rewrite place_cons. cbv zeta.
    pose proof (folder_turn level part (join (str "/") (before ++ [part]))) as Hturn.
    cbv zeta in Hturn. revert Hturn.
    generalize (match getProperty level part with
                | Undefined =>
                    <[ part := FolderNode part (join (str "/") (before ++ [part])) ∅ ]> level
                | _ => level
                end).
    intros level1 [Hother Hturn].
    destruct (getProperty level1 part) as [[|name fullPath children]| |]; try done.
    destruct Hturn as [Hpart Hfrom].
    destruct (place file (before ++ [part]) (x :: rest) children) as [children'|] eqn:E;
      [|done].
    intros [= <-].
    assert (plain children ∧ part ∉ objectPrototype) as [Hchildren Hname].
    { destruct Hfrom as [Hold|(_ & Hname & [= -> -> ->])].
      - split; [by eapply plain_children|by eapply plain_own].
      - split; [apply plain_empty|done]. }
    assert (plain level1) as Hplain1.
    { intros [|y [|z q]] found Hq; [done| |].
      - rewrite nodeAt_single in Hq. destruct (decide (y = part)) as [->|Hy].
        + by repeat constructor.
        + rewrite Hother in Hq by done. apply (Hplain [y] found). by rewrite nodeAt_single.
      - rewrite nodeAt_cons in Hq. destruct (decide (y = part)) as [->|Hy].
        + rewrite Hpart in Hq. apply Hchildren in Hq. by constructor.
        + rewrite Hother in Hq by done. apply (Hplain (y :: z :: q) found).
          by rewrite nodeAt_cons. }
    apply plain_insert; [done..|]. by apply (IH _ _ _ Hchildren E).
Qed.

(** A turn for a path with a folder named like a member of
    [Object.prototype] ends in an error. *)
Lemma place_inherited file before0 before part rest level :
  plain level → part ∈ objectPrototype → rest ≠ [] →
  place file before0 (before ++ part :: rest) level = TypeError.
Proof.
  intros Hplain Hpart Hrest. revert before0 level Hplain.
  induction before as [|b before IH]; intros before0 level Hplain.
  - destruct rest as [|x rest]; [done|]. cbn [app]. rewrite place_cons. cbv zeta.
    assert (getProperty level part = Inherited) as E.
    { unfold getProperty. destruct (level !! part) as [node|] eqn:E.
      - by apply plain_own in E.
      - by rewrite bool_decide_true. }
    by rewrite E, E.
  - assert (∃ x tail, before ++ part :: rest = x :: tail) as (x & tail & Etail).
    { destruct before; by eexists _, _. }
    cbn [app]. rewrite Etail, place_cons. cbv zeta.
    pose proof (folder_turn level b (join (str "/") (before0 ++ [b]))) as Hturn.
    cbv zeta in Hturn. revert Hturn.
    generalize (match getProperty level b with
                | Undefined =>
                    <[ b := FolderNode b (join (str "/") (before0 ++ [b])) ∅ ]> level
                | _ => level
                end).
    intros level1 [Hother Hturn].
    destruct (getProperty level1 b) as [[|name fullPath children]| |]; try done.
    destruct Hturn as [Hb Hfrom]. rewrite <- Etail, IH; [done|].
    destruct Hfrom as [Hold|(_ & _ & [= -> -> ->])];
      [by eapply plain_children|apply plain_empty].
Qed.

Lemma placeAll_inherited files tree file before part rest :
  plain tree → file ∈ files →
  split "/"%char (path file) = before ++ part :: rest →
  part ∈ objectPrototype → rest ≠ [] →
  placeAll files tree = TypeError.
Proof.
  intros Hplain Hin Hparts Hpart Hrest. revert tree Hplain.
  induction files as [|f files IH]; intros tree Hplain; [by apply elem_of_nil in Hin|].
  cbn [placeAll]. apply elem_of_cons in Hin as [<-|Hin].
  - by rewrite Hparts, place_inherited.
  - destruct (place f [] _ tree) as [tree'|] eqn:E; [|done].
    apply IH; [done|]. by eapply place_plain.
Qed.

(** X22: [fileTree] ends in a [TypeError] when one of the first 100
    files has a folder in its path whose name is the name of a member of
    [Object.prototype], such as [constructor] or [toString]: the lookup of
    the name finds the inherited member instead of a folder. *)
Theorem fileTree_fails_on_folder_named_like_a_member
    (currentArtifacts : list Artifact) (file : Artifact)
    (before : list jsstring) (part : jsstring) (rest : list jsstring) :
  file ∈ take 100 currentArtifacts →
  split "/"%char (path file) = before ++ part :: rest →
  part ∈ objectPrototype → rest ≠ [] →
  fileTree currentArtifacts = TypeError.
Proof.
  intros Hin Hparts Hpart Hrest. unfold fileTree.
  by apply (placeAll_inherited _ _ file before part rest plain_empty).
Qed.

Lemma fileTree_fails_on_folder_named_like_a_member_witness :
  fileTree [ Scenes.file "src/constructor/index.js" (str "x") ] = TypeError.
Proof.
  apply (fileTree_fails_on_folder_named_like_a_member _
           (Scenes.file "src/constructor/index.js" (str "x"))
           [str "src"] (str "constructor") [str "index.js"]).
  - apply list_elem_of_here.
  - reflexivity.
  - unfold objectPrototype. apply list_elem_of_In. cbn. tauto.
  - discriminate.
Defined.


(** A lookup that does not go through [part] is not changed by an update
    of the property [part]. *)
Lemma nodeAt_other level level' part y q :
  y ≠ part → (∀ x, x ≠ part → level' !! x = level !! x) →
  nodeAt (y :: q) level' = nodeAt (y :: q) level.
Proof.
  intros Hy Hother. destruct q as [|z q].
  - by rewrite !nodeAt_single, Hother.
  - by rewrite !nodeAt_cons, Hother.
Qed.

(** The turns for a file whose place is free: no file is on the way and
    nothing is at its path. *)
Lemma place_new file before parts level :
  parts ≠ [] → Forall (λ part, part ∉ objectPrototype) parts →
  (∀ q g n fp, q `prefix_of` parts → nodeAt q level ≠ Some (FileNode g n fp)) →
  nodeAt parts level = None →
  ∃ level' part,
    place file before parts level = Built level'
    ∧ last parts = Some part
    ∧ nodeAt parts level' = Some (fileNode file part)
    ∧ (∀ q, q `prefix_of` parts → q ≠ parts → q ≠ [] →
         ∃ n fp ch, nodeAt q level' = Some (FolderNode n fp ch))
    ∧ (∀ q, ¬ q `prefix_of` parts → nodeAt q level' = nodeAt q level).
Proof.
  revert before level. induction parts as [|part rest IH];
    intros before level Hne Hnames Hway Hfree; [done|]. clear Hne.
  apply Forall_cons in Hnames as [Hname Hnames].
  destruct rest as [|x rest].
  - rewrite nodeAt_single in Hfree.
    assert (getProperty level part = Undefined) as E by by apply getProperty_undefined.
    exists (<[ part := fileNode file part ]> level), part.
    rewrite place_single, E, nodeAt_single, lookup_insert_eq. split_and!; try done.
    + intros [|y [|z q]] Hq Hneq Hnil; [done| |].
      * apply prefix_cons_inv_1 in Hq. by subst.
      * apply prefix_cons_inv_2, prefix_nil_inv in Hq. done.
    + intros [|y q] Hq; [by destruct Hq; apply prefix_nil|].
      destruct (decide (y = part)) as [->|Hy].
      * destruct q as [|z q]; [by destruct Hq|].
        by rewrite !nodeAt_cons, lookup_insert_eq, Hfree.
      * apply (nodeAt_other _ _ part); [done|]. intros k Hk. by rewrite lookup_insert_ne.
  - rewrite place_cons. cbv zeta.
    pose proof (folder_turn level part (join (str "/") (before ++ [part]))) as Hturn.
    cbv zeta in Hturn. revert Hturn.
    generalize (match getProperty level part with
                | Undefined =>
                    <[ part := FolderNode part (join (str "/") (before ++ [part])) ∅ ]> level
                | _ => level
                end).
    intros level1 [Hother Hturn].
    destruct (getProperty level1 part) as [node| |]; [|by destruct Hturn as (_ & _ & ?)|done].
    destruct Hturn as [Hpart Hfrom].
    assert (∃ name fullPath children,
              node = FolderNode name fullPath children
              ∧ ∀ y q, nodeAt (part :: y :: q) level = nodeAt (y :: q) children)
      as (name & fullPath & children & -> & Hdown).
    { destruct Hfrom as [Hold|(Hold & _ & ->)].
      - destruct node as [g n fp|name fullPath children].
        + exfalso. apply (Hway [part] g n fp).
          * apply prefix_cons, prefix_nil.
          * by rewrite nodeAt_single.
        + eexists _, _, _. split; [done|]. intros y q. by rewrite nodeAt_cons, Hold.
      - eexists _, _, _. split; [done|]. intros y q.
        by rewrite nodeAt_cons, Hold, nodeAt_empty. }
    destruct (IH (before ++ [part]) children) as (children' & last' & E & Hlast & Hfile
                                                   & Hfolders & Hrest); [done|done| | |].
    { intros [|y q] g n fp Hq; [done|]. rewrite <- Hdown. apply Hway. by apply prefix_cons. }
    { by rewrite <- Hdown. }
    rewrite E. eexists _, last'. split_and!; [done|done| | |].
    + by rewrite nodeAt_cons, lookup_insert_eq.
    + intros [|y [|z q]] Hq Hneq Hnil; [done| |].
      * apply prefix_cons_inv_1 in Hq as ->. rewrite nodeAt_single, lookup_insert_eq.
        by eexists _, _, _.
      * pose proof (prefix_cons_inv_1 _ _ _ _ Hq) as ->. apply prefix_cons_inv_2 in Hq.
        rewrite nodeAt_cons, lookup_insert_eq. apply Hfolders; [done| |done].
        intros Heq. by rewrite Heq in Hneq.
    + intros [|y q] Hq; [by destruct Hq; apply prefix_nil|].
      destruct (decide (y = part)) as [->|Hy].
      * destruct q as [|z q]; [destruct Hq; apply prefix_cons, prefix_nil|].
        rewrite nodeAt_cons, lookup_insert_eq, Hdown. apply Hrest.
        intros Hp. apply Hq. by apply prefix_cons.
      * apply (nodeAt_other _ _ part); [done|]. intros k Hk. rewrite lookup_insert_ne by done.
        by apply Hother.
Qed.


Lemma separate_done (done files : list Artifact) f g :
  separate (map (λ f, split "/"%char (path f)) (done ++ f :: files)) → g ∈ done →
  ¬ split "/"%char (path g) `prefix_of` split "/"%char (path f)
  ∧ ¬ split "/"%char (path f) `prefix_of` split "/"%char (path g).
Proof.
  intros Hsep (i & Hi)%list_elem_of_lookup.
  pose proof (lookup_lt_Some _ _ _ Hi) as Hlt.
  assert (map (λ f, split "/"%char (path f)) (done ++ f :: files) !! i
          = Some (split "/"%char (path g))) as Hg.
  { change (map ?h ?l) with (h <$> l). by rewrite list_lookup_fmap, lookup_app_l, Hi. }
  assert (map (λ f, split "/"%char (path f)) (done ++ f :: files) !! length done
          = Some (split "/"%char (path f))) as Hf.
  { change (map ?h ?l) with (h <$> l). by rewrite list_lookup_fmap, list_lookup_middle. }
  split; [apply (Hsep i (length done))|apply (Hsep (length done) i)]; try done; lia.
Qed.

Lemma placeAll_new done files tree :
  separate (map (λ f, split "/"%char (path f)) (done ++ files)) →
  Forall (λ f, Forall (λ part, part ∉ objectPrototype) (split "/"%char (path f))) files →
  (∀ f, f ∈ done →
     ∃ part, last (split "/"%char (path f)) = Some part
             ∧ nodeAt (split "/"%char (path f)) tree = Some (fileNode f part)) →
  (∀ q node, nodeAt q tree = Some node →
     ∃ f, f ∈ done ∧ q `prefix_of` split "/"%char (path f)) →
  (∀ q g n fp, nodeAt q tree = Some (FileNode g n fp) →
     ∃ f, f ∈ done ∧ q = split "/"%char (path f)) →
  ∃ tree',
    placeAll files tree = Built tree'
    ∧ (∀ f, f ∈ done ++ files →
         ∃ part, last (split "/"%char (path f)) = Some part
                 ∧ nodeAt (split "/"%char (path f)) tree' = Some (fileNode f part))
    ∧ (∀ q node, nodeAt q tree' = Some node →
         ∃ f, f ∈ done ++ files ∧ q `prefix_of` split "/"%char (path f))
    ∧ (∀ q g n fp, nodeAt q tree' = Some (FileNode g n fp) →
         ∃ f, f ∈ done ++ files ∧ q = split "/"%char (path f)).
Proof.
  revert done tree. induction files as [|f files IH];
    intros done tree Hsep Hnames Hfiles Hnodes Hleaves.
  { exists tree. by rewrite app_nil_r. }
  apply Forall_cons in Hnames as [Hname Hnames].
  destruct (place_new f [] (split "/"%char (path f)) tree)
    as (tree' & part & E & Hlast & Hfile & Hfolders & Hrest).
  { apply split_nonempty. }
  { done. }
  { intros q g n fp Hq Hnode. apply Hleaves in Hnode as (g' & Hg' & ->).
    by destruct (separate_done _ _ _ _ Hsep Hg') as [? _]. }
  { destruct (nodeAt _ tree) as [node|] eqn:Hnode; [|done].
    apply Hnodes in Hnode as (g' & Hg' & Hpre).
    by destruct (separate_done _ _ _ _ Hsep Hg') as [_ ?]. }
  cbn [placeAll]. rewrite E.
  destruct (IH (done ++ [f]) tree') as (tree'' & E' & H1 & H2 & H3).
  - by rewrite <- (assoc_L (++)).
  - done.
  - intros g [Hg|Hg%list_elem_of_singleton]%elem_of_app; [|subst g; by exists part].
    destruct (Hfiles g Hg) as (p & Hp & Hnode). exists p. split; [done|].
    rewrite Hrest; [done|]. by destruct (separate_done _ _ _ _ Hsep Hg) as [? _].
  - intros q node Hnode. destruct (decide (q `prefix_of` split "/"%char (path f))) as [Hq|Hq].
    + exists f. split; [|done]. apply elem_of_app. right. by left.
    + rewrite Hrest in Hnode by done. apply Hnodes in Hnode as (g & Hg & Hpre).
      exists g. split; [|done]. apply elem_of_app. by left.
  - intros q g n fp Hnode.
    destruct (decide (q `prefix_of` split "/"%char (path f))) as [Hq|Hq].
    + exists f. split; [apply elem_of_app; right; by left|].
      destruct (decide (q = split "/"%char (path f))) as [->|Hneq]; [done|].
      destruct (Hfolders q Hq Hneq) as (n' & fp' & ch & Hfolder); [by intros ->|].
      congruence.
    + rewrite Hrest in Hnode by done. apply Hleaves in Hnode as (g' & Hg' & ->).
      exists g'. split; [|done]. apply elem_of_app. by left.
  - exists tree''. by rewrite <- (assoc_L (++)) in H1, H2, H3.
Qed.

(** X21: when none of the first 100 files has a path that is the path
    of another or of a folder of another, and no part of their paths is the
    name of a member of [Object.prototype], [fileTree] builds a tree that
    holds each of these files at its path, as a file node with the last
    part as name, and nothing but these files and the folders on their
    paths. *)
Theorem fileTree_holds_every_file (currentArtifacts : list Artifact) :
  let files := take 100 currentArtifacts in
  separate (map (λ f, split "/"%char (path f)) files) →
  Forall (λ f, Forall (λ part, part ∉ objectPrototype) (split "/"%char (path f))) files →
  ∃ tree,
    fileTree currentArtifacts = Built tree
    ∧ (∀ f, f ∈ files →
         ∃ part, last (split "/"%char (path f)) = Some part
                 ∧ nodeAt (split "/"%char (path f)) tree = Some (fileNode f part))
    ∧ (∀ q node, nodeAt q tree = Some node →
         ∃ f, f ∈ files ∧ q `prefix_of` split "/"%char (path f))
    ∧ (∀ q g n fp, nodeAt q tree = Some (FileNode g n fp) →
         ∃ f, f ∈ files ∧ q = split "/"%char (path f)).
Proof.
  intros files Hsep Hnames. unfold fileTree. fold files.
  apply (placeAll_new [] files ∅); try done.
  - intros f Hf. by apply elem_of_nil in Hf.
  - intros q node. by rewrite nodeAt_empty.
  - intros q g n fp. by rewrite nodeAt_empty.
Qed.


Lemma fileTree_holds_every_file_witness :
  let files := [ Scenes.file "src/App.jsx" (str "a"); Scenes.file "src/main.jsx" (str "b");
                 Scenes.file "README.md" (str "c") ] in
  separate (map (λ f, split "/"%char (path f)) (take 100 files))
  ∧ ∃ tree,
      fileTree files = Built tree
      ∧ nodeAt [str "src"; str "main.jsx"] tree
        = Some (fileNode (Scenes.file "src/main.jsx" (str "b")) (str "main.jsx")).
Proof.
  intros files.
  assert (separate (map (λ f, split "/"%char (path f)) (take 100 files))) as Hsep.
  { intros [|[|[|i]]] [|[|[|j]]] p q [= <-] [= <-] Hij Hp; try done;
      try (by apply prefix_cons_inv_1 in Hp);
      by apply prefix_cons_inv_2, prefix_cons_inv_1 in Hp. }
  split; [exact Hsep|].
  destruct (fileTree_holds_every_file files Hsep) as (tree & Htree & Hfiles & _).
  { repeat constructor; intros H%list_elem_of_In; cbn in H;
      by repeat destruct H as [H|H]. }
  exists tree. split; [done|].
  destruct (Hfiles (Scenes.file "src/main.jsx" (str "b"))) as (part & Hpart & Hnode).
  { apply list_elem_of_In. cbn. tauto. }
  injection Hpart as <-. exact Hnode.
Defined.

(** The hypotheses are needed: with a file at the path of a folder of a
    later file the computation ends in an error, and a file at the path of
    a folder that is already there is left out. *)
Example fileTree_file_in_the_way :
  fileTree [ Scenes.file "docs.md" (str "a"); Scenes.file "docs.md/intro.md" (str "b") ]
  = TypeError
  ∧ match fileTree [ Scenes.file "docs.md/intro.md" (str "b");
                     Scenes.file "docs.md" (str "a") ] with
    | Built tree =>
        ∃ children,
          nodeAt [str "docs.md"] tree
          = Some (FolderNode (str "docs.md") (str "docs.md") children)
    | TypeError => False
    end.
Proof. split; [reflexivity|]. vm_compute. by eexists. Qed.

End TreeFacts.

Module PipelineFacts.

Import PathSanitizer ArtifactReconciler Regex ResponseParser Workspace Notions Terms
  JsFacts ReconcilerProps PatchProps ParserProps StringFacts WorkspaceFacts EditBlockFacts.

Lemma firstLineHasText_nonempty s : firstLineHasText s = true → s ≠ [].
Proof. by intros H ->. Qed.

(** X23: an edit block in the format of the system prompt goes through:
    when the edit parsed from its message is the current edit with its
    identifier, its path resolves to a file of the current conversation and
    its search text occurs in that file, [handleApplyEditFromViewer] for
    that identifier stores the files of the conversation with the last
    occurrence of the search text in that file replaced, and reports that
    the one change was applied.  The hypotheses on the block are those
    under which the parser reads it back; the files have different paths. *)
Theorem edit_block_applies_from_viewer
    (h : Host) (v : View) (path search replace mark : jsstring) (t t' : nat)
    (target : Artifact) (pre post : jsstring) :
  cleanPath path = true →
  includes path (str ".") = true ∨ endsWith path (str "/") = true →
  includes path [LF] = false → includes path [CR] = false →
  firstLineHasText search = true → firstLineHasText replace = true →
  includes search [LF; "="%char] = false → includes replace [LF; ">"%char] = false →
  includes (path ++ search ++ replace) (str "`") = false →
  Z.of_nat (length (editMessage path search replace)) ≤ 50000 →
  performanceNowBase36 h (t + 2) = inr mark →
  List.find (λ e, strEq (Edit.id e) (safeId h (str "edit-" ++ path) mark t)) (currentEdits v)
  = head (edits (fst (parseLLMResponse h (VStr (editMessage path search replace)) t))) →
  noConversation (currentConversationId v) = false →
  NoDup (ArtifactReconciler.path <$> currentArtifacts v) →
  findTargetFileForEdit (currentArtifacts v) path = Some target →
  ArtifactReconciler.content target = pre ++ search ++ post →
  last (occurrences (ArtifactReconciler.content target) search) = Some (length pre) →
  let updatedArtifacts :=
    <[ propertyKey (currentConversationId v) :=
         map (λ art, if strEq (ArtifactReconciler.path art) (ArtifactReconciler.path target)
                     then withContent art (pre ++ replace ++ post) else art)
             (currentArtifacts v) ]> (artifacts v) in
  handleApplyEditFromViewer h v (safeId h (str "edit-" ++ path) mark t) t'
  = (inr [ SetArtifacts updatedArtifacts; SaveArtifactsAfter 50 updatedArtifacts;
           AlertShown (AppliedAll 1 (ArtifactReconciler.path target)) ], t').
Proof.
  intros Hclean Htyped Hlf Hcr Hs1 Hr1 Hs2 Hr2 Hq Hlen Hmark Hedits Hconv Hnd Htarget
    Hcontent Hlast.
  apply not_includes_char in Hlf, Hcr, Hq.
  assert (Forall (λ c, isLineTerminator c = false) path) as Hline.
  { apply Forall_forall. intros c Hc. unfold isLineTerminator.
    apply orb_false_iff. split; apply Ascii.eqb_neq; by intros ->. }
  destruct (parseBody_block h path search replace mark t) as [Hparse _]; try done.
  cbv zeta in Hparse. unfold parseLLMResponse in Hedits. rewrite Hparse in Hedits.
  cbn [fst edits head] in Hedits.
  unfold handleApplyEditFromViewer. rewrite Hedits.
  change (Edit.path (singleEdit ?p _ _ _ _ _)) with p.
  change (Edit.operations (singleEdit _ ?s ?r _ _ _))
    with [ {| PatchEngine.search := s; PatchEngine.replace := r;
              PatchEngine.type := str "search_replace" |} ].
  rewrite Htarget. cbv zeta.
  assert (ArtifactReconciler.content target ≠ []) as Hne.
  { rewrite Hcontent. apply firstLineHasText_nonempty in Hs1.
    destruct pre, search; done. }
  rewrite applySearchReplace_nonempty by done. cbv zeta. rewrite sorted_single.
  cbn [fold_left].
  rewrite (applyOperation_exact _ _ (length pre)) by exact Hlast.
  cbn [PatchEngine.Loop.result PatchEngine.Loop.appliedCount PatchEngine.Loop.failedOps
       PatchEngine.op PatchEngine.search PatchEngine.replace PatchEngine.appliedCount
       PatchEngine.result PatchEngine.failedOps resultText Nat.eqb length].
  assert (take (length pre) (ArtifactReconciler.content target) = pre) as ->.
  { rewrite Hcontent. apply take_app_length. }
  assert (drop (length pre + length search) (ArtifactReconciler.content target) = post) as ->.
  { rewrite Hcontent, (assoc_L (++)). apply drop_app_length'. by rewrite length_app. }
  unfold bind, handleArtifactUpdate. rewrite Hconv. unfold ret.
  unfold deduplicateArtifacts. rewrite dedupe_fixed; [done| |].
  - by rewrite withContent_paths.
  - intros a _. apply not_elem_of_empty.
Qed.


Lemma edit_block_applies_from_viewer_witness :
  let message := editMessage (str "greeting.txt") (str "hello") (str "bye") in
  let v := Scenes.projectAfter message in
  cleanPath (str "greeting.txt") = true
  ∧ findTargetFileForEdit (currentArtifacts v) (str "greeting.txt")
    = Some (Scenes.file "greeting.txt" Samples.greeting)
  ∧ Samples.greeting = [] ++ str "hello" ++ str " wide world"
  ∧ ∃ t' updatedArtifacts,
      handleApplyEditFromViewer Samples.quietHost v
        (str "edit-greeting.txt-1700000000000-2s8k-4fzyo82mvyr") 5%nat
      = (inr [ SetArtifacts updatedArtifacts; SaveArtifactsAfter 50 updatedArtifacts;
               AlertShown (AppliedAll 1 (str "greeting.txt")) ], t')
      ∧ updatedArtifacts !! str "conv-1"
        = Some [ withContent (Scenes.file "greeting.txt" Samples.greeting)
                   (str "bye wide world");
                 Scenes.file "empty.txt" [] ].
Proof.
  intros message v. split_and!; [reflexivity..|].
  eexists _, _. split.
  - apply (edit_block_applies_from_viewer Samples.quietHost v (str "greeting.txt")
             (str "hello") (str "bye") (str "2s.8k") 0%nat 5%nat
             (Scenes.file "greeting.txt" Samples.greeting) [] (str " wide world")).
    1, 3-13, 15-17: by vm_compute.
    + by left.
    + apply NoDup_cons. split; [|apply NoDup_singleton].
      intros H%list_elem_of_singleton. discriminate H.
  - reflexivity.
Defined.

End PipelineFacts.
